(** * aws-relay: the lifecycle store and the protocol codec

    A shallow embedding of [internal/store] (the [Store] with its
    [RecordSend], [RecordReceive], [RecordDelete], [GetMessages],
    [GetHistory], [GetQueueStats], [Clear] and [generateID]) and of the
    action and attribute extraction of [internal/proxy], followed by the
    properties the specification states about them.

    Go strings are byte strings: they are [string] (a list of 8-bit
    [ascii]).  Go maps are [gmap]s, a [map[string]bool] used as a set is
    a [gset].  [*Message] values are addresses into an explicit heap, so
    that the sharing between [Store.messages] and [Store.history] is
    the one of the program. *)

From Stdlib Require Import ZArith Ascii String List Lia.
From stdpp Require Import base option list gmap strings fin_maps fin_sets.

Local Open Scope string_scope.
Local Open Scope Z_scope.
Local Open Scope list_scope.

(** ** Go runtime pieces the store relies on *)

Module Go.

(** Two's complement wrap-around of a [w]-bit signed integer. *)
Definition wrap (w : Z) (x : Z) : Z :=
  (x + 2 ^ (w - 1)) mod 2 ^ w - 2 ^ (w - 1).

Definition int64 (x : Z) : Z := wrap 64 x.

(** [rune(x)]: conversion to [int32]. *)
Definition rune (x : Z) : Z := wrap 32 x.

Definition byte (b : Z) : ascii := ascii_of_N (Z.to_N (b mod 256)).

Definition RuneError : Z := 65533.
Definition MaxRune : Z := 1114111.

(** [utf8.AppendRune]. *)
Definition encodeRune (r : Z) : string :=
  if (0 <=? r) && (r <=? 127) then
    String (byte r) ""
  else if (0 <=? r) && (r <=? 2047) then
    String (byte (Z.lor 192 (Z.shiftr r 6)))
      (String (byte (Z.lor 128 (Z.land r 63))) "")
  else
    let r' :=
      if (r <? 0) || (MaxRune <? r) || ((55296 <=? r) && (r <=? 57343))
      then RuneError else r in
    if r' <=? 65535 then
      String (byte (Z.lor 224 (Z.shiftr r' 12)))
        (String (byte (Z.lor 128 (Z.land (Z.shiftr r' 6) 63)))
           (String (byte (Z.lor 128 (Z.land r' 63))) ""))
    else
      String (byte (Z.lor 240 (Z.shiftr r' 18)))
        (String (byte (Z.lor 128 (Z.land (Z.shiftr r' 12) 63)))
           (String (byte (Z.lor 128 (Z.land (Z.shiftr r' 6) 63)))
              (String (byte (Z.lor 128 (Z.land r' 63))) ""))).

(** [string(r)] for a rune [r]: its UTF-8 encoding, and that of U+FFFD
    for a value that is no valid code point. *)
Definition string_of_rune (r : Z) : string := encodeRune r.

(** Decimal digits of a non-negative [int], most significant first. *)
Fixpoint digits (fuel : nat) (n : Z) (acc : string) : string :=
  match fuel with
  | O => acc
  | S fuel' =>
      let acc' := String (byte (48 + n mod 10)) acc in
      if n / 10 =? 0 then acc' else digits fuel' (n / 10) acc'
  end.

Fixpoint zeros (n : nat) : string :=
  match n with O => "" | S n' => String "0"%char (zeros n') end.

(** [time.appendInt]: [x] in decimal, zero-padded to [width]. *)
Definition appendInt (x : Z) (width : nat) : string :=
  let u := Z.abs x in
  let ds := digits 20 u "" in
  (if x <? 0 then "-" else "") +:+ zeros (width - String.length ds) +:+ ds.

(** A [time.Time], seen through its [Date] and [Clock] fields. *)
Record Time : Type := mkTime {
  tYear : Z; tMonth : Z; tDay : Z;
  tHour : Z; tMinute : Z; tSecond : Z;
  tNanosecond : Z
}.

(** [t.Format("20060102150405")]. *)
Definition Format_20060102150405 (t : Time) : string :=
  appendInt (tYear t) 4 +:+ appendInt (tMonth t) 2 +:+ appendInt (tDay t) 2
    +:+ appendInt (tHour t) 2 +:+ appendInt (tMinute t) 2
    +:+ appendInt (tSecond t) 2.

End Go.

(** ** The data model of [internal/store] *)

Inductive MessageAction : Type :=
  | ActionSend
  | ActionReceive
  | ActionDelete.

#[global] Instance MessageAction_eq_dec : EqDecision MessageAction.
Proof. solve_decision. Defined.

(** [Attributes] is a Go map that the store never writes to; the nil map
    and the empty map are both [∅]. *)
Record Message : Type := mkMessage {
  ID : string;
  MessageID : string;
  ReceiptHandle : string;
  QueueURL : string;
  QueueName : string;
  Body : string;
  Attributes : gmap string string;
  Action : MessageAction;
  Timestamp : Go.Time;
  Deleted : bool;
  DeletedAt : option Go.Time
}.

Record QueueStats : Type := mkQueueStats {
  qsQueueName : string;
  qsQueueURL : string;
  TotalSent : Z;
  TotalReceived : Z;
  TotalDeleted : Z;
  Pending : Z
}.

(** A [*Message]: an address in the heap of allocated messages. *)
Abbreviation ptr := nat (only parsing).

(** [Store], without its lock: every method holds the lock from entry to
    return, so each one is an atomic transition. *)
Record Store : Type := mkStore {
  messages : gmap string ptr;
  queues : gmap string (gset string);
  history : list ptr;
  receipts : gmap string string
}.

(** The state a store method runs in: the allocated messages, the store,
    the package variable [idCounter] and the wall clock ([clock w n] is
    what the [n]-th call of [time.Now] returns). *)
Record World : Type := mkWorld {
  heap : list Message;
  store : Store;
  idCounter : Z;
  clock : nat → Go.Time;
  ticks : nat
}.

(** ** A state monad with failure

    [None] is a run-time panic (a nil or dangling dereference, an index
    out of range). *)

Definition M (A : Type) : Type := World → option (A * World).

#[global] Instance M_ret : MRet M := λ A a w, Some (a, w).
#[global] Instance M_bind : MBind M := λ A B f m w,
  match m w with
  | Some (a, w') => f a w'
  | None => None
  end.

Definition timeNow : M Go.Time := λ w,
  Some (clock w (ticks w),
        mkWorld (heap w) (store w) (idCounter w) (clock w) (S (ticks w))).

(** [&Message{...}] *)
Definition new (m : Message) : M ptr := λ w,
  Some (length (heap w),
        mkWorld (heap w ++ [m]) (store w) (idCounter w) (clock w) (ticks w)).

(** A read through the pointer [p]. *)
Definition load (p : ptr) : M Message := λ w,
  match heap w !! p with
  | Some m => Some (m, w)
  | None => None
  end.

(** A write through the pointer [p]: the cell becomes [f] of itself. *)
Definition update (p : ptr) (f : Message → Message) : M unit := λ w,
  match heap w !! p with
  | Some m =>
      Some (tt, mkWorld (<[p := f m]> (heap w)) (store w) (idCounter w)
                  (clock w) (ticks w))
  | None => None
  end.

Definition or_panic {A : Type} (o : option A) : M A := λ w,
  match o with
  | Some a => Some (a, w)
  | None => None
  end.

Definition getStore : M Store := λ w, Some (store w, w).

Definition putStore (s : Store) : M unit := λ w,
  Some (tt, mkWorld (heap w) s (idCounter w) (clock w) (ticks w)).

Definition set_messages (f : gmap string ptr → gmap string ptr) : M unit :=
  s ← getStore;
  putStore (mkStore (f (messages s)) (queues s) (history s) (receipts s)).

Definition set_queues
    (f : gmap string (gset string) → gmap string (gset string)) : M unit :=
  s ← getStore;
  putStore (mkStore (messages s) (f (queues s)) (history s) (receipts s)).

Definition set_history (f : list ptr → list ptr) : M unit :=
  s ← getStore;
  putStore (mkStore (messages s) (queues s) (f (history s)) (receipts s)).

Definition set_receipts (f : gmap string string → gmap string string)
    : M unit :=
  s ← getStore;
  putStore (mkStore (messages s) (queues s) (history s) (f (receipts s))).

(** ** [generateID]

    [idCounter] is an [int64]; the increment wraps.  The function holds
    [idMu] throughout, so it is one transition. *)

Definition generateID : M string := λ w,
  let c := Go.int64 (idCounter w + 1) in
  (now ← timeNow;
   mret (Go.Format_20060102150405 now +:+ "-" +:+ Go.string_of_rune (Go.rune c)))
    (mkWorld (heap w) (store w) c (clock w) (ticks w)).

(** ** The store's methods *)

Definition New : Store := mkStore ∅ ∅ [] ∅.

(** The membership update: create the queue set when it is nil, then
    set [s.queues[queueName][messageID] = true]. *)
Definition add_member (queueName messageID : string)
    (qs : gmap string (gset string)) : gmap string (gset string) :=
  let qs' := match qs !! queueName with
             | None => <[queueName := ∅]> qs
             | Some _ => qs
             end in
  match qs' !! queueName with
  | Some ms => <[queueName := {[messageID]} ∪ ms]> qs'
  | None => qs'
  end.

Definition RecordSend (queueURL queueName messageID body : string)
    (attributes : gmap string string) : M unit :=
  id ← generateID;
  now ← timeNow;
  msg ← new {| ID := id; MessageID := messageID; ReceiptHandle := "";
               QueueURL := queueURL; QueueName := queueName; Body := body;
               Attributes := attributes; Action := ActionSend;
               Timestamp := now; Deleted := false; DeletedAt := None |};
  _ ← set_messages (λ ms, <[messageID := msg]> ms);
  _ ← set_queues (add_member queueName messageID);
  set_history (λ h, h ++ [msg]).

Definition RecordReceive
    (queueURL queueName messageID receiptHandle body : string)
    (attributes : gmap string string) : M unit :=
  id ← generateID;
  now ← timeNow;
  event ← new {| ID := id; MessageID := messageID;
                 ReceiptHandle := receiptHandle;
                 QueueURL := queueURL; QueueName := queueName; Body := body;
                 Attributes := attributes; Action := ActionReceive;
                 Timestamp := now; Deleted := false; DeletedAt := None |};
  _ ← set_history (λ h, h ++ [event]);
  _ ← set_receipts (λ r, <[receiptHandle := messageID]> r);
  s ← getStore;
  match messages s !! messageID with
  | Some _ => mret tt
  | None =>
      e ← load event;
      now' ← timeNow;
      msg ← new {| ID := ID e; MessageID := messageID;
                   ReceiptHandle := receiptHandle;
                   QueueURL := queueURL; QueueName := queueName; Body := body;
                   Attributes := attributes; Action := ActionReceive;
                   Timestamp := now'; Deleted := false; DeletedAt := None |};
      _ ← set_messages (λ ms, <[messageID := msg]> ms);
      set_queues (add_member queueName messageID)
  end.

Definition with_MessageID (v : string) (m : Message) : Message :=
  mkMessage (ID m) v (ReceiptHandle m) (QueueURL m) (QueueName m) (Body m)
    (Attributes m) (Action m) (Timestamp m) (Deleted m) (DeletedAt m).

Definition with_Body (v : string) (m : Message) : Message :=
  mkMessage (ID m) (MessageID m) (ReceiptHandle m) (QueueURL m) (QueueName m)
    v (Attributes m) (Action m) (Timestamp m) (Deleted m) (DeletedAt m).

Definition with_Deleted (v : bool) (m : Message) : Message :=
  mkMessage (ID m) (MessageID m) (ReceiptHandle m) (QueueURL m) (QueueName m)
    (Body m) (Attributes m) (Action m) (Timestamp m) v (DeletedAt m).

Definition with_DeletedAt (v : option Go.Time) (m : Message) : Message :=
  mkMessage (ID m) (MessageID m) (ReceiptHandle m) (QueueURL m) (QueueName m)
    (Body m) (Attributes m) (Action m) (Timestamp m) (Deleted m) v.

Definition RecordDelete (queueURL queueName receiptHandle : string)
    : M unit :=
  now ← timeNow;
  id ← generateID;
  event ← new {| ID := id; MessageID := ""; ReceiptHandle := receiptHandle;
                 QueueURL := queueURL; QueueName := queueName; Body := "";
                 Attributes := ∅; Action := ActionDelete;
                 Timestamp := now; Deleted := false; DeletedAt := None |};
  s ← getStore;
  _ ← match receipts s !! receiptHandle with
      | Some messageID =>
          _ ← update event (with_MessageID messageID);
          match messages s !! messageID with
          | Some msg =>
              _ ← update msg (with_Deleted true);
              _ ← update msg (with_DeletedAt (Some now));
              m ← load msg;
              update event (with_Body (Body m))
          | None => mret tt
          end
      | None => mret tt
      end;
  set_history (λ h, h ++ [event]).

Definition Clear : M unit := putStore (mkStore ∅ ∅ [] ∅).

(** [GetMessages]: the range over [s.messages] visits the entries in an
    order the language leaves open; the model visits them in the order of
    [map_to_list], and the properties proved of the result do not depend
    on it.  A message is dereferenced only where the Go conditions do. *)
Fixpoint GetMessages_loop (queueName : string) (includeDeleted : bool)
    (entries : list (string * ptr)) (result : list ptr) : M (list ptr) :=
  match entries with
  | [] => mret result
  | (_, msg) :: rest =>
      other_queue ←
        (if bool_decide (queueName ≠ "")
         then m ← load msg; mret (bool_decide (QueueName m ≠ queueName))
         else mret false);
      if (other_queue : bool) then
        GetMessages_loop queueName includeDeleted rest result
      else
        hidden ←
          (if negb includeDeleted
           then m ← load msg; mret (Deleted m)
           else mret false);
        if (hidden : bool) then
          GetMessages_loop queueName includeDeleted rest result
        else
          GetMessages_loop queueName includeDeleted rest (result ++ [msg])
  end.

Definition GetMessages (queueName : string) (includeDeleted : bool)
    : M (list ptr) :=
  s ← getStore;
  GetMessages_loop queueName includeDeleted (map_to_list (messages s)) [].

(** [h[i]] for a Go [int] index: out of range panics. *)
Definition index {A : Type} (h : list A) (i : Z) : option A :=
  if (i <? 0) || (Z.of_nat (length h) <=? i) then None else h !! Z.to_nat i.

(** The loop of [GetHistory]: [n] iterations remain, [i] is the loop
    variable and [result] the cells [0 .. i-1] written so far. *)
Fixpoint GetHistory_loop (h : list ptr) (n : nat) (i : Z) (result : list ptr)
    : option (list ptr) :=
  match n with
  | O => Some result
  | S n' =>
      match index h (Z.of_nat (length h) - 1 - i) with
      | Some e => GetHistory_loop h n' (i + 1) (result ++ [e])
      | None => None
      end
  end.

(** [limit] and [len(s.history)] are Go [int]s; nothing here can
    overflow, so they are plain integers. *)
Definition GetHistory (limit : Z) : M (list ptr) :=
  s ← getStore;
  let len := Z.of_nat (length (history s)) in
  let limit := if (limit <=? 0) || (len <? limit) then len else limit in
  or_panic (GetHistory_loop (history s) (Z.to_nat limit) 0 []).

Definition incSent (q : QueueStats) : QueueStats :=
  mkQueueStats (qsQueueName q) (qsQueueURL q) (TotalSent q + 1)
    (TotalReceived q) (TotalDeleted q) (Pending q).

Definition incReceived (q : QueueStats) : QueueStats :=
  mkQueueStats (qsQueueName q) (qsQueueURL q) (TotalSent q)
    (TotalReceived q + 1) (TotalDeleted q) (Pending q).

Definition incDeleted (q : QueueStats) : QueueStats :=
  mkQueueStats (qsQueueName q) (qsQueueURL q) (TotalSent q)
    (TotalReceived q) (TotalDeleted q + 1) (Pending q).

Definition with_Pending (v : Z) (q : QueueStats) : QueueStats :=
  mkQueueStats (qsQueueName q) (qsQueueURL q) (TotalSent q)
    (TotalReceived q) (TotalDeleted q) v.

(** One iteration of the first loop of [GetQueueStats].  The counters are
    Go [int]s bounded by [len(s.history)]; they are not wrapped. *)
Definition count_event (event : Message) (stats : gmap string QueueStats)
    : gmap string QueueStats :=
  let stats' :=
    match stats !! QueueName event with
    | None =>
        <[QueueName event :=
            mkQueueStats (QueueName event) (QueueURL event) 0 0 0 0]> stats
    | Some _ => stats
    end in
  match Action event with
  | ActionSend => alter incSent (QueueName event) stats'
  | ActionReceive => alter incReceived (QueueName event) stats'
  | ActionDelete => alter incDeleted (QueueName event) stats'
  end.

Fixpoint count_events (h : list ptr) (stats : gmap string QueueStats)
    : M (gmap string QueueStats) :=
  match h with
  | [] => mret stats
  | event :: rest =>
      e ← load event;
      count_events rest (count_event e stats)
  end.

(** The inner loop: the members of one queue that have a current-state
    entry which is not deleted. *)
Fixpoint count_pending (ms : gmap string ptr) (msgIDs : list string)
    (pending : Z) : M Z :=
  match msgIDs with
  | [] => mret pending
  | msgID :: rest =>
      match ms !! msgID with
      | Some msg =>
          m ← load msg;
          count_pending ms rest (if Deleted m then pending else pending + 1)
      | None => count_pending ms rest pending
      end
  end.

Fixpoint pending_loop (ms : gmap string ptr)
    (qs : list (string * gset string)) (stats : gmap string QueueStats)
    : M (gmap string QueueStats) :=
  match qs with
  | [] => mret stats
  | (queueName, queueMsgs) :: rest =>
      match stats !! queueName with
      | None => pending_loop ms rest stats
      | Some _ =>
          pending ← count_pending ms (elements queueMsgs) 0;
          pending_loop ms rest (alter (with_Pending pending) queueName stats)
      end
  end.

(** [GetQueueStats]; the three ranges over Go maps follow [map_to_list]
    and [elements]. *)
Definition GetQueueStats : M (list QueueStats) :=
  s ← getStore;
  stats ← count_events (history s) ∅;
  stats ← pending_loop (messages s) (map_to_list (queues s)) stats;
  mret ((map_to_list stats).*2).

(** ** Executions *)

Inductive Call : Type :=
  | CallSend (queueURL queueName messageID body : string)
      (attributes : gmap string string)
  | CallReceive (queueURL queueName messageID receiptHandle body : string)
      (attributes : gmap string string)
  | CallDelete (queueURL queueName receiptHandle : string)
  | CallClear.

Definition call (c : Call) : M unit :=
  match c with
  | CallSend u q m b a => RecordSend u q m b a
  | CallReceive u q m rh b a => RecordReceive u q m rh b a
  | CallDelete u q rh => RecordDelete u q rh
  | CallClear => Clear
  end.

Fixpoint run (cs : list Call) : M unit :=
  match cs with
  | [] => mret tt
  | c :: cs' => _ ← call c; run cs'
  end.

(** The process starts with an empty heap, [store.New()] and
    [idCounter = 0]. *)
Definition initial (clk : nat → Go.Time) : World := mkWorld [] New 0 clk 0.

Definition reachable (w : World) : Prop :=
  ∃ clk cs, run cs (initial clk) = Some (tt, w).

(** What a query returns, as the messages the returned pointers refer to. *)
Definition deref (w : World) (ps : list ptr) : list Message :=
  omap (λ p, heap w !! p) ps.

(** A fixed clock for the examples: 2024-01-02 03:04:05, every time. *)
Definition noon : nat → Go.Time := λ _, Go.mkTime 2024 1 2 3 4 5 0.

(** ** The messages the methods allocate, and well-formed worlds *)

Definition sent (id : string) (now : Go.Time)
    (queueURL queueName messageID body : string)
    (attributes : gmap string string) : Message :=
  {| ID := id; MessageID := messageID; ReceiptHandle := "";
     QueueURL := queueURL; QueueName := queueName; Body := body;
     Attributes := attributes; Action := ActionSend;
     Timestamp := now; Deleted := false; DeletedAt := None |}.

Definition received (id : string) (now : Go.Time)
    (queueURL queueName messageID receiptHandle body : string)
    (attributes : gmap string string) : Message :=
  {| ID := id; MessageID := messageID; ReceiptHandle := receiptHandle;
     QueueURL := queueURL; QueueName := queueName; Body := body;
     Attributes := attributes; Action := ActionReceive;
     Timestamp := now; Deleted := false; DeletedAt := None |}.

Definition deleted (id : string) (now : Go.Time)
    (queueURL queueName messageID receiptHandle body : string) : Message :=
  {| ID := id; MessageID := messageID; ReceiptHandle := receiptHandle;
     QueueURL := queueURL; QueueName := queueName; Body := body;
     Attributes := ∅; Action := ActionDelete;
     Timestamp := now; Deleted := false; DeletedAt := None |}.

(** The identifier [generateID] returns in [w], and the counter it leaves. *)
Definition next_counter (w : World) : Z := Go.int64 (idCounter w + 1).

Definition next_id (w : World) (tick : nat) : string :=
  Go.Format_20060102150405 (clock w tick) +:+ "-"
    +:+ Go.string_of_rune (Go.rune (next_counter w)).

(** A resolved delete: the current-state message at [p] is marked, and its
    body is copied into the event. *)
Definition mark_deleted (now : Go.Time) (c : Message) : Message :=
  with_DeletedAt (Some now) (with_Deleted true c).

(** Well-formed worlds.

    Every pointer the store holds refers to an allocated message, and the
    current-state table files each message under its own [MessageID]. *)

Record wf (w : World) : Prop := mkWf {
  wf_messages : ∀ k p, messages (store w) !! k = Some p →
                ∃ c, heap w !! p = Some c ∧ MessageID c = k;
  wf_history : ∀ p, p ∈ history (store w) → (p < length (heap w))%nat
}.


(** The current-state entry of a provider message id: the message the
    pointer in [s.messages] refers to. *)
Definition current_state (w : World) (messageID : string) : option Message :=
  match messages (store w) !! messageID with
  | Some p => heap w !! p
  | None => None
  end.

(** The membership set of a queue; a queue that has none has [∅]. *)
Definition members (w : World) (queueName : string) : gset string :=
  default ∅ (queues (store w) !! queueName).

(** The calls that neither reset the store nor send the message id [m]
    again. *)
Definition keeps_entry (m : string) (c : Call) : Prop :=
  match c with
  | CallSend _ _ m' _ _ => m' ≠ m
  | CallReceive _ _ _ _ _ _ => True
  | CallDelete _ _ _ => True
  | CallClear => False
  end.

(** The world after the calls [cs], started from an empty store with the
    fixed clock. *)
Definition after (cs : list Call) : World :=
  match run cs (initial noon) with
  | Some (_, w) => w
  | None => initial noon
  end.

Definition sample_url : string := "http://x/q1".

Definition sample_calls : list Call :=
  [CallSend sample_url "q1" "m1" "hi" ∅;
   CallReceive sample_url "q1" "m1" "rh1" "hi" ∅].

(** The filter of [GetMessages], on a message. *)
Definition visible (queueName : string) (includeDeleted : bool)
    (c : Message) : bool :=
  negb (bool_decide (queueName ≠ "") && bool_decide (QueueName c ≠ queueName))
  && negb (negb includeDeleted && Deleted c).

Definition shown (w : World) (queueName : string) (includeDeleted : bool)
    (e : string * ptr) : bool :=
  match heap w !! e.2 with
  | Some c => visible queueName includeDeleted c
  | None => false
  end.

(** The events of the history, in the order they were appended. *)
Definition events (w : World) : list Message := deref w (history (store w)).

Definition is_event (queueName : string) (a : MessageAction) (e : Message)
    : bool :=
  bool_decide (QueueName e = queueName) && bool_decide (Action e = a).

(** The number of history events of one kind for one queue name. *)
Definition count_kind (es : list Message) (queueName : string)
    (a : MessageAction) : Z :=
  Z.of_nat (length (List.filter (is_event queueName a) es)).

(** A message id that has a current-state entry which is not deleted. *)
Definition is_pending (w : World) (messageID : string) : bool :=
  match current_state w messageID with
  | Some c => negb (Deleted c)
  | None => false
  end.

(** Pending as [GetQueueStats] computes it: over the membership set of the
    queue. *)
Definition pending_members (w : World) (queueName : string) : Z :=
  Z.of_nat (length (List.filter (is_pending w) (elements (members w queueName)))).

(** Pending as the specification words it: the current-state entries whose
    queue name is the queue's and which are not deleted. *)
Definition pending_by_queue_name (w : World) (queueName : string) : Z :=
  Z.of_nat (length (List.filter
    (λ e : string * ptr,
       match heap w !! e.2 with
       | Some c => bool_decide (QueueName c = queueName) && negb (Deleted c)
       | None => false
       end)
    (map_to_list (messages (store w))))).

(** The pure content of the first loop of [GetQueueStats]. *)
Definition tally (es : list Message) (stats : gmap string QueueStats)
    : gmap string QueueStats :=
  foldl (λ st e, count_event e st) stats es.

(** What the first loop of [GetQueueStats] has established for the queue
    name [q] after the events [es]. *)
Definition tallied_at (es : list Message) (q : string)
    (o : option QueueStats) : Prop :=
  match o with
  | None => ∀ e, e ∈ es → QueueName e ≠ q
  | Some st =>
      (∃ e, e ∈ es ∧ QueueName e = q) ∧
      qsQueueName st = q ∧
      TotalSent st = count_kind es q ActionSend ∧
      TotalReceived st = count_kind es q ActionReceive ∧
      TotalDeleted st = count_kind es q ActionDelete ∧
      Pending st = 0
  end.

Definition tallied (es : list Message) (stats : gmap string QueueStats)
    : Prop :=
  ∀ q, tallied_at es q (stats !! q).

(** The pending count of a membership set. *)
Definition pending_of (w : World) (queueMsgs : gset string) : Z :=
  Z.of_nat (length (List.filter (is_pending w) (elements queueMsgs))).

(** What the second loop of [GetQueueStats] does to one entry. *)
Definition set_pending (w : World) (qs : gmap string (gset string))
    (q : string) (st : QueueStats) : QueueStats :=
  match qs !! q with
  | Some queueMsgs => with_Pending (pending_of w queueMsgs) st
  | None => st
  end.

(** One message id sent to two queues. *)
Definition two_queues : list Call :=
  [CallSend "http://x/q1" "q1" "m1" "first" ∅;
   CallSend "http://x/q2" "q2" "m1" "second" ∅].

(** The calls that record an event (all but [Clear]). *)
Definition records (c : Call) : bool :=
  match c with
  | CallClear => false
  | _ => true
  end.

(** Byte-wise order of two Go strings, as [<] compares them. *)
Definition string_lt (a b : string) : bool :=
  match String.compare a b with
  | Lt => true
  | _ => false
  end.

(** [n] unresolved deletes: [n] recorded events. *)
Definition busy (n : Z) : list Call :=
  replicate (Z.to_nat n) (CallDelete sample_url "q1" "none").

Definition two_sends : list Call :=
  [CallSend sample_url "q1" "a" "x" ∅; CallSend sample_url "q1" "b" "y" ∅].

(** ** The protocol codec of [internal/proxy]

    The Go library functions it calls ([strings], [regexp] for the
    patterns that occur, [url.QueryUnescape]) are modelled on byte
    strings. *)

Module Proxy.

(** [s] without the prefix [prefix], when it has it. *)
Fixpoint strip_prefix (prefix s : string) : option string :=
  match prefix, s with
  | EmptyString, _ => Some s
  | String a prefix', String b s' =>
      if Ascii.eqb a b then strip_prefix prefix' s' else None
  | String _ _, EmptyString => None
  end.

(** [strings.HasPrefix] *)
Definition HasPrefix (s prefix : string) : bool :=
  match strip_prefix prefix s with
  | Some _ => true
  | None => false
  end.

(** [strings.TrimPrefix] *)
Definition TrimPrefix (s prefix : string) : string :=
  match strip_prefix prefix s with
  | Some rest => rest
  | None => s
  end.

(** [strings.Contains] *)
Fixpoint Contains (s substr : string) : bool :=
  if HasPrefix s substr then true
  else match s with
       | EmptyString => false
       | String _ s' => Contains s' substr
       end.

(** *** The regular expressions

    Every pattern of the package is a sequence of literals and of
    greedy one-or-more repetitions of a byte class, each followed by a
    byte outside the class or by the end of the pattern; matching such
    a pattern at a position needs no backtracking. *)

(** The longest prefix of [s] in the class [p], and what follows it. *)
Fixpoint span (p : ascii → bool) (s : string) : string * string :=
  match s with
  | EmptyString => (EmptyString, EmptyString)
  | String c s' =>
      if p c then let '(v, rest) := span p s' in (String c v, rest)
      else (EmptyString, s)
  end.

(** [class+] at the start of [s]. *)
Definition plus (p : ascii → bool) (s : string) : option (string * string) :=
  match span p s with
  | (EmptyString, _) => None
  | (v, rest) => Some (v, rest)
  end.

(** The class [[^&]]. *)
Definition not_amp (c : ascii) : bool := negb (Ascii.eqb c "&").

(** The class [\d]. *)
Definition digit (c : ascii) : bool :=
  (48 <=? nat_of_ascii c)%nat && (nat_of_ascii c <=? 57)%nat.

(** [field=([^&]+)] at the start of [s]: the capture and the rest. *)
Definition field_at (field : string) (s : string)
    : option (string * string) :=
  match strip_prefix (field +:+ "=") s with
  | Some rest => plus not_amp rest
  | None => None
  end.

(** [MessageAttribute\.(\d+)] followed by the literal [suffix] and
    [([^&]+)], at the start of [s]: the two captures and the rest.
    [suffix] is [.Name=] or [.Value.StringValue=]. *)
Definition attribute_at (suffix : string) (s : string)
    : option ((string * string) * string) :=
  match strip_prefix "MessageAttribute." s with
  | Some r1 =>
      match plus digit r1 with
      | Some (idx, r2) =>
          match strip_prefix suffix r2 with
          | Some r3 =>
              match plus not_amp r3 with
              | Some (v, rest) => Some ((idx, v), rest)
              | None => None
              end
          | None => None
          end
      | None => None
      end
  | None => None
  end.

(** [re.FindStringSubmatch(s)]: the captures of the leftmost match. *)
Fixpoint FindStringSubmatch {A : Type} (re : string → option (A * string))
    (s : string) : option A :=
  match re s with
  | Some (captures, _) => Some captures
  | None =>
      match s with
      | EmptyString => None
      | String _ s' => FindStringSubmatch re s'
      end
  end.

(** [re.FindAllStringSubmatch(s, -1)]: the captures of the successive
    non-overlapping matches, left to right.  [skip] counts the bytes of
    the last match that are still to be passed over. *)
Fixpoint FindAllStringSubmatch_from {A : Type}
    (re : string → option (A * string)) (s : string) (skip : nat)
    : list A :=
  match skip with
  | S skip' =>
      match s with
      | EmptyString => []
      | String _ s' => FindAllStringSubmatch_from re s' skip'
      end
  | O =>
      match s with
      | EmptyString => []
      | String _ s' =>
          match re s with
          | Some (captures, rest) =>
              captures ::
                FindAllStringSubmatch_from re s'
                  (String.length s' - String.length rest)
          | None => FindAllStringSubmatch_from re s' 0
          end
      end
  end.

Definition FindAllStringSubmatch {A : Type}
    (re : string → option (A * string)) (s : string) : list A :=
  FindAllStringSubmatch_from re s 0.

(** *** [url.QueryUnescape] *)

Definition unhex (c : ascii) : option Z :=
  let n := Z.of_nat (nat_of_ascii c) in
  if (48 <=? n) && (n <=? 57) then Some (n - 48)
  else if (97 <=? n) && (n <=? 102) then Some (n - 97 + 10)
  else if (65 <=? n) && (n <=? 70) then Some (n - 65 + 10)
  else None.

(** [None] is the [EscapeError]. *)
Fixpoint QueryUnescape (s : string) : option string :=
  match s with
  | EmptyString => Some EmptyString
  | String c rest =>
      if Ascii.eqb c "%" then
        match rest with
        | String h1 (String h2 rest') =>
            match unhex h1, unhex h2 with
            | Some a, Some b =>
                match QueryUnescape rest' with
                | Some r => Some (String (Go.byte (16 * a + b)) r)
                | None => None
                end
            | _, _ => None
            end
        | _ => None
        end
      else
        match QueryUnescape rest with
        | Some r => Some (String (if Ascii.eqb c "+" then " "%char else c) r)
        | None => None
        end
  end.

(** [decoded, _ := url.QueryUnescape(s)]: the empty string on error. *)
Definition unescaped (s : string) : string := default "" (QueryUnescape s).

(** *** Action identification *)

Definition parseActionFromTarget (target : string) : string :=
  if HasPrefix target "AmazonSQS." then TrimPrefix target "AmazonSQS."
  else "".

Definition parseActionFromForm (body : string) : string :=
  match FindStringSubmatch (field_at "Action") body with
  | Some action => action
  | None => "Unknown"
  end.

Definition parseFormField (body field : string) : string :=
  match FindStringSubmatch (field_at field) body with
  | Some v => unescaped v
  | None => ""
  end.

(** The handlers [modifyResponse] can call; each one records through
    [RecordSend], [RecordReceive] or [RecordDelete]. *)
Inductive Handler : Type :=
  | handleSendMessage
  | handleSendMessageBatch
  | handleReceiveMessage
  | handleDeleteMessage
  | handleDeleteMessageBatch.

(** The part of [modifyResponse] that decides the encoding, the action
    and the handler. *)
Definition isJSON (contentType : string) : bool :=
  Contains contentType "json".

Definition action_of (amzTarget reqBody : string) : string :=
  let action := parseActionFromTarget amzTarget in
  if bool_decide (action = "") then parseActionFromForm reqBody
  else action.

(** The [switch action] of [modifyResponse]; [None]: no case applies,
    nothing is called. *)
Definition dispatch (action : string) : option Handler :=
  if bool_decide (action = "SendMessage") then Some handleSendMessage
  else if bool_decide (action = "SendMessageBatch")
       then Some handleSendMessageBatch
  else if bool_decide (action = "ReceiveMessage")
       then Some handleReceiveMessage
  else if bool_decide (action = "DeleteMessage")
       then Some handleDeleteMessage
  else if bool_decide (action = "DeleteMessageBatch")
       then Some handleDeleteMessageBatch
  else None.

Definition modifyResponse_handler (amzTarget reqBody : string)
    : option Handler :=
  dispatch (action_of amzTarget reqBody).

(** *** [extractMessageAttributes], Form encoding

    This is the [else] branch of the function; the JSON branch goes
    through [encoding/json] and is not embedded here. *)

(** The first two loops: [m[match[1]] = unescaped match[2]] for every
    match, in the order of the matches. *)
Definition collect_step (m : gmap string string) (e : string * string)
    : gmap string string :=
  let '(idx, v) := e in <[idx := unescaped v]> m.

Definition collect (ms : list (string * string)) : gmap string string :=
  foldl collect_step ∅ ms.

Definition names_of (body : string) : gmap string string :=
  collect (FindAllStringSubmatch (attribute_at ".Name=") body).

Definition values_of (body : string) : gmap string string :=
  collect (FindAllStringSubmatch (attribute_at ".Value.StringValue=") body).

(** One iteration of the third loop, on the entry [idx -> name] of
    [names]. *)
Definition correlate_step (values attrs : gmap string string)
    (e : string * string) : gmap string string :=
  let '(idx, name) := e in
  match values !! idx with
  | Some val => <[name := val]> attrs
  | None => attrs
  end.

(** The third loop, for one order [order] of the range over [names]. *)
Definition correlate (values : gmap string string)
    (order : list (string * string)) : gmap string string :=
  foldl (correlate_step values) ∅ order.

(** The maps [extractMessageAttributes(body, false)] can return: Go
    leaves the order of the range over [names] open. *)
Definition extractMessageAttributes_form (body : string)
    (attrs : gmap string string) : Prop :=
  ∃ order, order ≡ₚ map_to_list (names_of body) ∧
           attrs = correlate (values_of body) order.

(** One of them, for the order of [map_to_list]. *)
Definition extractMessageAttributes_form_run (body : string)
    : gmap string string :=
  correlate (values_of body) (map_to_list (names_of body)).

(** *** Queue names *)

(** [strings.Split(s, sep)] for a one-byte separator: the segments
    between the separators, at least one. *)
Fixpoint Split (sep : ascii) (s : string) : list string :=
  match s with
  | EmptyString => [EmptyString]
  | String c s' =>
      if Ascii.eqb c sep then EmptyString :: Split sep s'
      else match Split sep s' with
           | seg :: segs => String c seg :: segs
           | [] => [String c EmptyString]
           end
  end.

Definition extractQueueName (queueURL : string) : string :=
  match last (Split "/" queueURL) with
  | Some name => name
  | None => queueURL
  end.

(** *** The XML responses of the Form encoding *)

(** The class [[^<]]. *)
Definition not_lt (c : ascii) : bool := negb (Ascii.eqb c "<").

(** The pattern of [extractXMLTag], for a tag without metacharacters: the
    opening tag, [([^<]+)] and the closing tag, at the start of [s]. *)
Definition tag_at (tag : string) (s : string) : option (string * string) :=
  match strip_prefix ("<" +:+ tag +:+ ">") s with
  | Some r1 =>
      match plus not_lt r1 with
      | Some (v, r2) =>
          match strip_prefix ("</" +:+ tag +:+ ">") r2 with
          | Some rest => Some (v, rest)
          | None => None
          end
      | None => None
      end
  | None => None
  end.

Definition extractXMLTag (xml tag : string) : string :=
  match FindStringSubmatch (tag_at tag) xml with
  | Some v => v
  | None => ""
  end.

Definition extractAllXMLTags (xml tag : string) : list string :=
  FindAllStringSubmatch (tag_at tag) xml.

(** [s] up to the first occurrence of [close], and what follows that
    occurrence: the lazy [(.*?)] before a literal, under the flag [s]. *)
Fixpoint until (close : string) (s : string) : option (string * string) :=
  match strip_prefix close s with
  | Some rest => Some (EmptyString, rest)
  | None =>
      match s with
      | EmptyString => None
      | String c s' =>
          match until close s' with
          | Some (v, rest) => Some (String c v, rest)
          | None => None
          end
      end
  end.

(** [(?s)open(.*?)close] at the start of [s]. *)
Definition block_at (open close : string) (s : string)
    : option (string * string) :=
  match strip_prefix open s with
  | Some r => until close r
  | None => None
  end.

Record receivedMessage : Type := mkReceivedMessage {
  MessageID : string;
  ReceiptHandle : string;
  Body : string;
  Attributes : gmap string string
}.

(** The attributes of one [<Message>]: every [<MessageAttribute>] block
    with a non-empty name, in document order. *)
Definition xml_attribute (attrs : gmap string string) (attrXML : string)
    : gmap string string :=
  let name := extractXMLTag attrXML "Name" in
  let value := extractXMLTag attrXML "StringValue" in
  if bool_decide (name ≠ "") then <[name := value]> attrs else attrs.

Definition xml_message (msgXML : string) : receivedMessage :=
  {| MessageID := extractXMLTag msgXML "MessageId";
     ReceiptHandle := extractXMLTag msgXML "ReceiptHandle";
     Body := extractXMLTag msgXML "Body";
     Attributes :=
       foldl xml_attribute ∅
         (FindAllStringSubmatch
            (block_at "<MessageAttribute>" "</MessageAttribute>") msgXML) |}.

Definition parseReceiveMessageResponseXML (xml : string)
    : list receivedMessage :=
  xml_message <$>
    FindAllStringSubmatch (block_at "<Message>" "</Message>") xml.

(** [DeleteMessageBatchRequestEntry\.\d+\.ReceiptHandle=([^&]+)] at the
    start of [s]. *)
Definition batch_entry_at (s : string) : option (string * string) :=
  match strip_prefix "DeleteMessageBatchRequestEntry." s with
  | Some r1 =>
      match plus digit r1 with
      | Some (_, r2) =>
          match strip_prefix ".ReceiptHandle=" r2 with
          | Some r3 => plus not_amp r3
          | None => None
          end
      | None => None
      end
  | None => None
  end.

(** *** The JSON encoding

    What [json.Unmarshal] stores in an [interface{}]. *)
#[warnings="-register-all"]
Inductive JSON : Type :=
  | JNull
  | JBool (b : bool)
  | JNumber
  | JString (s : string)
  | JArray (items : list JSON)
  | JObject (fields : gmap string JSON).

(** The type assertions on a map element; a missing key is the nil
    interface, on which every assertion fails. *)
Definition as_string (v : option JSON) : option string :=
  match v with
  | Some (JString s) => Some s
  | _ => None
  end.

Definition as_array (v : option JSON) : option (list JSON) :=
  match v with
  | Some (JArray items) => Some items
  | _ => None
  end.

Definition as_object (v : option JSON) : option (gmap string JSON) :=
  match v with
  | Some (JObject fields) => Some fields
  | _ => None
  end.

(** The loop over a JSON attribute map: [attrs[name] = sv] for every
    entry that is an object with a string [StringValue].  The keys are
    distinct, so the order of the range does not matter. *)
Definition string_attributes (msgAttrs : gmap string JSON)
    : gmap string string :=
  omap (λ v, match as_object (Some v) with
             | Some attr => as_string (attr !! "StringValue")
             | None => None
             end) msgAttrs.

(** [for _, x := range l { f(x) }] *)
Fixpoint for_each {A : Type} (f : A → M unit) (l : list A) : M unit :=
  match l with
  | [] => mret tt
  | x :: l' => _ ← f x; for_each f l'
  end.

Section Runtime.

(** [json.Unmarshal] into a [map[string]interface{}] ([None]: an error),
    and the order in which a range visits the entries of [names]. *)
Variable Unmarshal : string → option (gmap string JSON).
Variable range_names : gmap string string → list (string * string).

Definition parseJSONField (body field : string) : string :=
  match Unmarshal body with
  | None => ""
  | Some data => default "" (as_string (data !! field))
  end.

Definition extractMessageAttributes (body : string) (isJSON : bool)
    : gmap string string :=
  if isJSON then
    match Unmarshal body with
    | Some data =>
        match as_object (data !! "MessageAttributes") with
        | Some msgAttrs => string_attributes msgAttrs
        | None => ∅
        end
    | None => ∅
    end
  else correlate (values_of body) (range_names (names_of body)).

Definition json_message (m : JSON) : option receivedMessage :=
  match as_object (Some m) with
  | None => None
  | Some msg =>
      Some {| MessageID := default "" (as_string (msg !! "MessageId"));
              ReceiptHandle := default "" (as_string (msg !! "ReceiptHandle"));
              Body := default "" (as_string (msg !! "Body"));
              Attributes :=
                match as_object (msg !! "MessageAttributes") with
                | Some attrs => string_attributes attrs
                | None => ∅
                end |}
  end.

Definition parseReceiveMessageResponseJSON (body : string)
    : list receivedMessage :=
  match Unmarshal body with
  | None => []
  | Some resp =>
      match as_array (resp !! "Messages") with
      | None => []
      | Some msgList => omap json_message msgList
      end
  end.

(** The string field [field] of the entries of the array [array] that
    are objects and have it. *)
Definition json_entries (body array field : string) : list string :=
  match Unmarshal body with
  | None => []
  | Some data =>
      match as_array (data !! array) with
      | None => []
      | Some entries =>
          omap (λ e, match as_object (Some e) with
                     | Some entry => as_string (entry !! field)
                     | None => None
                     end) entries
      end
  end.

(** [handleSendMessage] *)
Definition onSendMessage (queueURL queueName reqBody respBody : string)
    (isJSON : bool) : M unit :=
  let msgBody := if isJSON then parseJSONField reqBody "MessageBody"
                 else parseFormField reqBody "MessageBody" in
  let messageID := if isJSON then parseJSONField respBody "MessageId"
                   else extractXMLTag respBody "MessageId" in
  let attrs := extractMessageAttributes reqBody isJSON in
  if bool_decide (messageID ≠ "")
  then RecordSend queueURL queueName messageID msgBody attrs
  else mret tt.

(** [handleSendMessageBatch] *)
Definition onSendMessageBatch (queueURL queueName reqBody respBody : string)
    (isJSON : bool) : M unit :=
  let messageIDs := if isJSON then json_entries respBody "Successful" "MessageId"
                    else extractAllXMLTags respBody "MessageId" in
  for_each (λ messageID,
              RecordSend queueURL queueName messageID "[batch message]" ∅)
    messageIDs.

(** [handleReceiveMessage] *)
Definition onReceiveMessage (queueURL queueName respBody : string)
    (isJSON : bool) : M unit :=
  let messages := if isJSON then parseReceiveMessageResponseJSON respBody
                  else parseReceiveMessageResponseXML respBody in
  for_each (λ msg,
              RecordReceive queueURL queueName (MessageID msg)
                (ReceiptHandle msg) (Body msg) (Attributes msg))
    messages.

(** [handleDeleteMessage] *)
Definition onDeleteMessage (queueURL queueName reqBody : string)
    (isJSON : bool) : M unit :=
  let receiptHandle := if isJSON then parseJSONField reqBody "ReceiptHandle"
                       else parseFormField reqBody "ReceiptHandle" in
  if bool_decide (receiptHandle ≠ "")
  then RecordDelete queueURL queueName receiptHandle
  else mret tt.

(** [handleDeleteMessageBatch] *)
Definition onDeleteMessageBatch (queueURL queueName reqBody : string)
    (isJSON : bool) : M unit :=
  let receiptHandles :=
    if isJSON then json_entries reqBody "Entries" "ReceiptHandle"
    else unescaped <$> FindAllStringSubmatch batch_entry_at reqBody in
  for_each (RecordDelete queueURL queueName) receiptHandles.

(** [modifyResponse], from the captured request body, content type and
    target header and the response body it has read. *)
Definition modifyResponse (reqBody contentType amzTarget body : string)
    : M unit :=
  let json := isJSON contentType in
  let action := action_of amzTarget reqBody in
  let queueURL := if json then parseJSONField reqBody "QueueUrl"
                  else parseFormField reqBody "QueueUrl" in
  let queueName := extractQueueName queueURL in
  match dispatch action with
  | Some handleSendMessage =>
      onSendMessage queueURL queueName reqBody body json
  | Some handleSendMessageBatch =>
      onSendMessageBatch queueURL queueName reqBody body json
  | Some handleReceiveMessage =>
      onReceiveMessage queueURL queueName body json
  | Some handleDeleteMessage =>
      onDeleteMessage queueURL queueName reqBody json
  | Some handleDeleteMessageBatch =>
      onDeleteMessageBatch queueURL queueName reqBody json
  | None => mret tt
  end.

(** [parseAction] and [parseQueueURL], which [ServeHTTP] logs. *)
Definition parseAction (target body : string) : string :=
  if bool_decide (target ≠ "") then
    let action := parseActionFromTarget target in
    if bool_decide (action ≠ "") then action else parseActionFromForm body
  else parseActionFromForm body.

Definition parseQueueURL (contentType body : string) : string :=
  if Contains contentType "json" then parseJSONField body "QueueUrl"
  else parseFormField body "QueueUrl".

End Runtime.

End Proxy.

(** Every byte of [s] is in the class [p]. *)
Fixpoint all_bytes (p : ascii → bool) (s : string) : bool :=
  match s with
  | EmptyString => true
  | String c s' => p c && all_bytes p s'
  end.

(** [s] is empty or starts with a byte outside the class [p]. *)
Definition stops (p : ascii → bool) (s : string) : bool :=
  match s with
  | EmptyString => true
  | String c _ => negb (p c)
  end.

(** The body has an [Action=] followed by a byte other than [&]. *)
Definition has_action_field (body : string) : Prop :=
  ∃ pre c rest,
    body = pre +:+ "Action=" +:+ String c rest ∧ Proxy.not_amp c = true.

(** The Form-encoded send of the specification. *)
Definition form_send : string :=
  "Action=SendMessage&QueueUrl=http%3A%2F%2Fx%2Fq1&MessageBody=hi".

(** A JSON request body without fields. *)
Definition json_empty : string := "{}".

(** Attributes out of order, with gaps, one index without value, one
    without name. *)
Definition form_attrs : string :=
  "Action=SendMessage&MessageAttribute.7.Value.StringValue=x%20y"
  +:+ "&MessageAttribute.3.Name=b&MessageAttribute.7.Name=a%2Fk"
  +:+ "&MessageAttribute.12.Name=lonely"
  +:+ "&MessageAttribute.3.Value.StringValue=z"
  +:+ "&MessageAttribute.5.Value.StringValue=orphan".

(** Two indices that carry the same attribute name. *)
Definition form_same_name : string :=
  "MessageAttribute.1.Name=a&MessageAttribute.1.Value.StringValue=x"
  +:+ "&MessageAttribute.2.Name=a&MessageAttribute.2.Value.StringValue=y".

(** ** The read surface of [internal/dashboard] *)

Module Dashboard.

(** The decimal digits of [s] as a number, most significant first;
    [None] when a byte is no digit. *)
Fixpoint decimal (s : string) (acc : Z) : option Z :=
  match s with
  | EmptyString => Some acc
  | String c s' =>
      let d := Z.of_nat (nat_of_ascii c) - 48 in
      if (0 <=? d) && (d <=? 9) then decimal s' (acc * 10 + d) else None
  end.

(** [strconv.Atoi] where [int] has 64 bits: an optional sign and at
    least one decimal digit; [None] is the syntax or the range error. *)
Definition Atoi (s : string) : option Z :=
  let '(neg, digits) :=
    match s with
    | String c s' =>
        if Ascii.eqb c "-" then (true, s')
        else if Ascii.eqb c "+" then (false, s')
        else (false, s)
    | EmptyString => (false, s)
    end in
  match digits with
  | EmptyString => None
  | _ =>
      match decimal digits 0 with
      | Some n =>
          let v := if neg then - n else n in
          if (- 2 ^ 63 <=? v) && (v <? 2 ^ 63) then Some v else None
      | None => None
      end
  end.

(** The limit [handleHistory] passes on, from the [limit] query value. *)
Definition history_limit (l : string) : Z :=
  if bool_decide (l ≠ "") then default 100 (Atoi l) else 100.

Definition handleHistory (l : string) : M (list ptr) :=
  GetHistory (history_limit l).

Definition handleMessages (queue deleted : string) : M (list ptr) :=
  GetMessages queue (bool_decide (deleted = "true")).

(** [true]: the store was cleared; [false]: the method is not allowed. *)
Definition handleClear (method : string) : M bool :=
  if bool_decide (method ≠ "POST") && bool_decide (method ≠ "DELETE")
  then mret false
  else _ ← Clear; mret true.

End Dashboard.

(** ** Further notions for the store *)

(** Two states of one message that differ at most in the deleted flag and
    the deletion time. *)
Definition same_event (c0 c1 : Message) : Prop :=
  ID c1 = ID c0 ∧ MessageID c1 = MessageID c0 ∧
  ReceiptHandle c1 = ReceiptHandle c0 ∧ QueueURL c1 = QueueURL c0 ∧
  QueueName c1 = QueueName c0 ∧ Body c1 = Body c0 ∧
  Attributes c1 = Attributes c0 ∧ Action c1 = Action c0 ∧
  Timestamp c1 = Timestamp c0.

(** How the four structures of the store hang together. *)
Record linked (w : World) : Prop := mkLinked {
  linked_receipt : ∀ rh m, receipts (store w) !! rh = Some m →
                   is_Some (messages (store w) !! m);
  linked_received : ∀ rh m, receipts (store w) !! rh = Some m →
                    ∃ e, e ∈ events w ∧ Action e = ActionReceive ∧
                         ReceiptHandle e = rh ∧ MessageID e = m;
  linked_queue : ∀ m c, current_state w m = Some c →
                 m ∈ members w (QueueName c);
  linked_member : ∀ m q, m ∈ members w q →
                  is_Some (messages (store w) !! m)
}.

(** The identifiers of the [n] counter values from [c] on increase. *)
Fixpoint increasing_from (n : nat) (c : Z) : bool :=
  match n with
  | O => true
  | S n' =>
      string_lt (Go.string_of_rune (c + 1)) (Go.string_of_rune (c + 2))
      && increasing_from n' (c + 1)
  end.

(** ** Further notions for the codec *)

(** The class of the bytes other than [/]. *)
Definition not_slash (c : ascii) : bool := negb (Ascii.eqb c "/").

(** Letters and digits: the bytes of the field and tag names the package
    puts into its patterns, which stand for themselves there. *)
Definition word_byte (c : ascii) : bool :=
  let n := nat_of_ascii c in
  ((48 <=? n) && (n <=? 57) || (65 <=? n) && (n <=? 90)
   || (97 <=? n) && (n <=? 122))%nat.

Definition literal (name : string) : bool := all_bytes word_byte name.

(** The body has [field=] followed by a byte other than [&]. *)
Definition has_field (field body : string) : Prop :=
  ∃ pre c rest,
    body = pre +:+ field +:+ "=" +:+ String c rest ∧ Proxy.not_amp c = true.

(** The bytes after a [%] start with two hexadecimal digits. *)
Definition escape_ok (rest : string) : bool :=
  match rest with
  | String h1 (String h2 _) =>
      match Proxy.unhex h1, Proxy.unhex h2 with
      | Some _, Some _ => true
      | _, _ => false
      end
  | _ => false
  end.

(** The class of the bytes [QueryUnescape] copies. *)
Definition plain (c : ascii) : bool :=
  negb (Ascii.eqb c "%") && negb (Ascii.eqb c "+").

(** ** Further notions for the handlers *)

(** The queue URL and queue name a recording call is made with. *)
Definition call_queue (c : Call) : option (string * string) :=
  match c with
  | CallSend u q _ _ _ => Some (u, q)
  | CallReceive u q _ _ _ _ => Some (u, q)
  | CallDelete u q _ => Some (u, q)
  | CallClear => None
  end.

(** A decoder that rejects every body, and sample exchanges in the Form
    encoding. *)
Definition no_json : string → option (gmap string Proxy.JSON) := λ _, None.

Definition form_type : string := "application/x-www-form-urlencoded".

Definition batch_request : string :=
  "Action=SendMessageBatch&QueueUrl=http%3A%2F%2Fx%2Fq1"
  +:+ "&SendMessageBatchRequestEntry.1.MessageBody=one".

Definition batch_response : string :=
  "<SendMessageBatchResult><SendMessageBatchResultEntry><Id>a</Id>"
  +:+ "<MessageId>m1</MessageId></SendMessageBatchResultEntry>"
  +:+ "<SendMessageBatchResultEntry><Id>b</Id><MessageId>m7</MessageId>"
  +:+ "</SendMessageBatchResultEntry></SendMessageBatchResult>".

Definition receive_request : string :=
  "Action=ReceiveMessage&QueueUrl=http%3A%2F%2Fx%2Fq1".

Definition receive_response : string :=
  "<ReceiveMessageResult><Message><MessageId>m1</MessageId>"
  +:+ "<ReceiptHandle>rh2</ReceiptHandle><Body>changed</Body></Message>"
  +:+ "<Message><MessageId>m9</MessageId><ReceiptHandle>rh9</ReceiptHandle>"
  +:+ "<Body>new</Body></Message></ReceiveMessageResult>".

Definition error_response : string :=
  "<ErrorResponse><Error><Code>InvalidParameterValue</Code></Error>"
  +:+ "</ErrorResponse>".

(** ** Every method as one transition *)

Lemma add_member_lookup q m (qs : gmap string (gset string)) q' :
  add_member q m qs !! q' =
    if decide (q = q') then Some ({[m]} ∪ default ∅ (qs !! q)) else qs !! q'.
Proof.
  unfold add_member. destruct (qs !! q) as [ms|] eqn:Hq.
  - rewrite Hq. rewrite lookup_insert. case_decide; simpl; congruence.
  - rewrite lookup_insert_eq. rewrite insert_insert_eq, lookup_insert.
    case_decide; simpl; congruence.
Qed.

Lemma RecordSend_step u q m b a (w : World) :
  RecordSend u q m b a w =
    Some (tt,
      mkWorld
        (heap w ++ [sent (next_id w (ticks w)) (clock w (S (ticks w))) u q m b a])
        (mkStore (<[m := length (heap w)]> (messages (store w)))
           (add_member q m (queues (store w)))
           (history (store w) ++ [length (heap w)])
           (receipts (store w)))
        (next_counter w) (clock w) (S (S (ticks w)))).
Proof. reflexivity. Qed.

Lemma load_new (h : list Message) (x : Message) :
  (h ++ [x]) !! length h = Some x.
Proof. by rewrite list_lookup_middle. Qed.

Lemma update_new (h : list Message) (x y : Message) :
  <[length h := y]> (h ++ [x]) = h ++ [y].
Proof.
  rewrite insert_app_r_alt by lia. by rewrite Nat.sub_diag.
Qed.

Lemma RecordReceive_known u q m rh b a (w : World) p :
  messages (store w) !! m = Some p →
  RecordReceive u q m rh b a w =
    Some (tt,
      mkWorld
        (heap w ++
           [received (next_id w (ticks w)) (clock w (S (ticks w))) u q m rh b a])
        (mkStore (messages (store w)) (queues (store w))
           (history (store w) ++ [length (heap w)])
           (<[rh := m]> (receipts (store w))))
        (next_counter w) (clock w) (S (S (ticks w)))).
Proof.
  intros Hm. unfold RecordReceive, mbind, M_bind. simpl. rewrite Hm. reflexivity.
Qed.

Lemma RecordReceive_fresh u q m rh b a (w : World) :
  messages (store w) !! m = None →
  RecordReceive u q m rh b a w =
    Some (tt,
      mkWorld
        ((heap w ++
            [received (next_id w (ticks w)) (clock w (S (ticks w)))
               u q m rh b a])
           ++ [received (next_id w (ticks w)) (clock w (S (S (ticks w))))
                 u q m rh b a])
        (mkStore (<[m := S (length (heap w))]> (messages (store w)))
           (add_member q m (queues (store w)))
           (history (store w) ++ [length (heap w)])
           (<[rh := m]> (receipts (store w))))
        (next_counter w) (clock w) (S (S (S (ticks w))))).
Proof.
  intros Hm. unfold RecordReceive, mbind, M_bind. simpl. rewrite Hm.
  unfold load. simpl. rewrite load_new. simpl.
  unfold new. simpl. rewrite length_app, Nat.add_1_r.
  reflexivity.
Qed.

Lemma RecordDelete_miss u q rh (w : World) :
  receipts (store w) !! rh = None →
  RecordDelete u q rh w =
    Some (tt,
      mkWorld
        (heap w ++ [deleted (next_id w (S (ticks w))) (clock w (ticks w))
                      u q "" rh ""])
        (mkStore (messages (store w)) (queues (store w))
           (history (store w) ++ [length (heap w)])
           (receipts (store w)))
        (next_counter w) (clock w) (S (S (ticks w)))).
Proof.
  intros Hr. unfold RecordDelete, mbind, M_bind. simpl. rewrite Hr. reflexivity.
Qed.

Lemma RecordDelete_orphan u q rh (w : World) m :
  receipts (store w) !! rh = Some m →
  messages (store w) !! m = None →
  RecordDelete u q rh w =
    Some (tt,
      mkWorld
        (heap w ++ [deleted (next_id w (S (ticks w))) (clock w (ticks w))
                      u q m rh ""])
        (mkStore (messages (store w)) (queues (store w))
           (history (store w) ++ [length (heap w)])
           (receipts (store w)))
        (next_counter w) (clock w) (S (S (ticks w)))).
Proof.
  intros Hr Hm. unfold RecordDelete, mbind, M_bind. simpl. rewrite Hr.
  unfold update. simpl. rewrite load_new. simpl. rewrite Hm.
  rewrite update_new. reflexivity.
Qed.

Lemma RecordDelete_hit u q rh (w : World) m p c :
  receipts (store w) !! rh = Some m →
  messages (store w) !! m = Some p →
  heap w !! p = Some c →
  RecordDelete u q rh w =
    Some (tt,
      mkWorld
        (<[p := mark_deleted (clock w (ticks w)) c]> (heap w)
           ++ [deleted (next_id w (S (ticks w))) (clock w (ticks w))
                 u q m rh (Body c)])
        (mkStore (messages (store w)) (queues (store w))
           (history (store w) ++ [length (heap w)])
           (receipts (store w)))
        (next_counter w) (clock w) (S (S (ticks w)))).
Proof.
  intros Hr Hm Hc. unfold RecordDelete, mbind, M_bind. simpl. rewrite Hr.
  pose proof (lookup_lt_Some _ _ _ Hc) as Hlt.
  unfold update, load. simpl. rewrite load_new. simpl. rewrite Hm.
  rewrite update_new. simpl.
  rewrite (lookup_app_l _ _ p) by done. rewrite Hc. simpl.
  rewrite insert_app_l by done.
  rewrite lookup_app_l by (by rewrite length_insert).
  rewrite list_lookup_insert_eq by done. simpl.
  rewrite insert_app_l by (by rewrite length_insert).
  rewrite list_insert_insert_eq.
  rewrite lookup_app_l by (by rewrite length_insert).
  rewrite list_lookup_insert_eq by done. simpl.
  rewrite lookup_app_r by (by rewrite length_insert).
  rewrite length_insert, Nat.sub_diag. simpl.
  rewrite insert_app_r_alt by (by rewrite length_insert).
  rewrite length_insert, Nat.sub_diag. reflexivity.
Qed.

Lemma Clear_step (w : World) :
  Clear w = Some (tt, mkWorld (heap w) New (idCounter w) (clock w) (ticks w)).
Proof. reflexivity. Qed.

Lemma wf_initial clk : wf (initial clk).
Proof.
  split; simpl.
  - intros k p H. by rewrite lookup_empty in H.
  - intros p H. by apply elem_of_nil in H.
Qed.

Lemma wf_alloc (h : list Message) (x : Message) (ms : gmap string ptr) :
  (∀ k p, ms !! k = Some p → ∃ c, h !! p = Some c ∧ MessageID c = k) →
  ∀ k p, ms !! k = Some p → ∃ c, (h ++ [x]) !! p = Some c ∧ MessageID c = k.
Proof.
  intros H k p Hk. destruct (H k p Hk) as (c & Hc & Hid).
  exists c. split; [|done]. by apply lookup_app_l_Some.
Qed.

Lemma wf_file (h : list Message) (x : Message) (ms : gmap string ptr) m :
  MessageID x = m →
  (∀ k p, ms !! k = Some p → ∃ c, h !! p = Some c ∧ MessageID c = k) →
  ∀ k p, <[m := length h]> ms !! k = Some p →
         ∃ c, (h ++ [x]) !! p = Some c ∧ MessageID c = k.
Proof.
  intros Hx H k p. rewrite lookup_insert. case_decide as Hk.
  - intros [= <-]. exists x. subst. by rewrite load_new.
  - by apply wf_alloc.
Qed.

Lemma wf_append (h : list Message) (x : Message) (hist : list ptr) :
  (∀ p, p ∈ hist → (p < length h)%nat) →
  ∀ p, p ∈ hist ++ [length h] → (p < length (h ++ [x]))%nat.
Proof.
  intros H p. rewrite length_app. simpl. rewrite elem_of_app, list_elem_of_singleton.
  intros [Hp | ->]; [apply H in Hp|]; lia.
Qed.

Lemma wf_RecordSend u q m b a w w' :
  wf w → RecordSend u q m b a w = Some (tt, w') → wf w'.
Proof.
  intros [Hm Hh]. rewrite RecordSend_step. intros [= <-]. split; simpl.
  - by apply wf_file.
  - by apply wf_append.
Qed.

Lemma wf_RecordReceive u q m rh b a w w' :
  wf w → RecordReceive u q m rh b a w = Some (tt, w') → wf w'.
Proof.
  intros [Hm Hh]. destruct (messages (store w) !! m) as [p|] eqn:Hp.
  - rewrite (RecordReceive_known _ _ _ _ _ _ _ p Hp). intros [= <-].
    split; simpl; [by apply wf_alloc | by apply wf_append].
  - rewrite (RecordReceive_fresh _ _ _ _ _ _ _ Hp). intros [= <-].
    split; simpl.
    + replace (S (length (heap w))) with (length (heap w ++
        [received (next_id w (ticks w)) (clock w (S (ticks w))) u q m rh b a]))
        by (rewrite length_app; simpl; lia).
      apply wf_file; [done|]. by apply wf_alloc.
    + intros p Hin. rewrite length_app. simpl.
      pose proof (wf_append (heap w)
        (received (next_id w (ticks w)) (clock w (S (ticks w))) u q m rh b a)
        _ Hh p Hin). lia.
Qed.

Lemma RecordDelete_total u q rh w :
  wf w → ∃ w', RecordDelete u q rh w = Some (tt, w') ∧ wf w'.
Proof.
  intros [Hm Hh]. destruct (receipts (store w) !! rh) as [m|] eqn:Hr.
  - destruct (messages (store w) !! m) as [p|] eqn:Hp.
    + destruct (Hm m p Hp) as (c & Hc & Hid).
      eexists. split; [by apply (RecordDelete_hit _ _ _ _ m p c)|].
      split; simpl.
      * intros k p' Hk. destruct (Hm k p' Hk) as (c' & Hc' & Hid').
        destruct (decide (p' = p)) as [->|Hne].
        -- exists (mark_deleted (clock w (ticks w)) c). split.
           ++ apply lookup_app_l_Some. apply list_lookup_insert_eq.
              by eapply lookup_lt_Some.
           ++ simpl. congruence.
        -- exists c'. split; [|done]. apply lookup_app_l_Some.
           by rewrite list_lookup_insert_ne.
      * intros p' Hin. rewrite length_app, length_insert.
        rewrite <- (length_app _ [c]). by apply (wf_append _ c _ Hh).
    + eexists. split; [by apply (RecordDelete_orphan _ _ _ _ m)|].
      split; simpl; [by apply wf_alloc | by apply wf_append].
  - eexists. split; [by apply RecordDelete_miss|].
    split; simpl; [by apply wf_alloc | by apply wf_append].
Qed.

Lemma call_total c w : wf w → ∃ w', call c w = Some (tt, w') ∧ wf w'.
Proof.
  intros Hw. destruct c as [u q m b a | u q m rh b a | u q rh |]; simpl.
  - eexists. split; [apply RecordSend_step|].
    eapply wf_RecordSend; [done | apply RecordSend_step].
  - destruct (messages (store w) !! m) as [p|] eqn:Hp.
    + eexists. split; [by apply (RecordReceive_known _ _ _ _ _ _ _ p)|].
      eapply wf_RecordReceive; [done | by apply (RecordReceive_known _ _ _ _ _ _ _ p)].
    + eexists. split; [by apply RecordReceive_fresh|].
      eapply wf_RecordReceive; [done | by apply RecordReceive_fresh].
  - by apply RecordDelete_total.
  - eexists. split; [apply Clear_step|]. split; simpl.
    + intros k p H. by rewrite lookup_empty in H.
    + intros p H. by apply elem_of_nil in H.
Qed.

Lemma run_cons c cs w :
  run (c :: cs) w = match call c w with
                    | Some (_, w') => run cs w'
                    | None => None
                    end.
Proof. reflexivity. Qed.

Lemma run_app cs1 cs2 w w1 :
  run cs1 w = Some (tt, w1) → run (cs1 ++ cs2) w = run cs2 w1.
Proof.
  revert w. induction cs1 as [|c cs1 IH]; intros w.
  - simpl. by intros [= ->].
  - rewrite <- app_comm_cons, !run_cons.
    destruct (call c w) as [[[] w2]|]; [apply IH | done].
Qed.

(** No sequence of calls panics, from a well-formed world. *)
Lemma run_total cs w : wf w → ∃ w', run cs w = Some (tt, w') ∧ wf w'.
Proof.
  revert w. induction cs as [|c cs IH]; intros w Hw.
  - by exists w.
  - destruct (call_total c w Hw) as (w1 & Hc & Hw1).
    destruct (IH w1 Hw1) as (w' & Hr & Hw').
    exists w'. split; [|done]. by rewrite run_cons, Hc.
Qed.

Lemma reachable_wf w : reachable w → wf w.
Proof.
  intros (clk & cs & Hrun).
  destruct (run_total cs (initial clk) (wf_initial clk)) as (w' & Hr & Hw').
  congruence.
Qed.

Lemma reachable_initial clk : reachable (initial clk).
Proof. by exists clk, []. Qed.

Lemma reachable_run cs w w' :
  reachable w → run cs w = Some (tt, w') → reachable w'.
Proof.
  intros (clk & cs0 & H0) Hrun. exists clk, (cs0 ++ cs).
  by rewrite (run_app _ _ _ _ H0).
Qed.

Lemma run_after cs : run cs (initial noon) = Some (tt, after cs).
Proof.
  unfold after.
  destruct (run_total cs (initial noon) (wf_initial noon)) as (w & -> & _).
  reflexivity.
Qed.

Lemma reachable_after cs : reachable (after cs).
Proof. exists noon, cs. apply run_after. Qed.

Lemma GetMessages_loop_spec q incl entries result (w : World) :
  (∀ e, e ∈ entries → is_Some (heap w !! e.2)) →
  GetMessages_loop q incl entries result w =
    Some (result ++ (List.filter (shown w q incl) entries).*2, w).
Proof.
  revert result. induction entries as [|[k p] rest IH]; intros result Hall.
  - simpl. by rewrite app_nil_r.
  - assert (Hrest : ∀ e, e ∈ rest → is_Some (heap w !! e.2))
      by (intros e He; apply Hall; by right).
    destruct (Hall (k, p)) as [c Hc]; [by left|]. simpl in Hc.
    cbn [GetMessages_loop List.filter]. unfold shown at 1. simpl. rewrite Hc.
    unfold visible, mbind, M_bind, load, mret, M_ret.
    destruct (bool_decide (q ≠ "")) eqn:Hq; simpl; rewrite ?Hc; simpl.
    + destruct (bool_decide (QueueName c ≠ q)) eqn:Hn; simpl.
      * by rewrite IH.
      * destruct incl; simpl; rewrite ?Hc; simpl.
        -- rewrite IH by done. by rewrite <- app_assoc.
        -- destruct (Deleted c); simpl; rewrite IH by done; [done|].
           by rewrite <- app_assoc.
    + destruct incl; simpl; rewrite ?Hc; simpl.
      * rewrite IH by done. by rewrite <- app_assoc.
      * destruct (Deleted c); simpl; rewrite IH by done; [done|].
        by rewrite <- app_assoc.
Qed.

Lemma shown_elem w q incl (es : list (string * ptr)) p :
  p ∈ (List.filter (shown w q incl) es).*2 → ∃ k, (k, p) ∈ es.
Proof.
  intros ([k p'] & -> & Hin%list_elem_of_In)%list_elem_of_fmap.
  apply List.filter_In in Hin as [Hin _]. exists k. by apply list_elem_of_In.
Qed.

(** One call that keeps the entry of [m] leaves its pointer in place and
    its flag set. *)
Lemma call_keeps_deleted m c (w : World) p cell :
  wf w →
  keeps_entry m c →
  messages (store w) !! m = Some p →
  heap w !! p = Some cell →
  Deleted cell = true →
  ∃ w' cell',
    call c w = Some (tt, w') ∧ wf w' ∧
    messages (store w') !! m = Some p ∧
    heap w' !! p = Some cell' ∧ Deleted cell' = true.
Proof.
  intros Hw Hk Hm Hc Hd.
  destruct (call_total c w Hw) as (w' & Hcall & Hw').
  destruct c as [u q m' b a | u q m' rh b a | u q rh |]; simpl in *.
  - rewrite RecordSend_step in Hcall. injection Hcall as <-.
    eexists _, cell. split; [apply RecordSend_step|]. split; [done|]. simpl.
    split; [by rewrite lookup_insert_ne|].
    split; [by apply lookup_app_l_Some | done].
  - destruct (messages (store w) !! m') as [p'|] eqn:Hp'.
    + rewrite (RecordReceive_known _ _ _ _ _ _ _ p' Hp') in Hcall.
      injection Hcall as <-.
      eexists _, cell. split; [by apply (RecordReceive_known _ _ _ _ _ _ _ p')|].
      split; [done|]. simpl.
      split; [done|]. split; [by apply lookup_app_l_Some | done].
    + rewrite (RecordReceive_fresh _ _ _ _ _ _ _ Hp') in Hcall.
      injection Hcall as <-.
      eexists _, cell. split; [by apply RecordReceive_fresh|].
      split; [done|]. simpl.
      split; [rewrite lookup_insert_ne; [done | congruence]|].
      split; [by apply lookup_app_l_Some, lookup_app_l_Some | done].
  - destruct (receipts (store w) !! rh) as [m0|] eqn:Hr.
    + destruct (messages (store w) !! m0) as [p0|] eqn:Hp0.
      * destruct (wf_messages _ Hw m0 p0 Hp0) as (c0 & Hc0 & _).
        rewrite (RecordDelete_hit _ _ _ _ m0 p0 c0 Hr Hp0 Hc0) in Hcall.
        injection Hcall as <-.
        destruct (decide (p0 = p)) as [->|Hne].
        -- eexists _, _. split; [by apply (RecordDelete_hit _ _ _ _ m0 p c0)|].
           split; [done|]. simpl. split; [done|]. split.
           ++ apply lookup_app_l_Some, list_lookup_insert_eq.
              by eapply lookup_lt_Some.
           ++ done.
        -- eexists _, cell.
           split; [by apply (RecordDelete_hit _ _ _ _ m0 p0 c0)|].
           split; [done|]. simpl. split; [done|]. split; [|done].
           apply lookup_app_l_Some. by rewrite list_lookup_insert_ne.
      * rewrite (RecordDelete_orphan _ _ _ _ m0 Hr Hp0) in Hcall.
        injection Hcall as <-.
        eexists _, cell. split; [by apply (RecordDelete_orphan _ _ _ _ m0)|].
        split; [done|]. simpl.
        split; [done|]. split; [by apply lookup_app_l_Some | done].
    + rewrite (RecordDelete_miss _ _ _ _ Hr) in Hcall. injection Hcall as <-.
      eexists _, cell. split; [by apply RecordDelete_miss|].
      split; [done|]. simpl.
      split; [done|]. split; [by apply lookup_app_l_Some | done].
  - done.
Qed.

Lemma run_keeps_deleted m cs (w : World) p cell :
  wf w →
  Forall (keeps_entry m) cs →
  messages (store w) !! m = Some p →
  heap w !! p = Some cell →
  Deleted cell = true →
  ∃ w' cell',
    run cs w = Some (tt, w') ∧ wf w' ∧
    messages (store w') !! m = Some p ∧
    heap w' !! p = Some cell' ∧ Deleted cell' = true.
Proof.
  intros Hw Hcs. revert w cell Hw.
  induction Hcs as [|c cs Hc Hcs IH]; intros w cell Hw Hm Hcell Hd.
  - by exists w, cell.
  - destruct (call_keeps_deleted m c w p cell Hw Hc Hm Hcell Hd)
      as (w1 & cell1 & Hcall & Hw1 & Hm1 & Hcell1 & Hd1).
    destruct (IH w1 cell1 Hw1 Hm1 Hcell1 Hd1)
      as (w' & cell' & Hrun & Hw' & Hm' & Hcell' & Hd').
    exists w', cell'. split; [|done]. by rewrite run_cons, Hcall.
Qed.

(** ** [GetHistory] *)

Lemma index_reverse (h : list ptr) (i : nat) :
  (i < length h)%nat →
  index h (Z.of_nat (length h) - 1 - Z.of_nat i) = reverse h !! i.
Proof.
  intros Hi. unfold index.
  replace ((_ <? 0) || _) with false
    by (symmetry; apply orb_false_iff; split; lia).
  rewrite reverse_lookup by done. f_equal. lia.
Qed.

Lemma GetHistory_loop_spec (h : list ptr) (n i : nat) :
  (i + n ≤ length h)%nat →
  GetHistory_loop h n (Z.of_nat i) (take i (reverse h)) =
    Some (take (i + n) (reverse h)).
Proof.
  revert i. induction n as [|n IH]; intros i Hle.
  - simpl. by rewrite Nat.add_0_r.
  - cbn [GetHistory_loop]. rewrite index_reverse by lia.
    destruct (reverse h !! i) as [e|] eqn:He.
    + rewrite <- (take_S_r _ _ _ He).
      replace (Z.of_nat i + 1) with (Z.of_nat (S i)) by lia.
      rewrite IH by lia. f_equal. f_equal. lia.
    + apply lookup_ge_None in He. rewrite length_reverse in He. lia.
Qed.

(** The number of entries [GetHistory] returns for a limit. *)
Lemma GetHistory_take limit (w : World) :
  let h := history (store w) in
  let len := Z.of_nat (length h) in
  let n := if (limit <=? 0) || (len <? limit) then len else limit in
  GetHistory limit w = Some (take (Z.to_nat n) (reverse h), w).
Proof.
  intros h len n. unfold GetHistory, mbind, M_bind, getStore, or_panic.
  assert (Hloop : GetHistory_loop h (Z.to_nat n) 0 [] =
                  Some (take (Z.to_nat n) (reverse h))).
  { apply (GetHistory_loop_spec h (Z.to_nat n) 0).
    subst n. destruct ((limit <=? 0) || (len <? limit)) eqn:Hc; [lia|].
    apply orb_false_iff in Hc. lia. }
  fold h. fold len. fold n. by rewrite Hloop.
Qed.

(** ** [GetQueueStats] *)

Lemma deref_cons w p ps c :
  heap w !! p = Some c → deref w (p :: ps) = c :: deref w ps.
Proof. intros H. unfold deref. simpl. by rewrite H. Qed.

Lemma count_events_spec (h : list ptr) stats (w : World) :
  (∀ p, p ∈ h → (p < length (heap w))%nat) →
  count_events h stats w = Some (tally (deref w h) stats, w)
  ∧ length (deref w h) = length h.
Proof.
  revert stats. induction h as [|p h IH]; intros stats Hh; [done|].
  destruct (lookup_lt_is_Some_2 (heap w) p) as [c Hc]; [apply Hh; by left|].
  rewrite (deref_cons _ _ _ _ Hc). cbn [count_events].
  unfold mbind, M_bind, load. rewrite Hc.
  destruct (IH (count_event c stats)) as [H1 H2];
    [intros; apply Hh; by right|].
  rewrite H1. split; [done|]. simpl. by rewrite H2.
Qed.

Lemma count_kind_snoc es e q a :
  count_kind (es ++ [e]) q a =
    count_kind es q a + (if is_event q a e then 1 else 0).
Proof.
  unfold count_kind. rewrite List.filter_app, length_app. simpl.
  destruct (is_event q a e); simpl; lia.
Qed.

Lemma is_event_other q a e : QueueName e ≠ q → is_event q a e = false.
Proof. intros H. unfold is_event. by rewrite bool_decide_false. Qed.

Lemma is_event_same a e :
  is_event (QueueName e) a e = bool_decide (Action e = a).
Proof. unfold is_event. by rewrite bool_decide_true. Qed.

Lemma count_kind_none es q a :
  (∀ e, e ∈ es → QueueName e ≠ q) → count_kind es q a = 0.
Proof.
  intros H. unfold count_kind.
  induction es as [|e es IH]; [done|]. simpl.
  rewrite is_event_other by (apply H; by left).
  apply IH. intros e' He'. apply H. by right.
Qed.

Lemma tallied_at_other es e q o :
  QueueName e ≠ q → tallied_at es q o → tallied_at (es ++ [e]) q o.
Proof.
  intros Hne. destruct o as [st|]; simpl.
  - intros ((e0 & He0 & Hq0) & Hn & Hs & Hr & Hd & Hp).
    rewrite !count_kind_snoc, !is_event_other by done.
    split; [exists e0; split; [apply elem_of_app; by left | done]|].
    repeat split; (done || lia).
  - intros Ht e0 [He0|He0%list_elem_of_singleton]%elem_of_app;
      [by apply Ht | by subst].
Qed.

Lemma tallied_snoc es e stats :
  tallied es stats → tallied (es ++ [e]) (count_event e stats).
Proof.
  intros Ht q. specialize (Ht q). unfold count_event.
  assert (Hex : ∃ e0, e0 ∈ es ++ [e] ∧ QueueName e0 = QueueName e)
    by (exists e; split; [apply elem_of_app; right; by left | done]).
  destruct (decide (QueueName e = q)) as [<-|Hne].
  - destruct (stats !! QueueName e) as [st|] eqn:Hst; simpl in Ht.
    + destruct Ht as (_ & Hn & Hs & Hr & Hd & Hp).
      destruct (Action e) eqn:Ha; rewrite lookup_alter_eq, Hst; simpl;
        rewrite !count_kind_snoc, !is_event_same, Ha; simpl;
        (split; [done|]); repeat split;
        repeat case_bool_decide; (done || lia || congruence).
    + destruct (Action e) eqn:Ha; rewrite lookup_alter_eq, lookup_insert_eq;
        simpl; rewrite !count_kind_snoc, !is_event_same, Ha,
          !(count_kind_none es) by done; simpl;
        (split; [done|]); repeat split;
        repeat case_bool_decide; (done || lia || congruence).
  - apply (tallied_at_other es e q _ Hne) in Ht.
    assert (Hlk : match stats !! QueueName e with
                  | Some _ => stats
                  | None => <[QueueName e := mkQueueStats (QueueName e)
                                               (QueueURL e) 0 0 0 0]> stats
                  end !! q = stats !! q).
    { destruct (stats !! QueueName e); [done|]. by rewrite lookup_insert_ne. }
    destruct (Action e); rewrite lookup_alter_ne, Hlk by done; exact Ht.
Qed.

Lemma tallied_tally es0 es stats :
  tallied es0 stats → tallied (es0 ++ es) (tally es stats).
Proof.
  revert es0 stats. induction es as [|e es IH]; intros es0 stats Ht.
  - by rewrite app_nil_r.
  - simpl. rewrite cons_middle, app_assoc. apply IH. by apply tallied_snoc.
Qed.

Lemma tallied_empty : tallied [] ∅.
Proof. intros q. rewrite lookup_empty. by intros e H%elem_of_nil. Qed.

Lemma count_pending_spec (w : World) ids pending :
  wf w →
  count_pending (messages (store w)) ids pending w =
    Some (pending + Z.of_nat (length (List.filter (is_pending w) ids)), w).
Proof.
  intros Hw. revert pending. induction ids as [|id ids IH]; intros pending.
  - simpl. unfold mret, M_ret. do 2 f_equal. lia.
  - cbn [count_pending List.filter]. unfold is_pending at 1, current_state.
    destruct (messages (store w) !! id) as [p|] eqn:Hp; [|apply IH].
    destruct (wf_messages _ Hw id p Hp) as (c & Hc & _).
    unfold mbind, M_bind, load. rewrite Hc, IH.
    destruct (Deleted c); simpl; do 2 f_equal; lia.
Qed.

Lemma pending_loop_spec (w : World) qs stats :
  wf w →
  NoDup qs.*1 →
  ∃ stats',
    pending_loop (messages (store w)) qs stats w = Some (stats', w) ∧
    ∀ q, stats' !! q = set_pending w (list_to_map qs) q <$> stats !! q.
Proof.
  intros Hw. revert stats.
  induction qs as [|[q1 ms1] qs IH]; intros stats Hnd.
  - exists stats. split; [done|]. intros q. unfold set_pending. simpl.
    rewrite lookup_empty. by destruct (stats !! q).
  - simpl in Hnd. apply NoDup_cons in Hnd as [Hq1 Hnd].
    assert (Hnone : (list_to_map qs : gmap string (gset string)) !! q1 = None)
      by (by apply not_elem_of_list_to_map_1).
    cbn [pending_loop list_to_map foldr].
    destruct (stats !! q1) as [st1|] eqn:Hst1.
    + unfold mbind, M_bind. rewrite count_pending_spec by done.
      destruct (IH (alter (with_Pending
                  (0 + Z.of_nat (length (List.filter (is_pending w)
                     (elements ms1))))) q1 stats) Hnd) as (stats' & Hrun & Hlk).
      exists stats'. split; [exact Hrun|]. intros q. rewrite Hlk.
      unfold set_pending. destruct (decide (q1 = q)) as [<-|Hne].
      * rewrite lookup_alter_eq, Hst1, Hnone. simpl.
        by rewrite lookup_insert_eq.
      * rewrite lookup_alter_ne by done. by rewrite lookup_insert_ne.
    + destruct (IH stats Hnd) as (stats' & Hrun & Hlk).
      exists stats'. split; [exact Hrun|]. intros q. rewrite Hlk.
      unfold set_pending. destruct (decide (q1 = q)) as [<-|Hne].
      * by rewrite Hst1.
      * by rewrite lookup_insert_ne.
Qed.

(** The map [GetQueueStats] has built when it copies it into its result. *)
Lemma GetQueueStats_map (w : World) :
  wf w →
  ∃ stats : gmap string QueueStats,
    GetQueueStats w = Some ((map_to_list stats).*2, w) ∧
    ∀ q,
      match stats !! q with
      | None => ∀ e, e ∈ events w → QueueName e ≠ q
      | Some st =>
          (∃ e, e ∈ events w ∧ QueueName e = q) ∧
          qsQueueName st = q ∧
          TotalSent st = count_kind (events w) q ActionSend ∧
          TotalReceived st = count_kind (events w) q ActionReceive ∧
          TotalDeleted st = count_kind (events w) q ActionDelete ∧
          Pending st = pending_members w q
      end.
Proof.
  intros Hw.
  destruct (count_events_spec (history (store w)) ∅ w (wf_history _ Hw))
    as [Hce _].
  destruct (pending_loop_spec w (map_to_list (queues (store w)))
              (tally (events w) ∅) Hw (NoDup_fst_map_to_list _))
    as (stats & Hpl & Hlk).
  exists stats. split.
  - unfold GetQueueStats, mbind, M_bind, getStore. rewrite Hce.
    fold (events w). by rewrite Hpl.
  - intros q. rewrite Hlk.
    pose proof (tallied_tally [] (events w) ∅ tallied_empty q) as Ht.
    simpl in Ht. destruct (tally (events w) ∅ !! q) as [st|]; simpl in *;
      [|done].
    destruct Ht as (Hex & Hn & Hs & Hr & Hd & Hp).
    unfold set_pending. rewrite list_to_map_to_list.
    unfold pending_members, members.
    destruct (queues (store w) !! q) as [ms|]; simpl.
    + by repeat split.
    + rewrite elements_empty. by repeat split.
Qed.

(** ** [generateID] *)

Lemma int64_small x : -2 ^ 63 <= x < 2 ^ 63 → Go.int64 x = x.
Proof.
  intros H. unfold Go.int64, Go.wrap.
  rewrite Z.mod_small; lia.
Qed.

Lemma call_counter c (w w' : World) :
  wf w →
  call c w = Some (tt, w') →
  wf w' ∧
  clock w' = clock w ∧
  idCounter w' = if records c then next_counter w else idCounter w.
Proof.
  intros Hw Hcall.
  destruct (call_total c w Hw) as (w1 & Hcall1 & Hw1).
  assert (w1 = w') as -> by congruence. split; [done|]. clear Hcall1 Hw1.
  revert Hcall.
  destruct c as [u q m b a | u q m rh b a | u q rh |]; simpl.
  - rewrite RecordSend_step. by intros [= <-].
  - destruct (messages (store w) !! m) as [p|] eqn:Hp.
    + rewrite (RecordReceive_known _ _ _ _ _ _ _ p Hp). by intros [= <-].
    + rewrite (RecordReceive_fresh _ _ _ _ _ _ _ Hp). by intros [= <-].
  - destruct (receipts (store w) !! rh) as [m|] eqn:Hr.
    + destruct (messages (store w) !! m) as [p|] eqn:Hp.
      * destruct (wf_messages _ Hw m p Hp) as (c & Hc & _).
        rewrite (RecordDelete_hit _ _ _ _ m p c Hr Hp Hc). by intros [= <-].
      * rewrite (RecordDelete_orphan _ _ _ _ m Hr Hp). by intros [= <-].
    + rewrite (RecordDelete_miss _ _ _ _ Hr). by intros [= <-].
  - rewrite Clear_step. by intros [= <-].
Qed.

Lemma run_counter cs (w w' : World) :
  wf w →
  run cs w = Some (tt, w') →
  0 <= idCounter w →
  idCounter w + Z.of_nat (length cs) < 2 ^ 63 →
  clock w' = clock w ∧
  idCounter w' = idCounter w + Z.of_nat (length (List.filter records cs)).
Proof.
  revert w. induction cs as [|c cs IH]; intros w Hw.
  - simpl. intros [= <-] _ _. split; [done | lia].
  - rewrite run_cons. destruct (call c w) as [[[] w1]|] eqn:Hc; [|done].
    intros Hrun H0 Hlt. simpl length in Hlt.
    destruct (call_counter c w w1 Hw Hc) as (Hw1 & Hclk & Hcnt).
    assert (Hnext : next_counter w = idCounter w + 1)
      by (unfold next_counter; apply int64_small; lia).
    destruct (IH w1 Hw1 Hrun) as [Hclk' Hcnt'].
    + destruct (records c); lia.
    + destruct (records c); lia.
    + split; [congruence|]. rewrite Hcnt'. simpl.
      destruct (records c); simpl; lia.
Qed.

Lemma filter_records_busy (n : nat) c :
  records c = true → List.filter records (replicate n c) = replicate n c.
Proof. intros Hc. induction n as [|n IH]; simpl; [done|]. by rewrite Hc, IH. Qed.

Lemma after_busy (n : Z) :
  0 <= n < 2 ^ 62 →
  idCounter (after (busy n)) = n ∧ clock (after (busy n)) = noon.
Proof.
  intros Hn.
  destruct (run_counter (busy n) (initial noon) (after (busy n))
              (wf_initial noon) (run_after _)) as [Hclk Hcnt].
  - simpl. lia.
  - simpl. unfold busy. rewrite length_replicate. lia.
  - split; [|done]. rewrite Hcnt. unfold busy.
    rewrite filter_records_busy by done. rewrite length_replicate.
    simpl. lia.
Qed.

Lemma two_sends_step (w : World) :
  ∃ w',
    run two_sends w = Some (tt, w') ∧
    heap w' = heap w ++
      [sent (Go.Format_20060102150405 (clock w (ticks w)) +:+ "-"
               +:+ Go.string_of_rune (Go.rune (Go.int64 (idCounter w + 1))))
            (clock w (S (ticks w))) sample_url "q1" "a" "x" ∅;
       sent (Go.Format_20060102150405 (clock w (S (S (ticks w)))) +:+ "-"
               +:+ Go.string_of_rune
                     (Go.rune (Go.int64 (Go.int64 (idCounter w + 1) + 1))))
            (clock w (S (S (S (ticks w))))) sample_url "q1" "b" "y" ∅].
Proof.
  unfold two_sends. rewrite run_cons. cbn [call]. rewrite RecordSend_step.
  rewrite run_cons. cbn [call]. rewrite RecordSend_step. cbn [run].
  eexists. split; [reflexivity|].
  cbn [heap]. rewrite <- app_assoc. reflexivity.
Qed.

(** ** Action identification *)

Lemma strip_prefix_app p s : Proxy.strip_prefix p (p +:+ s) = Some s.
Proof.
  induction p as [|a p IH]; simpl; [by destruct s|].
  by rewrite Ascii.eqb_refl.
Qed.

Lemma strip_prefix_Some p s r : Proxy.strip_prefix p s = Some r → s = p +:+ r.
Proof.
  revert s. induction p as [|a p IH]; intros s; simpl.
  - by intros [= ->].
  - destruct s as [|b s]; [done|].
    destruct (Ascii.eqb a b) eqn:Hab; [|done].
    apply Ascii.eqb_eq in Hab as ->. intros H%IH. by rewrite H.
Qed.

Lemma span_all p v rest :
  all_bytes p v = true → stops p rest = true →
  Proxy.span p (v +:+ rest) = (v, rest).
Proof.
  intros Hv Hrest. induction v as [|c v IH]; simpl in *.
  - destruct rest as [|c rest]; [done|].
    apply negb_true_iff in Hrest. simpl. by rewrite Hrest.
  - apply andb_true_iff in Hv as [-> Hv]. by rewrite IH.
Qed.

Lemma plus_Some p s v rest :
  Proxy.plus p s = Some (v, rest) →
  s = v +:+ rest ∧ ∃ c v', v = String c v' ∧ p c = true.
Proof.
  unfold Proxy.plus. destruct (Proxy.span p s) as [v0 r0] eqn:Hs.
  destruct v0 as [|c v']; [done|]. intros [= <- <-].
  assert (Hspan : ∀ s v r, Proxy.span p s = (v, r) →
            s = v +:+ r ∧ stops (λ c, negb (p c)) v = true).
  { clear. intros s. induction s as [|c s IH]; intros v r; simpl.
    - by intros [= <- <-].
    - destruct (p c) eqn:Hc.
      + destruct (Proxy.span p s) as [v1 r1]. intros [= <- <-].
        destruct (IH v1 r1 eq_refl) as [-> _]. simpl. by rewrite Hc.
      + by intros [= <- <-]. }
  destruct (Hspan _ _ _ Hs) as [-> Hc]. split; [done|].
  exists c, v'. split; [done|]. simpl in Hc. by destruct (p c).
Qed.

Lemma parseActionFromTarget_AmazonSQS a :
  Proxy.parseActionFromTarget ("AmazonSQS." +:+ a) = a.
Proof.
  unfold Proxy.parseActionFromTarget, Proxy.HasPrefix, Proxy.TrimPrefix.
  by rewrite strip_prefix_app.
Qed.

Lemma parseActionFromForm_first v rest :
  v ≠ "" → all_bytes Proxy.not_amp v = true →
  stops Proxy.not_amp rest = true →
  Proxy.parseActionFromForm ("Action=" +:+ v +:+ rest) = v.
Proof.
  intros Hne Hv Hrest. unfold Proxy.parseActionFromForm.
  assert (Hat : Proxy.field_at "Action" ("Action=" +:+ v +:+ rest)
                = Some (v, rest)).
  { unfold Proxy.field_at. rewrite strip_prefix_app.
    unfold Proxy.plus. rewrite span_all by done. by destruct v. }
  destruct v as [|c v]; [done|].
  change ("Action=" +:+ String c v +:+ rest)
    with (String "A" ("ction=" +:+ String c v +:+ rest)) in *.
  cbn [Proxy.FindStringSubmatch]. by rewrite Hat.
Qed.

Lemma FindStringSubmatch_None_iff body :
  Proxy.FindStringSubmatch (Proxy.field_at "Action") body = None
  ↔ ¬ has_action_field body.
Proof.
  induction body as [|a body IH].
  - split; [|done]. intros _ (pre & c & rest & Hb & _).
    destruct pre; discriminate.
  - cbn [Proxy.FindStringSubmatch].
    destruct (Proxy.field_at "Action" (String a body)) as [[v r]|] eqn:Hat.
    + split; [done|]. intros Hno. exfalso. apply Hno.
      unfold Proxy.field_at in Hat.
      destruct (Proxy.strip_prefix ("Action" +:+ "=") (String a body))
        as [r1|] eqn:Hp; [|done].
      apply strip_prefix_Some in Hp.
      apply plus_Some in Hat as (-> & c & v' & -> & Hc).
      exists "", c, (v' +:+ r). by rewrite Hp.
    + rewrite IH. split.
      * intros Hno (pre & c & rest & Hb & Hc). destruct pre as [|b pre].
        -- rewrite Hb in Hat. unfold Proxy.field_at in Hat.
           change ("" +:+ "Action=" +:+ String c rest)
             with (("Action" +:+ "=") +:+ String c rest) in Hat.
           rewrite strip_prefix_app in Hat. unfold Proxy.plus in Hat.
           simpl in Hat. rewrite Hc in Hat.
           by destruct (Proxy.span Proxy.not_amp rest).
        -- apply Hno. exists pre, c, rest. split; [|done].
           simpl in Hb. by injection Hb.
      * intros Hno (pre & c & rest & Hb & Hc). apply Hno.
        exists (String a pre), c, rest. split; [|done]. simpl. by rewrite Hb.
Qed.

(** ** Attribute extraction *)

Section Correlate.
Variable values : gmap string string.

Local Abbreviation step := (Proxy.correlate_step values).

Lemma foldl_step_sound order (acc : gmap string string) n v :
  foldl step acc order !! n = Some v →
  acc !! n = Some v ∨ ∃ idx, (idx, n) ∈ order ∧ values !! idx = Some v.
Proof.
  revert acc. induction order as [|[idx name] order IH]; intros acc; simpl.
  - by left.
  - intros [Hacc | (idx' & Hin & Hv)]%IH.
    + destruct (values !! idx) as [val|] eqn:Hval; [|by left].
      rewrite lookup_insert in Hacc. case_decide as Hn; [|by left].
      injection Hacc as <-. subst name. right. exists idx.
      split; [by left | done].
    + right. exists idx'. split; [by right | done].
Qed.

Lemma foldl_step_keeps order (acc : gmap string string) n :
  is_Some (acc !! n) → is_Some (foldl step acc order !! n).
Proof.
  revert acc. induction order as [|[idx name] order IH]; intros acc Hacc;
    simpl; [done|].
  apply IH. destruct (values !! idx) as [val|]; [|done].
  rewrite lookup_insert. by case_decide.
Qed.

Lemma foldl_step_complete order (acc : gmap string string) idx n v :
  (idx, n) ∈ order → values !! idx = Some v →
  is_Some (foldl step acc order !! n).
Proof.
  revert acc. induction order as [|[idx' name] order IH]; intros acc Hin Hv.
  - by apply elem_of_nil in Hin.
  - simpl. apply elem_of_cons in Hin as [[= <- <-]|Hin].
    + apply foldl_step_keeps. rewrite Hv. by rewrite lookup_insert_eq.
    + by apply IH.
Qed.

End Correlate.

(** An index maps to the decoded capture of its last match. *)
Lemma foldl_collect_step_other ms (acc : gmap string string) idx :
  idx ∉ ms.*1 → foldl Proxy.collect_step acc ms !! idx = acc !! idx.
Proof.
  revert acc. induction ms as [|[i v] ms IH]; intros acc Hnot; [done|].
  simpl. rewrite fmap_cons, not_elem_of_cons in Hnot. destruct Hnot as [Hne Hnot].
  rewrite IH by done. simpl in Hne. by rewrite lookup_insert_ne.
Qed.

Lemma collect_lookup ms idx n :
  Proxy.collect ms !! idx = Some n ↔
  ∃ l1 v l2, ms = l1 ++ ((idx, v) :: l2) ∧ (idx ∉ l2.*1) ∧ n = Proxy.unescaped v.
Proof.
  unfold Proxy.collect. split.
  - revert n. induction ms as [|[i v] ms IH] using rev_ind; intros n.
    + simpl. by rewrite lookup_empty.
    + rewrite foldl_app. simpl. rewrite lookup_insert. case_decide as Hi.
      * intros [= <-]. subst i. exists ms, v, []. split; [done|].
        split; [|done]. simpl. apply not_elem_of_nil.
      * intros Hlk. apply IH in Hlk as (l1 & v' & l2 & -> & Hnot & ->).
        exists l1, v', (l2 ++ [(i, v)]). split; [by rewrite <- app_assoc|].
        split; [|done]. rewrite fmap_app. simpl.
        rewrite elem_of_app, list_elem_of_singleton. intros [?|?]; [done|].
        by subst.
  - intros (l1 & v & l2 & -> & Hnot & ->).
    rewrite foldl_app. simpl. rewrite foldl_collect_step_other by done.
    apply lookup_insert_eq.
Qed.

(** ** Strings and leftmost matches *)

Lemma sapp_cons x (a b : string) : String x a +:+ b = String x (a +:+ b).
Proof. reflexivity. Qed.

Lemma sapp_nil_l (b : string) : "" +:+ b = b.
Proof. reflexivity. Qed.

(** [+:+] does not unfold by itself. *)
Ltac sapp := rewrite ?sapp_cons, ?sapp_nil_l in *.

Lemma sapp_assoc (a b c : string) : (a +:+ b) +:+ c = a +:+ b +:+ c.
Proof. induction a as [|x a IH]; sapp; [done | by f_equal]. Qed.

Lemma sapp_nil_r (a : string) : a +:+ "" = a.
Proof. induction a as [|x a IH]; sapp; [done | by f_equal]. Qed.

Lemma all_bytes_app p a b :
  all_bytes p (a +:+ b) = all_bytes p a && all_bytes p b.
Proof.
  induction a as [|x a IH]; sapp; simpl; [done|]. by rewrite IH, andb_assoc.
Qed.

(** The leftmost match, in general. *)
Lemma FindStringSubmatch_None {A} (re : string → option (A * string)) s :
  Proxy.FindStringSubmatch re s = None ↔
  ∀ pre suf, s = pre +:+ suf → re suf = None.
Proof.
  induction s as [|a s IH].
  - simpl. destruct (re "") as [[c r]|] eqn:Hre.
    + split; [done|]. intros H. by rewrite (H "" "" eq_refl) in Hre.
    + split; [|done]. intros _ pre suf Hs.
      destruct pre; [|done]. sapp. by subst.
  - cbn [Proxy.FindStringSubmatch].
    destruct (re (String a s)) as [[c r]|] eqn:Hre.
    + split; [done|]. intros H. by rewrite (H "" _ eq_refl) in Hre.
    + rewrite IH. split.
      * intros H pre suf Hs. destruct pre as [|b pre]; sapp.
        -- by subst.
        -- injection Hs as -> Hs. by apply (H pre).
      * intros H pre suf Hs. apply (H (String a pre)). sapp. by rewrite Hs.
Qed.

Lemma FindStringSubmatch_first {A} (re : string → option (A * string))
    pre suf c r :
  (∀ p1 p2, pre = p1 +:+ p2 → p2 ≠ "" → re (p2 +:+ suf) = None) →
  re suf = Some (c, r) →
  Proxy.FindStringSubmatch re (pre +:+ suf) = Some c.
Proof.
  intros Hpre Hsuf. induction pre as [|a pre IH]; sapp.
  - destruct suf; simpl; by rewrite Hsuf.
  - pose proof (Hpre "" (String a pre) eq_refl) as Hnone. sapp.
    cbn [Proxy.FindStringSubmatch]. rewrite Hnone by done.
    apply IH. intros p1 p2 -> Hne. by apply (Hpre (String a p1)).
Qed.

Lemma length_sapp (a b : string) :
  String.length (a +:+ b) = (String.length a + String.length b)%nat.
Proof. induction a as [|x a IH]; sapp; simpl; [done | by rewrite IH]. Qed.

(** *** The pattern of a form field *)

Lemma field_at_Some f s v r :
  Proxy.field_at f s = Some (v, r) →
  ∃ c v', v = String c v' ∧ Proxy.not_amp c = true ∧
          s = f +:+ "=" +:+ v +:+ r.
Proof.
  unfold Proxy.field_at.
  destruct (Proxy.strip_prefix (f +:+ "=") s) as [r1|] eqn:Hp; [|done].
  apply strip_prefix_Some in Hp. intros (-> & c & v' & -> & Hc)%plus_Some.
  exists c, v'. split; [done|]. split; [done|]. by rewrite Hp, sapp_assoc.
Qed.

Lemma field_at_start f c rest :
  Proxy.not_amp c = true →
  is_Some (Proxy.field_at f (f +:+ "=" +:+ String c rest)).
Proof.
  intros Hc. unfold Proxy.field_at.
  rewrite <- sapp_assoc, strip_prefix_app. unfold Proxy.plus. simpl.
  rewrite Hc. by destruct (Proxy.span Proxy.not_amp rest).
Qed.

Lemma FindStringSubmatch_field_None f body :
  Proxy.FindStringSubmatch (Proxy.field_at f) body = None ↔ ¬ has_field f body.
Proof.
  rewrite FindStringSubmatch_None. split.
  - intros H (pre & c & rest & -> & Hc).
    destruct (field_at_start f c rest Hc) as [x Hx].
    by rewrite (H pre _ eq_refl) in Hx.
  - intros Hno pre suf ->.
    destruct (Proxy.field_at f suf) as [[v r]|] eqn:Hat; [|done].
    exfalso. apply Hno.
    apply field_at_Some in Hat as (c & v' & -> & Hc & ->).
    exists pre, c, (v' +:+ r). split; [|done]. by sapp.
Qed.


Lemma span_class p s v r :
  Proxy.span p s = (v, r) →
  s = v +:+ r ∧ all_bytes p v = true ∧ stops p r = true.
Proof.
  revert v r. induction s as [|c s IH]; intros v r; simpl.
  - by intros [= <- <-].
  - destruct (p c) eqn:Hc.
    + destruct (Proxy.span p s) as [v1 r1]. intros [= <- <-].
      destruct (IH v1 r1 eq_refl) as (-> & Hv & Hr). sapp. simpl.
      by rewrite Hc.
    + intros [= <- <-]. simpl. by rewrite Hc.
Qed.

Lemma sapp_inv_head (a b c : string) : a +:+ b = a +:+ c → b = c.
Proof. induction a as [|x a IH]; sapp; [done|]. intros [= H]. by apply IH. Qed.

Lemma sapp_prefix (a b c d : string) :
  a +:+ b = c +:+ d → (String.length c <= String.length a)%nat →
  ∃ x, a = c +:+ x ∧ d = x +:+ b.
Proof.
  revert a. induction c as [|y c IH]; intros a; sapp.
  - intros H _. by exists a.
  - destruct a as [|x a]; simpl; [lia|]. sapp. intros [= -> H] Hlen.
    destruct (IH a H ltac:(lia)) as (z & -> & ->). by exists z.
Qed.

(** Append in right-nested form. *)
Ltac snorm := repeat rewrite ?sapp_assoc, ?sapp_cons, ?sapp_nil_l in *.

(** The leftmost match, when there is one. *)
Lemma FindStringSubmatch_Some {A} (re : string → option (A * string)) s c :
  Proxy.FindStringSubmatch re s = Some c →
  ∃ pre suf r, s = pre +:+ suf ∧ re suf = Some (c, r) ∧
    ∀ p1 p2, pre = p1 +:+ p2 → p2 ≠ "" → re (p2 +:+ suf) = None.
Proof.
  induction s as [|a s IH].
  - simpl. destruct (re "") as [[c0 r]|] eqn:Hre; [|done].
    intros [= ->]. exists "", "", r. split; [done|]. split; [done|].
    intros p1 p2 Hp Hne. destruct p1; [|done]. sapp. by subst.
  - cbn [Proxy.FindStringSubmatch].
    destruct (re (String a s)) as [[c0 r]|] eqn:Hre.
    + intros [= ->]. exists "", (String a s), r.
      split; [done|]. split; [done|].
      intros p1 p2 Hp Hne. destruct p1; [|done]. sapp. by subst.
    + intros (pre & suf & r & -> & Hsuf & Hpre)%IH.
      exists (String a pre), suf, r. split; [done|]. split; [done|].
      intros p1 p2 Hp Hne. destruct p1 as [|b p1]; sapp.
      * subst p2. by sapp.
      * injection Hp as -> ->. by apply (Hpre p1).
Qed.

(** No place before the end of [pre] where [field=] and a byte other
    than [&] stand, said of the text: such a place and its byte would
    lie within [pre] followed by [field=]. *)
Lemma field_before field pre v rest :
  v ≠ "" → all_bytes Proxy.not_amp v = true →
  ¬ has_field field (pre +:+ field +:+ "=") ↔
  ∀ p1 p2, pre = p1 +:+ p2 → p2 ≠ "" →
    Proxy.field_at field (p2 +:+ (field +:+ "=") +:+ v +:+ rest) = None.
Proof.
  intros Hne Hv. split.
  - intros Hno p1 p2 -> Hp2.
    destruct (Proxy.field_at field _) as [[v1 r1]|] eqn:Hat; [|done].
    exfalso. apply Hno.
    apply field_at_Some in Hat as (c & v' & -> & Hc & Heq).
    assert (Hx : (p2 +:+ field +:+ "=") +:+ (v +:+ rest)
                 = ((field +:+ "=") +:+ String c "") +:+ (v' +:+ r1)).
    { snorm. exact Heq. }
    apply sapp_prefix in Hx as (x & Hx & _).
    + exists p1, c, x. split; [|done].
      rewrite sapp_assoc, Hx. by snorm.
    + rewrite !length_sapp. destruct p2; [done|]. simpl. lia.
  - intros Hpre (p' & c & r' & Heq & Hc).
    assert (Hlen : (String.length p' < String.length pre)%nat).
    { apply (f_equal String.length) in Heq. rewrite !length_sapp in Heq.
      simpl in Heq. lia. }
    destruct (sapp_prefix pre (field +:+ "=") p'
                ((field +:+ "=") +:+ String c r')) as (p2 & -> & Hp2).
    { rewrite Heq. by snorm. }
    { lia. }
    assert (Hp2' : p2 ≠ "").
    { intros ->. rewrite length_sapp in Hlen. simpl in Hlen. lia. }
    pose proof (Hpre p' p2 eq_refl Hp2') as Hnone.
    destruct (field_at_start field c (r' +:+ v +:+ rest) Hc) as [y Hy].
    assert (Hsame : p2 +:+ (field +:+ "=") +:+ v +:+ rest
                    = field +:+ "=" +:+ String c (r' +:+ v +:+ rest)).
    { rewrite <- (sapp_assoc p2 (field +:+ "=")), <- Hp2. by snorm. }
    rewrite Hsame in Hnone. by rewrite Hnone in Hy.
Qed.

Lemma field_at_here field v rest :
  v ≠ "" → all_bytes Proxy.not_amp v = true →
  stops Proxy.not_amp rest = true →
  Proxy.field_at field ((field +:+ "=") +:+ v +:+ rest) = Some (v, rest).
Proof.
  intros Hne Hv Hrest. unfold Proxy.field_at. rewrite strip_prefix_app.
  unfold Proxy.plus. rewrite span_all by done. by destruct v.
Qed.

(** The capture of [field=([^&]+)] is the value at the leftmost place
    where [field=] and a byte other than [&] stand, up to the next [&]
    or the end of the body. *)
Lemma field_leftmost field pre v rest :
  ¬ has_field field (pre +:+ field +:+ "=") →
  v ≠ "" → all_bytes Proxy.not_amp v = true →
  stops Proxy.not_amp rest = true →
  Proxy.FindStringSubmatch (Proxy.field_at field)
    (pre +:+ (field +:+ "=") +:+ v +:+ rest) = Some v.
Proof.
  intros Hno Hne Hv Hrest.
  apply (FindStringSubmatch_first _ pre _ v rest).
  - by apply (field_before field pre v rest Hne Hv).
  - by apply field_at_here.
Qed.

(** Every body that has the field has such a leftmost place. *)
Lemma has_field_leftmost field body :
  has_field field body →
  ∃ pre v rest,
    body = pre +:+ (field +:+ "=") +:+ v +:+ rest ∧
    ¬ has_field field (pre +:+ field +:+ "=") ∧
    v ≠ "" ∧ all_bytes Proxy.not_amp v = true ∧
    stops Proxy.not_amp rest = true.
Proof.
  intros Hhas.
  destruct (Proxy.FindStringSubmatch (Proxy.field_at field) body) as [v|] eqn:Hf;
    [|by apply FindStringSubmatch_field_None in Hf].
  apply FindStringSubmatch_Some in Hf as (pre & suf & r & -> & Hat & Hpre).
  unfold Proxy.field_at in Hat.
  destruct (Proxy.strip_prefix (field +:+ "=") suf) as [r1|] eqn:Hp; [|done].
  apply strip_prefix_Some in Hp as ->.
  unfold Proxy.plus in Hat.
  destruct (Proxy.span Proxy.not_amp r1) as [v0 r0] eqn:Hspan.
  apply span_class in Hspan as (-> & Hv & Hstop).
  destruct v0 as [|c0 v0]; [done|]. injection Hat as <- <-.
  exists pre, (String c0 v0), r0. split; [done|].
  split; [|by repeat split].
  by apply (field_before field pre (String c0 v0) r0).
Qed.

(** ** The recording operations *)

Lemma current_state_alloc w (h' : list Message) s' c' t' m x :
  wf w →
  h' = heap w ++ x →
  messages s' = messages (store w) →
  current_state (mkWorld h' s' c' (clock w) t') m = current_state w m.
Proof.
  intros [Hm _] -> Hs. unfold current_state. simpl. rewrite Hs.
  destruct (messages (store w) !! m) as [p|] eqn:Hp; [|done].
  destruct (Hm m p Hp) as (c & Hc & _).
  rewrite Hc. by apply lookup_app_l_Some.
Qed.

(** C5: a delete whose receipt handle is not in the receipt index appends
    one Delete event with blank message id and body to the history, does
    not fail, and leaves the current-state table, every current-state
    entry, every membership set and the receipt index as they were. *)
Theorem C5_record_delete_unknown_handle u q rh (w : World) :
  reachable w →
  receipts (store w) !! rh = None →
  ∃ w' event,
    RecordDelete u q rh w = Some (tt, w') ∧
    history (store w') = history (store w) ++ [length (heap w)] ∧
    heap w' = heap w ++ [event] ∧
    Action event = ActionDelete ∧ MessageID event = "" ∧ Body event = "" ∧
    ReceiptHandle event = rh ∧ QueueURL event = u ∧ QueueName event = q ∧
    messages (store w') = messages (store w) ∧
    (∀ m, current_state w' m = current_state w m) ∧
    queues (store w') = queues (store w) ∧
    receipts (store w') = receipts (store w).
Proof.
  intros Hw%reachable_wf Hr. eexists _, _.
  split; [by apply RecordDelete_miss|]. simpl.
  repeat split. intros m. by eapply current_state_alloc.
Qed.

Lemma C5_record_delete_unknown_handle_witness :
  let w := after sample_calls in
  reachable w ∧
  receipts (store w) !! "unknown-handle" = None ∧
  ∃ w' event,
    RecordDelete sample_url "q1" "unknown-handle" w = Some (tt, w') ∧
    history (store w') = history (store w) ++ [length (heap w)] ∧
    heap w' = heap w ++ [event] ∧
    Action event = ActionDelete ∧ MessageID event = "" ∧ Body event = "" ∧
    ReceiptHandle event = "unknown-handle" ∧
    QueueURL event = sample_url ∧ QueueName event = "q1" ∧
    messages (store w') = messages (store w) ∧
    (∀ m, current_state w' m = current_state w m) ∧
    queues (store w') = queues (store w) ∧
    receipts (store w') = receipts (store w).
Proof.
  intros w.
  assert (Hr : reachable w) by apply reachable_after.
  assert (Hm : receipts (store w) !! "unknown-handle" = None)
    by (vm_compute; reflexivity).
  split; [exact Hr|]. split; [exact Hm|].
  exact (C5_record_delete_unknown_handle sample_url "q1" "unknown-handle"
           w Hr Hm).
Defined.

(** C10: a receive of a message id that already has a current-state entry
    leaves that entry (and the whole current-state table and every
    membership set) as it was; the history gains one Receive event and the
    receipt index maps the receipt handle to the message id. *)
Theorem C10_record_receive_known_frame u q m rh b a (w : World) :
  reachable w →
  is_Some (messages (store w) !! m) →
  ∃ w' event,
    RecordReceive u q m rh b a w = Some (tt, w') ∧
    messages (store w') = messages (store w) ∧
    (∀ k, current_state w' k = current_state w k) ∧
    queues (store w') = queues (store w) ∧
    heap w' = heap w ++ [event] ∧
    history (store w') = history (store w) ++ [length (heap w)] ∧
    Action event = ActionReceive ∧ MessageID event = m ∧
    ReceiptHandle event = rh ∧
    receipts (store w') = <[rh := m]> (receipts (store w)).
Proof.
  intros Hw%reachable_wf [p Hp]. eexists _, _.
  split; [by apply (RecordReceive_known _ _ _ _ _ _ _ p)|]. simpl.
  repeat split. intros k. by eapply current_state_alloc.
Qed.

Lemma C10_record_receive_known_frame_witness :
  let w := after sample_calls in
  reachable w ∧
  is_Some (messages (store w) !! "m1") ∧
  ∃ w' event,
    RecordReceive sample_url "q1" "m1" "rh2" "changed" ∅ w = Some (tt, w') ∧
    messages (store w') = messages (store w) ∧
    (∀ k, current_state w' k = current_state w k) ∧
    queues (store w') = queues (store w) ∧
    heap w' = heap w ++ [event] ∧
    history (store w') = history (store w) ++ [length (heap w)] ∧
    Action event = ActionReceive ∧ MessageID event = "m1" ∧
    ReceiptHandle event = "rh2" ∧
    receipts (store w') = <[("rh2" : string) := ("m1" : string)]> (receipts (store w)).
Proof.
  intros w.
  assert (Hr : reachable w) by apply reachable_after.
  assert (Hm : is_Some (messages (store w) !! "m1"))
    by (exists 0%nat; vm_compute; reflexivity).
  split; [exact Hr|]. split; [exact Hm|].
  exact (C10_record_receive_known_frame sample_url "q1" "m1" "rh2" "changed"
           ∅ w Hr Hm).
Defined.

(** C4: a receive appends exactly one Receive event to the history and
    maps the receipt handle to the message id whatever the index held for
    it before; when the message id has no current-state entry, one is
    created and the id joins the membership set of the queue; when it has
    one, the current-state table and the membership sets do not change. *)
Theorem C4_record_receive u q m rh b a (w : World) :
  ∃ w' event,
    RecordReceive u q m rh b a w = Some (tt, w') ∧
    history (store w') = history (store w) ++ [length (heap w)] ∧
    heap w' !! length (heap w) = Some event ∧
    event = received (ID event) (Timestamp event) u q m rh b a ∧
    receipts (store w') = <[rh := m]> (receipts (store w)) ∧
    receipts (store w') !! rh = Some m ∧
    (messages (store w) !! m = None →
       ∃ entry,
         messages (store w') = <[m := S (length (heap w))]> (messages (store w)) ∧
         current_state w' m = Some entry ∧
         entry = received (ID event) (Timestamp entry) u q m rh b a ∧
         members w' q = {[m]} ∪ members w q ∧
         (∀ q', q' ≠ q → members w' q' = members w q')) ∧
    (is_Some (messages (store w) !! m) →
       messages (store w') = messages (store w) ∧
       queues (store w') = queues (store w)).
Proof.
  destruct (messages (store w) !! m) as [p|] eqn:Hp.
  - eexists _, _. split; [by apply (RecordReceive_known _ _ _ _ _ _ _ p)|].
    simpl. split; [done|]. split; [apply load_new|]. split; [done|].
    split; [done|]. split; [apply lookup_insert_eq|]. split; [done|].
    by intros _.
  - eexists _, _. split; [by apply RecordReceive_fresh|].
    simpl. split; [done|].
    split; [apply lookup_app_l_Some, load_new|]. split; [done|].
    split; [done|]. split; [apply lookup_insert_eq|].
    split; [|by intros [? [=]]].
    intros _. eexists. split; [done|]. unfold current_state, members. simpl.
    rewrite lookup_insert_eq.
    replace (S (length (heap w))) with (length (heap w ++
      [received (next_id w (ticks w)) (clock w (S (ticks w))) u q m rh b a]))
      by (rewrite length_app; simpl; lia).
    rewrite load_new. split; [done|]. split; [done|].
    split.
    + rewrite add_member_lookup. by rewrite decide_True.
    + intros q' Hne. rewrite add_member_lookup. by rewrite decide_False.
Qed.

(** C3: a send allocates one Send event, files it as the current state of
    its message id (replacing what was there), adds the id to the
    membership set of the queue and appends the event to the history;
    afterwards the non-deleted messages of that queue hold exactly one
    entry with this message id, and it has the body sent and is not
    deleted.  The code does not need the message id to be non-empty. *)
Theorem C3_record_send u q m b a (w : World) :
  reachable w →
  ∃ w' event,
    RecordSend u q m b a w = Some (tt, w') ∧
    heap w' = heap w ++ [event] ∧
    event = sent (ID event) (Timestamp event) u q m b a ∧
    messages (store w') = <[m := length (heap w)]> (messages (store w)) ∧
    current_state w' m = Some event ∧
    members w' q = {[m]} ∪ members w q ∧
    history (store w') = history (store w) ++ [length (heap w)] ∧
    ∃ l1 l2,
      GetMessages q false w' = Some (l1 ++ length (heap w) :: l2, w') ∧
      heap w' !! length (heap w) = Some event ∧
      ∀ p c, p ∈ l1 ++ l2 → heap w' !! p = Some c → MessageID c ≠ m.
Proof.
  intros Hw%reachable_wf.
  pose proof (RecordSend_step u q m b a w) as Hstep.
  pose proof (wf_RecordSend _ _ _ _ _ _ _ Hw Hstep) as [Hm' Hh'].
  eexists _, _. split; [exact Hstep|].
  simpl in *. split; [done|]. split; [done|]. split; [done|].
  split; [unfold current_state; simpl; by rewrite lookup_insert_eq, load_new|].
  split; [unfold members; simpl; rewrite add_member_lookup;
          by rewrite decide_True|].
  split; [done|].
  set (w' := mkWorld _ _ _ _ _) in *.
  set (ms' := <[m := length (heap w)]> (messages (store w))) in *.
  assert (Hin : (m, length (heap w)) ∈ map_to_list ms')
    by (apply elem_of_map_to_list, lookup_insert_eq).
  destruct (list_elem_of_split _ _ Hin) as (e1 & e2 & Hsplit).
  pose proof (NoDup_fst_map_to_list ms') as Hnd. rewrite Hsplit in Hnd.
  rewrite fmap_app, fmap_cons in Hnd. simpl in Hnd.
  apply NoDup_app in Hnd as (_ & Hne1 & Hnd2).
  apply NoDup_cons in Hnd2 as [Hne2 _].
  exists (List.filter (shown w' q false) e1).*2,
         (List.filter (shown w' q false) e2).*2.
  split.
  - unfold GetMessages, mbind, M_bind, getStore. simpl. fold ms'.
    rewrite GetMessages_loop_spec.
    + rewrite Hsplit. simpl. rewrite List.filter_app. simpl.
      assert (Hs : shown w' q false (m, length (heap w)) = true).
      { unfold shown. simpl. rewrite load_new. unfold visible. simpl.
        destruct (bool_decide (q ≠ "")); simpl; [|done].
        by rewrite bool_decide_false by (intros ?; done). }
      rewrite Hs. by rewrite fmap_app.
    + intros [k p] He%elem_of_map_to_list. simpl.
      destruct (Hm' k p He) as (c & Hc & _). by exists c.
  - split; [apply load_new|]. intros p c Hp Hc Hid.
    assert (Hk : ∃ k, (k, p) ∈ e1 ++ e2).
    { apply elem_of_app in Hp as [Hp|Hp]; apply shown_elem in Hp as [k Hk];
        exists k; apply elem_of_app; auto. }
    destruct Hk as [k Hk].
    assert (Hlk : ms' !! k = Some p).
    { apply elem_of_map_to_list. rewrite Hsplit.
      apply elem_of_app in Hk as [Hk|Hk]; apply elem_of_app;
        [by left | right; by right]. }
    destruct (Hm' k p Hlk) as (c' & Hc' & Hid').
    assert (Hkm : k = m) by congruence. rewrite Hkm in Hk.
    apply elem_of_app in Hk as [Hk|Hk].
    + apply (Hne1 m); [|by left].
      apply list_elem_of_fmap. by exists (m, p).
    + apply Hne2. apply list_elem_of_fmap. by exists (m, p).
Qed.

Lemma C3_record_send_witness :
  let w := after [CallSend sample_url "q0" "m0" "old" ∅] in
  reachable w ∧
  ∃ w' event,
    RecordSend sample_url "q1" "m1" "hi" ∅ w = Some (tt, w') ∧
    heap w' = heap w ++ [event] ∧
    event = sent (ID event) (Timestamp event) sample_url "q1" "m1" "hi" ∅ ∧
    messages (store w') = <[("m1" : string) := length (heap w)]> (messages (store w)) ∧
    current_state w' "m1" = Some event ∧
    members w' "q1" = {[("m1" : string)]} ∪ members w "q1" ∧
    history (store w') = history (store w) ++ [length (heap w)] ∧
    ∃ l1 l2,
      GetMessages "q1" false w' = Some (l1 ++ length (heap w) :: l2, w') ∧
      heap w' !! length (heap w) = Some event ∧
      ∀ p c, p ∈ l1 ++ l2 → heap w' !! p = Some c → MessageID c ≠ "m1".
Proof.
  intros w.
  assert (Hr : reachable w) by apply reachable_after.
  split; [exact Hr|].
  exact (C3_record_send sample_url "q1" "m1" "hi" ∅ w Hr).
Defined.

(** C1, as the code has it: once the current-state entry of a message id
    is deleted, it stays the same entry and stays deleted through every
    sequence of receives, deletes and sends of other message ids; only a
    send of the same message id (which replaces the entry by a fresh one)
    or a clear ends this. *)
Theorem C1_deleted_flag_kept m cs (w : World) cell :
  reachable w →
  current_state w m = Some cell →
  Deleted cell = true →
  Forall (keeps_entry m) cs →
  ∃ w' cell',
    run cs w = Some (tt, w') ∧
    messages (store w') !! m = messages (store w) !! m ∧
    current_state w' m = Some cell' ∧
    Deleted cell' = true.
Proof.
  intros Hw%reachable_wf Hcur Hd Hcs. unfold current_state in Hcur.
  destruct (messages (store w) !! m) as [p|] eqn:Hp; [|done].
  destruct (run_keeps_deleted m cs w p cell Hw Hcs Hp Hcur Hd)
    as (w' & cell' & Hrun & _ & Hm' & Hcell' & Hd').
  exists w', cell'. split; [done|]. split; [done|].
  unfold current_state. by rewrite Hm'.
Qed.

(** C1 as stated fails: after a send, a receive and the delete of the
    message, the entry of "m1" is deleted; one more send of "m1" files a
    fresh entry, which is not. *)
Lemma C1_send_resets_deleted_flag :
  let cs := sample_calls ++ [CallDelete sample_url "q1" "rh1"] in
  let again := CallSend sample_url "q1" "m1" "again" ∅ in
  reachable (after cs) ∧
  (Deleted <$> current_state (after cs) "m1") = Some true ∧
  run [again] (after cs) = Some (tt, after (cs ++ [again])) ∧
  (Deleted <$> current_state (after (cs ++ [again])) "m1") = Some false.
Proof.
  intros cs again. split; [apply reachable_after|].
  split; [vm_compute; reflexivity|].
  split; [|vm_compute; reflexivity].
  rewrite <- (run_app cs [again] (initial noon) (after cs) (run_after cs)).
  apply run_after.
Qed.

Lemma C1_deleted_flag_kept_witness :
  let w := after (sample_calls ++ [CallDelete sample_url "q1" "rh1"]) in
  let cs := [CallReceive sample_url "q1" "m1" "rh2" "hi" ∅;
             CallSend sample_url "q1" "m2" "other" ∅;
             CallDelete sample_url "q1" "rh2"] in
  ∃ cell,
    reachable w ∧
    current_state w "m1" = Some cell ∧
    Deleted cell = true ∧
    Forall (keeps_entry "m1") cs ∧
    ∃ w' cell',
      run cs w = Some (tt, w') ∧
      messages (store w') !! "m1" = messages (store w) !! "m1" ∧
      current_state w' "m1" = Some cell' ∧
      Deleted cell' = true.
Proof.
  intros w cs.
  assert (Hr : reachable w) by apply reachable_after.
  destruct (current_state w "m1") as [cell|] eqn:Hcur;
    [|vm_compute in Hcur; discriminate].
  assert (Hd : Deleted cell = true).
  { vm_compute in Hcur. injection Hcur as <-. reflexivity. }
  assert (Hk : Forall (keeps_entry "m1") cs).
  { repeat constructor. simpl. discriminate. }
  exists cell. split; [exact Hr|]. split; [reflexivity|].
  split; [exact Hd|]. split; [exact Hk|].
  exact (C1_deleted_flag_kept "m1" cs w cell Hr Hcur Hd Hk).
Defined.

(** C6: [GetHistory 0] returns the whole history, the last appended event
    first; for [0 < k < N] the result is the [k] most recently appended
    events, the last appended first; a limit that is not positive or
    exceeds the length returns the whole history. *)
Theorem C6_get_history (w : World) (k : Z) :
  let h := history (store w) in
  let N := length h in
  (GetHistory 0 w = Some (reverse h, w) ∧ length (reverse h) = N) ∧
  (0 < k < Z.of_nat N →
     GetHistory k w = Some (reverse (drop (N - Z.to_nat k) h), w) ∧
     length (reverse (drop (N - Z.to_nat k) h)) = Z.to_nat k) ∧
  (k <= 0 ∨ Z.of_nat N < k → GetHistory k w = Some (reverse h, w)).
Proof.
  intros h N. split; [|split].
  - split; [|apply length_reverse].
    rewrite GetHistory_take. simpl. fold h. rewrite take_ge; [done|].
    rewrite length_reverse. lia.
  - intros Hk. rewrite GetHistory_take. fold h. fold N.
    replace ((k <=? 0) || (Z.of_nat N <? k)) with false
      by (symmetry; apply orb_false_iff; split; lia).
    rewrite take_reverse. fold N. split; [done|].
    rewrite length_reverse, length_drop. fold N. lia.
  - intros Hk. rewrite GetHistory_take. fold h. fold N.
    replace ((k <=? 0) || (Z.of_nat N <? k)) with true
      by (symmetry; apply orb_true_iff; lia).
    rewrite take_ge; [done|]. rewrite length_reverse. fold N. lia.
Qed.

Lemma C6_get_history_witness :
  let w := after (sample_calls ++ [CallDelete sample_url "q1" "rh1"]) in
  history (store w) = [0; 1; 2]%nat ∧
  GetHistory 0 w = Some ([2; 1; 0]%nat, w) ∧
  GetHistory 2 w = Some ([2; 1]%nat, w) ∧
  GetHistory (-1) w = Some ([2; 1; 0]%nat, w) ∧
  GetHistory 7 w = Some ([2; 1; 0]%nat, w).
Proof.
  intros w.
  assert (Hh : history (store w) = [0; 1; 2]%nat) by (vm_compute; reflexivity).
  pose proof (C6_get_history w 2) as [[H0 _] [H2 _]].
  pose proof (C6_get_history w (-1)) as [_ [_ Hneg]].
  pose proof (C6_get_history w 7) as [_ [_ Hbig]].
  clearbody w. rewrite Hh in H0, H2, Hneg, Hbig.
  split; [exact Hh|]. split; [exact H0|].
  split; [apply H2; simpl; lia|].
  split; [apply Hneg; lia | apply Hbig; simpl; lia].
Defined.


(** C7, as the code has it: [GetQueueStats] returns one entry per queue
    name that occurs in a history event and no other; its totals are the
    numbers of history events of each kind for that queue name; its
    pending is the number of message ids in the membership set of the
    queue whose current-state entry is not deleted. *)
Theorem C7_queue_stats (w : World) :
  reachable w →
  ∃ l,
    GetQueueStats w = Some (l, w) ∧
    length (events w) = length (history (store w)) ∧
    NoDup (qsQueueName <$> l) ∧
    (∀ q, q ∈ qsQueueName <$> l ↔ ∃ e, e ∈ events w ∧ QueueName e = q) ∧
    ∀ st, st ∈ l →
      TotalSent st = count_kind (events w) (qsQueueName st) ActionSend ∧
      TotalReceived st = count_kind (events w) (qsQueueName st) ActionReceive ∧
      TotalDeleted st = count_kind (events w) (qsQueueName st) ActionDelete ∧
      Pending st = pending_members w (qsQueueName st).
Proof.
  intros Hw%reachable_wf.
  destruct (GetQueueStats_map w Hw) as (stats & Hrun & Hst).
  exists (map_to_list stats).*2. split; [exact Hrun|].
  split; [apply (count_events_spec _ ∅ w (wf_history _ Hw))|].
  assert (Hname : ∀ q st, stats !! q = Some st → qsQueueName st = q).
  { intros q st Hq. specialize (Hst q). rewrite Hq in Hst. tauto. }
  assert (Hkeys : qsQueueName <$> (map_to_list stats).*2
                  = (map_to_list stats).*1).
  { rewrite <- list_fmap_compose. apply list_fmap_ext.
    intros i [q st] Hin%list_elem_of_lookup_2%elem_of_map_to_list.
    simpl. by apply Hname. }
  split; [rewrite Hkeys; apply NoDup_fst_map_to_list|].
  split.
  - intros q. rewrite Hkeys. specialize (Hst q). split.
    + intros ([q' st] & -> & Hin%elem_of_map_to_list)%list_elem_of_fmap.
      simpl in *. rewrite Hin in Hst. tauto.
    + intros (e & He & Hq). destruct (stats !! q) as [st|] eqn:Hlk.
      * apply list_elem_of_fmap. exists (q, st).
        split; [done | by apply elem_of_map_to_list].
      * by destruct (Hst e He).
  - intros st ([q st'] & -> & Hin%elem_of_map_to_list)%list_elem_of_fmap.
    simpl. specialize (Hst q). rewrite Hin in Hst.
    destruct Hst as (_ & -> & Hs & Hr & Hd & Hp). done.
Qed.

(** C7 as stated fails: "m1" is sent to "q1" and then to "q2".  Its one
    current-state entry then names "q2", so no current-state entry names
    "q1"; the membership set of "q1" still holds "m1", and the entry for
    "q1" reports one pending message. *)
Lemma C7_pending_counts_members :
  let w := after two_queues in
  reachable w ∧
  (QueueName <$> current_state w "m1") = Some "q2" ∧
  pending_by_queue_name w "q1" = 0 ∧
  ∃ l st,
    GetQueueStats w = Some (l, w) ∧ st ∈ l ∧
    qsQueueName st = "q1" ∧ Pending st = 1 ∧
    Pending st ≠ pending_by_queue_name w (qsQueueName st).
Proof.
  intros w. split; [apply reachable_after|].
  split; [vm_compute; reflexivity|].
  split; [vm_compute; reflexivity|].
  destruct (GetQueueStats w) as [[l w']|] eqn:Hg;
    [|vm_compute in Hg; discriminate].
  assert (Hl : (filter (λ st, qsQueueName st = "q1") l) =
               [mkQueueStats "q1" "http://x/q1" 1 0 0 1]).
  { vm_compute in Hg. injection Hg as <- _. vm_compute. reflexivity. }
  exists l, (mkQueueStats "q1" "http://x/q1" 1 0 0 1).
  assert (Hin : mkQueueStats "q1" "http://x/q1" 1 0 0 1
                ∈ filter (λ st, qsQueueName st = "q1") l)
    by (rewrite Hl; by left).
  apply list_elem_of_filter in Hin as [_ Hin].
  split.
  - f_equal. f_equal. vm_compute in Hg. injection Hg as _ <-. reflexivity.
  - split; [exact Hin|]. split; [reflexivity|]. split; [reflexivity|].
    simpl. vm_compute. discriminate.
Qed.

Lemma C7_queue_stats_witness :
  let w := after (sample_calls ++ [CallDelete sample_url "q1" "rh1"]) in
  reachable w ∧
  ∃ l,
    GetQueueStats w = Some (l, w) ∧
    length (events w) = length (history (store w)) ∧
    NoDup (qsQueueName <$> l) ∧
    (∀ q, q ∈ qsQueueName <$> l ↔ ∃ e, e ∈ events w ∧ QueueName e = q) ∧
    ∀ st, st ∈ l →
      TotalSent st = count_kind (events w) (qsQueueName st) ActionSend ∧
      TotalReceived st = count_kind (events w) (qsQueueName st) ActionReceive ∧
      TotalDeleted st = count_kind (events w) (qsQueueName st) ActionDelete ∧
      Pending st = pending_members w (qsQueueName st).
Proof.
  intros w.
  assert (Hr : reachable w) by apply reachable_after.
  split; [exact Hr|]. exact (C7_queue_stats w Hr).
Defined.

(** The statistics of the specification's example: three sends, two
    receives and one resolved delete on "q1". *)
Example stats_three_two_one :
  let w := after [CallSend sample_url "q1" "m1" "a" ∅;
                  CallSend sample_url "q1" "m2" "b" ∅;
                  CallSend sample_url "q1" "m3" "c" ∅;
                  CallReceive sample_url "q1" "m1" "rh1" "a" ∅;
                  CallReceive sample_url "q1" "m2" "rh2" "b" ∅;
                  CallDelete sample_url "q1" "rh1"] in
  fst <$> GetQueueStats w = Some [mkQueueStats "q1" sample_url 3 2 1 2].
Proof. vm_compute. reflexivity. Qed.

(** C2 on the code: identifiers are not unique and not increasing.  After
    55295 recorded events, the next two events, recorded within one
    second, get the same identifier (the counter values 55296 and 55297
    are surrogate code points, and both convert to U+FFFD); after 57342
    events, the identifier of the second of the next two events is the
    smaller one in byte order. *)
Theorem C2_generated_ids_collide :
  (let w := after (busy 55295) in
   reachable w ∧ idCounter w = 55295 ∧
   ∃ w' e1 e2,
     run two_sends w = Some (tt, w') ∧
     heap w' = heap w ++ [e1; e2] ∧
     MessageID e1 = "a" ∧ MessageID e2 = "b" ∧
     ID e1 = ID e2) ∧
  (let w := after (busy 57342) in
   reachable w ∧ idCounter w = 57342 ∧
   ∃ w' e1 e2,
     run two_sends w = Some (tt, w') ∧
     heap w' = heap w ++ [e1; e2] ∧
     MessageID e1 = "a" ∧ MessageID e2 = "b" ∧
     string_lt (ID e2) (ID e1) = true).
Proof.
  split; intros w.
  - destruct (after_busy 55295) as [Hcnt Hclk]; [lia|].
    fold w in Hcnt, Hclk.
    assert (Hr : reachable w) by apply reachable_after.
    clearbody w.
    split; [exact Hr|]. split; [exact Hcnt|].
    destruct (two_sends_step w) as (w' & Hrun & Hheap).
    eexists w', _, _. split; [exact Hrun|]. split; [exact Hheap|].
    split; [done|]. split; [done|]. cbn [ID sent].
    rewrite Hcnt, Hclk. vm_compute. reflexivity.
  - destruct (after_busy 57342) as [Hcnt Hclk]; [lia|].
    fold w in Hcnt, Hclk.
    assert (Hr : reachable w) by apply reachable_after.
    clearbody w.
    split; [exact Hr|]. split; [exact Hcnt|].
    destruct (two_sends_step w) as (w' & Hrun & Hheap).
    eexists w', _, _. split; [exact Hrun|]. split; [exact Hheap|].
    split; [done|]. split; [done|]. cbn [ID sent].
    rewrite Hcnt, Hclk. vm_compute. reflexivity.
Qed.

(** The identifiers of the first events, for comparison: distinct and
    increasing. *)
Example first_ids :
  ID <$> events (after two_sends) =
    ["20240102030405-" +:+ String (Go.byte 1) "";
     "20240102030405-" +:+ String (Go.byte 2) ""].
Proof. vm_compute. reflexivity. Qed.

(** The example of the specification: after the send of "m1" to "q1" on
    an empty store, the visible messages of "q1" are that one message. *)
Example send_then_messages :
  let w := after [CallSend sample_url "q1" "m1" "hi" ∅] in
  (λ r, (λ c, (MessageID c, Body c, Deleted c)) <$> deref w r.1)
    <$> GetMessages "q1" false w
  = Some [("m1", "hi", false)].
Proof. vm_compute. reflexivity. Qed.

(** The Send event in the history and the current-state entry are one
    message: the resolved delete marks both. *)
Example send_event_is_current_state :
  let w := after (sample_calls ++ [CallDelete sample_url "q1" "rh1"]) in
  messages (store w) !! "m1" = Some 0%nat ∧
  history (store w) = [0; 1; 2]%nat ∧
  (λ c, (Action c, Deleted c)) <$> events w
  = [(ActionSend, true); (ActionReceive, false); (ActionDelete, false)] ∧
  Body <$> events w = ["hi"; "hi"; "hi"].
Proof. vm_compute. done. Qed.

(** C8, as the code has it.  The header yields the action only under the
    namespace [AmazonSQS]; otherwise, whatever the encoding, the action
    is the capture of the leftmost [Action=([^&]+)] in the request body:
    the bytes up to the next [&], or to the end of the body, that follow
    the leftmost place where [Action=] and a byte other than [&] stand,
    wherever that place is in the body (so the value of the [Action]
    field when the body starts with it); every body that has such a
    place is of this form; when the body has none, the action is
    "Unknown", for which no handler is called. *)
Theorem C8_action_identification (amzTarget reqBody : string) :
  (∀ action, action ≠ "" → amzTarget = "AmazonSQS." +:+ action →
     Proxy.action_of amzTarget reqBody = action) ∧
  (Proxy.HasPrefix amzTarget "AmazonSQS." = false ∨ amzTarget = "AmazonSQS." →
     Proxy.action_of amzTarget reqBody = Proxy.parseActionFromForm reqBody) ∧
  (∀ v rest, v ≠ "" → all_bytes Proxy.not_amp v = true →
     stops Proxy.not_amp rest = true →
     Proxy.parseActionFromForm ("Action=" +:+ v +:+ rest) = v) ∧
  (∀ pre v rest,
     ¬ has_action_field (pre +:+ "Action=") →
     v ≠ "" → all_bytes Proxy.not_amp v = true →
     stops Proxy.not_amp rest = true →
     Proxy.parseActionFromForm (pre +:+ "Action=" +:+ v +:+ rest) = v) ∧
  (has_action_field reqBody →
     ∃ pre v rest,
       reqBody = pre +:+ "Action=" +:+ v +:+ rest ∧
       ¬ has_action_field (pre +:+ "Action=") ∧
       v ≠ "" ∧ all_bytes Proxy.not_amp v = true ∧
       stops Proxy.not_amp rest = true ∧
       Proxy.parseActionFromForm reqBody = v) ∧
  (Proxy.HasPrefix amzTarget "AmazonSQS." = false ∨ amzTarget = "AmazonSQS." →
   ¬ has_action_field reqBody →
     Proxy.action_of amzTarget reqBody = "Unknown" ∧
     Proxy.modifyResponse_handler amzTarget reqBody = None).
Proof.
  assert (Hform : Proxy.HasPrefix amzTarget "AmazonSQS." = false
                  ∨ amzTarget = "AmazonSQS." →
            Proxy.action_of amzTarget reqBody
            = Proxy.parseActionFromForm reqBody).
  { unfold Proxy.action_of. intros [Hp| ->].
    - unfold Proxy.parseActionFromTarget. by rewrite Hp.
    - reflexivity. }
  assert (Hleft : ∀ pre v rest,
            ¬ has_action_field (pre +:+ "Action=") →
            v ≠ "" → all_bytes Proxy.not_amp v = true →
            stops Proxy.not_amp rest = true →
            Proxy.parseActionFromForm (pre +:+ "Action=" +:+ v +:+ rest) = v).
  { intros pre v rest Hno Hne Hv Hrest. unfold Proxy.parseActionFromForm.
    assert (H : Proxy.FindStringSubmatch (Proxy.field_at "Action")
                  (pre +:+ "Action=" +:+ v +:+ rest) = Some v)
      by exact (field_leftmost "Action" pre v rest Hno Hne Hv Hrest).
    by rewrite H. }
  split; [|split; [exact Hform|split; [|split; [exact Hleft|split]]]].
  - intros action Hne ->. unfold Proxy.action_of.
    rewrite parseActionFromTarget_AmazonSQS. by rewrite bool_decide_false.
  - apply parseActionFromForm_first.
  - intros Hhas.
    destruct (has_field_leftmost "Action" reqBody Hhas)
      as (pre & v & rest & Hb & Hno & Hne & Hv & Hrest).
    exists pre, v, rest. split; [exact Hb|]. split; [exact Hno|].
    split; [exact Hne|]. split; [exact Hv|]. split; [exact Hrest|].
    rewrite Hb. by apply Hleft.
  - intros Ht Hno. unfold Proxy.modifyResponse_handler. rewrite (Hform Ht).
    apply FindStringSubmatch_None_iff in Hno.
    unfold Proxy.parseActionFromForm. by rewrite Hno.
Qed.

(** C8 as stated fails for a namespace other than [AmazonSQS]: under the
    header "Other.SendMessage" the action is not "SendMessage". *)
Lemma C8_other_namespace_ignored :
  let amzTarget := "Other" +:+ "." +:+ "SendMessage" in
  Proxy.action_of amzTarget json_empty = "Unknown" ∧
  Proxy.action_of amzTarget json_empty ≠ "SendMessage" ∧
  Proxy.modifyResponse_handler amzTarget json_empty = None ∧
  Proxy.modifyResponse_handler ("AmazonSQS" +:+ "." +:+ "SendMessage") json_empty
    = Some Proxy.handleSendMessage.
Proof. vm_compute. repeat split; discriminate. Qed.

Lemma C8_action_identification_witness :
  Proxy.action_of "AmazonSQS.DeleteMessage" form_send = "DeleteMessage" ∧
  Proxy.action_of "" form_send = "SendMessage" ∧
  Proxy.parseActionFromForm ("Action=" +:+ "SendMessage" +:+ "&QueueUrl=u")
    = "SendMessage" ∧
  ¬ has_action_field ("QueueUrl=u&Version=1&" +:+ "Action=") ∧
  Proxy.action_of ""
    ("QueueUrl=u&Version=1&" +:+ "Action=" +:+ "DeleteMessage"
       +:+ "&ReceiptHandle=rh") = "DeleteMessage" ∧
  ¬ has_action_field json_empty ∧
  Proxy.action_of "" json_empty = "Unknown" ∧
  Proxy.modifyResponse_handler "" json_empty = None.
Proof.
  pose proof (C8_action_identification "AmazonSQS.DeleteMessage" form_send)
    as (H1 & _).
  pose proof (C8_action_identification "" form_send) as (_ & H2 & H3 & _).
  pose proof (C8_action_identification ""
                ("QueueUrl=u&Version=1&" +:+ "Action=" +:+ "DeleteMessage"
                   +:+ "&ReceiptHandle=rh")) as (_ & H5 & _ & H6 & _).
  pose proof (C8_action_identification "" json_empty)
    as (_ & _ & _ & _ & _ & H4).
  split; [exact (H1 "DeleteMessage" ltac:(discriminate) eq_refl)|]. split.
  - rewrite H2 by (left; reflexivity).
    exact (H3 "SendMessage" "&QueueUrl=http%3A%2F%2Fx%2Fq1&MessageBody=hi"
             ltac:(discriminate) eq_refl eq_refl).
  - split; [exact (H3 "SendMessage" "&QueueUrl=u" ltac:(discriminate)
                     eq_refl eq_refl)|].
    assert (Hbefore : ¬ has_action_field ("QueueUrl=u&Version=1&" +:+ "Action="))
      by (apply FindStringSubmatch_None_iff; vm_compute; reflexivity).
    split; [exact Hbefore|].
    split; [rewrite H5 by (left; reflexivity);
            exact (H6 "QueueUrl=u&Version=1&" "DeleteMessage"
                     "&ReceiptHandle=rh" Hbefore ltac:(discriminate)
                     eq_refl eq_refl)|].
    assert (Hno : ¬ has_action_field json_empty)
      by (apply FindStringSubmatch_None_iff; vm_compute; reflexivity).
    split; [exact Hno|]. apply H4; [left; reflexivity | exact Hno].
Defined.

(** C9, as the code has it.  An index has the name, and the value, of
    its last match in the body, percent-decoded.  The Form branch returns
    a map (one for every order of its last loop); every entry of it is
    [name -> value] for an index that has both a name and a value; every
    such index has an entry under its name; and the value of that entry
    is the index's own whenever the other complete indices with the same
    name agree on it (so always, when names are not repeated).  Indices
    are correlated as map keys: neither their order in the body nor gaps
    matter. *)
Theorem C9_form_attributes (body : string) :
  (∀ idx n, Proxy.names_of body !! idx = Some n ↔
     ∃ l1 v l2,
       Proxy.FindAllStringSubmatch (Proxy.attribute_at ".Name=") body
         = l1 ++ ((idx, v) :: l2) ∧
       (idx ∉ l2.*1) ∧ n = Proxy.unescaped v) ∧
  (∀ idx val, Proxy.values_of body !! idx = Some val ↔
     ∃ l1 v l2,
       Proxy.FindAllStringSubmatch
         (Proxy.attribute_at ".Value.StringValue=") body
         = l1 ++ ((idx, v) :: l2) ∧
       (idx ∉ l2.*1) ∧ val = Proxy.unescaped v) ∧
  Proxy.extractMessageAttributes_form body
    (Proxy.extractMessageAttributes_form_run body) ∧
  ∀ attrs, Proxy.extractMessageAttributes_form body attrs →
    (∀ n v, attrs !! n = Some v →
       ∃ idx, Proxy.names_of body !! idx = Some n ∧
              Proxy.values_of body !! idx = Some v) ∧
    (∀ idx n v,
       Proxy.names_of body !! idx = Some n →
       Proxy.values_of body !! idx = Some v →
       is_Some (attrs !! n) ∧
       ((∀ idx' v', Proxy.names_of body !! idx' = Some n →
                    Proxy.values_of body !! idx' = Some v' → v' = v) →
        attrs !! n = Some v)).
Proof.
  split; [intros idx n; apply collect_lookup|].
  split; [intros idx val; apply collect_lookup|].
  split; [by exists (map_to_list (Proxy.names_of body))|].
  intros attrs (order & Hperm & ->).
  assert (Hin : ∀ idx n, (idx, n) ∈ order ↔ Proxy.names_of body !! idx = Some n).
  { intros idx n. rewrite Hperm. apply elem_of_map_to_list. }
  assert (Hsound : ∀ n v,
            Proxy.correlate (Proxy.values_of body) order !! n = Some v →
            ∃ idx, Proxy.names_of body !! idx = Some n ∧
                   Proxy.values_of body !! idx = Some v).
  { intros n v Hlk. unfold Proxy.correlate in Hlk.
    apply foldl_step_sound in Hlk as [Hlk | (idx & Ho & Hv)].
    - by rewrite lookup_empty in Hlk.
    - exists idx. split; [by apply Hin | done]. }
  split; [exact Hsound|].
  intros idx n v Hn Hv.
  assert (Hsome : is_Some (Proxy.correlate (Proxy.values_of body) order !! n)).
  { unfold Proxy.correlate.
    eapply foldl_step_complete; [by apply Hin | done]. }
  split; [exact Hsome|].
  intros Hagree. destruct Hsome as [v' Hv'].
  destruct (Hsound n v' Hv') as (idx' & Hn' & Hval').
  by rewrite Hv', (Hagree idx' v' Hn' Hval').
Qed.

(** C9 as stated fails when two complete indices carry the same name: the
    result is a map, it has one entry for the name, with the value of
    either index depending on the order of the last loop. *)
Lemma C9_same_name_one_entry :
  Proxy.names_of form_same_name !! "1" = Some "a" ∧
  Proxy.values_of form_same_name !! "1" = Some "x" ∧
  Proxy.names_of form_same_name !! "2" = Some "a" ∧
  Proxy.values_of form_same_name !! "2" = Some "y" ∧
  Proxy.extractMessageAttributes_form form_same_name {[ "a" := "x" ]} ∧
  Proxy.extractMessageAttributes_form form_same_name {[ "a" := "y" ]} ∧
  ∀ attrs, Proxy.extractMessageAttributes_form form_same_name attrs →
    ∃ idx n v, Proxy.names_of form_same_name !! idx = Some n ∧
               Proxy.values_of form_same_name !! idx = Some v ∧
               attrs !! n ≠ Some v.
Proof.
  assert (H1 : Proxy.names_of form_same_name !! "1" = Some "a")
    by (vm_compute; reflexivity).
  assert (H2 : Proxy.values_of form_same_name !! "1" = Some "x")
    by (vm_compute; reflexivity).
  assert (H3 : Proxy.names_of form_same_name !! "2" = Some "a")
    by (vm_compute; reflexivity).
  assert (H4 : Proxy.values_of form_same_name !! "2" = Some "y")
    by (vm_compute; reflexivity).
  assert (Hl : map_to_list (Proxy.names_of form_same_name)
               = [("1", "a"); ("2", "a")]) by (vm_compute; reflexivity).
  do 4 (split; [done|]). split; [|split].
  - exists [("2", "a"); ("1", "a")]. split.
    + rewrite Hl. apply perm_swap.
    + apply map_eq. intros k. unfold Proxy.correlate. simpl.
      rewrite H2, H4. rewrite insert_insert_eq. done.
  - exists [("1", "a"); ("2", "a")]. split.
    + by rewrite Hl.
    + apply map_eq. intros k. unfold Proxy.correlate. simpl.
      rewrite H2, H4. rewrite insert_insert_eq. done.
  - intros attrs _.
    destruct (decide (attrs !! "a" = Some "x")) as [Hx|Hx].
    + exists "2", "a", "y". split; [done|]. split; [done|].
      rewrite Hx. discriminate.
    + by exists "1", "a", "x".
Qed.

(** Indices 7, 3, 12 and 5, out of order: 7 and 3 are complete, 12 has no
    value, 5 has no name. *)
Example form_attrs_correlated :
  map_to_list (Proxy.names_of form_attrs)
    = [("7", "a/k"); ("3", "b"); ("12", "lonely")] ∧
  map_to_list (Proxy.values_of form_attrs)
    = [("7", "x y"); ("3", "z"); ("5", "orphan")] ∧
  map_to_list (Proxy.extractMessageAttributes_form_run form_attrs)
    = [("a/k", "x y"); ("b", "z")].
Proof. vm_compute. done. Qed.

Lemma C9_form_attributes_witness :
  let attrs := Proxy.extractMessageAttributes_form_run form_attrs in
  Proxy.extractMessageAttributes_form form_attrs attrs ∧
  Proxy.names_of form_attrs !! "7" = Some "a/k" ∧
  Proxy.values_of form_attrs !! "7" = Some "x y" ∧
  is_Some (attrs !! "a/k") ∧
  (∀ n v, attrs !! n = Some v →
     ∃ idx, Proxy.names_of form_attrs !! idx = Some n ∧
            Proxy.values_of form_attrs !! idx = Some v).
Proof.
  intros attrs.
  destruct (C9_form_attributes form_attrs) as (_ & _ & Hrun & Hall).
  destruct (Hall attrs Hrun) as [Hsound Hcomplete].
  assert (Hn : Proxy.names_of form_attrs !! "7" = Some "a/k")
    by (vm_compute; reflexivity).
  assert (Hv : Proxy.values_of form_attrs !! "7" = Some "x y")
    by (vm_compute; reflexivity).
  split; [exact Hrun|]. split; [exact Hn|]. split; [exact Hv|].
  split; [exact (proj1 (Hcomplete "7" "a/k" "x y" Hn Hv)) | exact Hsound].
Defined.

(** The Form-encoded send of the specification. *)
Example form_send_identified :
  Proxy.isJSON "application/x-www-form-urlencoded" = false ∧
  Proxy.isJSON "application/x-amz-json-1.0" = true ∧
  Proxy.action_of "" form_send = "SendMessage" ∧
  Proxy.modifyResponse_handler "" form_send = Some Proxy.handleSendMessage ∧
  Proxy.parseFormField form_send "QueueUrl" = "http://x/q1" ∧
  Proxy.parseFormField form_send "MessageBody" = "hi" ∧
  Proxy.parseActionFromForm "MyAction=Foo&Action=Bar" = "Foo".
Proof. vm_compute. done. Qed.

(** ** More on the store *)

(** The cases of one call on a well-formed world, each with the world it
    leads to. *)
Ltac call_cases w Hw Hcall :=
  match type of Hcall with
  | call ?c w = Some (tt, _) =>
      destruct c as [u q m b a | u q m rh b a | u q rh |];
      cbn [call] in Hcall;
      [ rewrite RecordSend_step in Hcall
      | destruct (messages (store w) !! m) as [p|] eqn:Hp;
        [ rewrite (RecordReceive_known _ _ _ _ _ _ _ p Hp) in Hcall
        | rewrite (RecordReceive_fresh _ _ _ _ _ _ _ Hp) in Hcall ]
      | destruct (receipts (store w) !! rh) as [m|] eqn:Hr;
        [ destruct (messages (store w) !! m) as [p|] eqn:Hp;
          [ destruct (wf_messages _ Hw m p Hp) as (c0 & Hc0 & Hid0);
            rewrite (RecordDelete_hit _ _ _ _ m p c0 Hr Hp Hc0) in Hcall
          | rewrite (RecordDelete_orphan _ _ _ _ m Hr Hp) in Hcall ]
        | rewrite (RecordDelete_miss _ _ _ _ Hr) in Hcall ]
      | rewrite Clear_step in Hcall ];
      injection Hcall as <-
  end.

Lemma same_event_refl c : same_event c c.
Proof. by repeat split. Qed.

Lemma same_event_trans c0 c1 c2 :
  same_event c0 c1 → same_event c1 c2 → same_event c0 c2.
Proof. unfold same_event. intuition congruence. Qed.

Lemma same_event_mark t c : same_event c (mark_deleted t c).
Proof. by repeat split. Qed.

(** One call keeps every allocated message, up to the deleted flag. *)
Lemma call_heap c (w w' : World) :
  wf w → call c w = Some (tt, w') →
  ∀ i c0, heap w !! i = Some c0 →
          ∃ c1, heap w' !! i = Some c1 ∧ same_event c0 c1.
Proof.
  intros Hw Hcall i ci Hi.
  assert (Happ : ∀ x, ∃ c1, (heap w ++ x) !! i = Some c1 ∧ same_event ci c1)
    by (intros x; exists ci; split;
        [by apply lookup_app_l_Some | apply same_event_refl]).
  call_cases w Hw Hcall; simpl; try apply Happ.
  - rewrite <- app_assoc. apply Happ.
  - destruct (decide (i = p)) as [->|Hne].
    + exists (mark_deleted (clock w (ticks w)) c0).
      split; [|assert (ci = c0) as -> by congruence; apply same_event_mark].
      apply lookup_app_l_Some, list_lookup_insert_eq. by eapply lookup_lt_Some.
    + exists ci. split; [|apply same_event_refl].
      apply lookup_app_l_Some. by rewrite list_lookup_insert_ne.
  - exists ci. split; [done | apply same_event_refl].
Qed.

Lemma elem_of_events (w : World) e :
  e ∈ events w ↔ ∃ p, p ∈ history (store w) ∧ heap w !! p = Some e.
Proof. unfold events, deref. apply list_elem_of_omap. Qed.

Lemma call_history c (w w' : World) :
  wf w → call c w = Some (tt, w') →
  history (store w') =
    if records c then history (store w) ++ [length (heap w)] else [].
Proof. intros Hw Hcall. by call_cases w Hw Hcall. Qed.

Lemma linked_initial clk : linked (initial clk).
Proof.
  split; unfold current_state, members; simpl.
  - intros rh m H. by rewrite lookup_empty in H.
  - intros rh m H. by rewrite lookup_empty in H.
  - intros m c. by rewrite lookup_empty.
  - intros m q. rewrite lookup_empty. simpl. by intros ?%not_elem_of_empty.
Qed.

Lemma members_add q m (w : World) q' k :
  k ∈ default ∅ (add_member q m (queues (store w)) !! q') ↔
  (q' = q ∧ k = m) ∨ k ∈ members w q'.
Proof.
  unfold members. rewrite add_member_lookup.
  case_decide as Hq; simpl.
  - subst q'. rewrite elem_of_union, elem_of_singleton.
    split; [intros [->|?]; [by left | by right]
           | intros [[_ ->]|?]; [by left | by right]].
  - split; [by right | intros [[? _]|?]; [congruence | done]].
Qed.

Lemma call_linked c (w w' : World) :
  wf w → linked w → call c w = Some (tt, w') → linked w'.
Proof.
  intros Hw [Hrec Hrcv Hq Hmem] Hcall.
  pose proof (call_heap c w w' Hw Hcall) as Hheap.
  pose proof (call_history c w w' Hw Hcall) as Hhist.
  assert (Hev : records c = true → ∀ e, e ∈ events w →
            ∃ e', e' ∈ events w' ∧ same_event e e').
  { intros Hc e (p & Hp & He)%elem_of_events.
    destruct (Hheap p e He) as (e' & He' & Hsame).
    exists e'. split; [|done]. apply elem_of_events. exists p.
    split; [|done]. rewrite Hhist, Hc. apply elem_of_app. by left. }
  assert (Hrcv' : records c = true → ∀ rh m,
            receipts (store w) !! rh = Some m →
            ∃ e, e ∈ events w' ∧ Action e = ActionReceive ∧
                 ReceiptHandle e = rh ∧ MessageID e = m).
  { intros Hc rh m Hr. destruct (Hrcv rh m Hr) as (e & He & Ha & Hh & Hm).
    destruct (Hev Hc e He) as (e' & He' & Hs). exists e'.
    destruct Hs as (_ & ? & ? & _ & _ & _ & _ & ? & _).
    split; [done|]. repeat split; congruence. }
  clear Hheap Hev.
  call_cases w Hw Hcall.
  - (* send *)
    split; unfold current_state, members; simpl.
    + intros rh' m' Hr. rewrite lookup_insert. case_decide; [done|].
      by apply (Hrec rh').
    + by apply Hrcv'.
    + intros k c. rewrite lookup_insert. case_decide as Hk.
      * subst k. rewrite load_new. intros [= <-]. simpl.
        apply members_add. by left.
      * intros Hc. apply members_add. right. apply (Hq k c).
        unfold current_state. destruct (messages (store w) !! k) as [pk|] eqn:Hpk;
          [|done].
        destruct (wf_messages _ Hw k pk Hpk) as (ck & Hck & _).
        rewrite (lookup_app_l_Some _ _ _ _ Hck) in Hc. congruence.
    + intros k q' [[-> ->]|Hk]%members_add; rewrite lookup_insert;
        case_decide; try done. by apply (Hmem k q').
  - (* receive, known *)
    split; unfold current_state, members; simpl.
    + intros rh' m' . rewrite lookup_insert. case_decide.
      * intros [= <-]. by exists p.
      * by apply Hrec.
    + intros rh' m'. rewrite lookup_insert. case_decide as Hrh.
      * intros [= <-]. subst rh'.
        exists (received (next_id w (ticks w)) (clock w (S (ticks w)))
                  u q m rh b a).
        split; [|by repeat split].
        apply elem_of_events. exists (length (heap w)). simpl.
        split; [apply elem_of_app; right; by left | apply load_new].
      * by apply Hrcv'.
    + intros k c Hc. apply (Hq k c). unfold current_state.
      destruct (messages (store w) !! k) as [pk|] eqn:Hpk; [|done].
      destruct (wf_messages _ Hw k pk Hpk) as (ck & Hck & _).
      rewrite (lookup_app_l_Some _ _ _ _ Hck) in Hc. congruence.
    + apply Hmem.
  - (* receive, fresh *)
    split; unfold current_state, members; simpl.
    + intros rh' m'. rewrite !lookup_insert. case_decide.
      * intros [= <-]. by rewrite decide_True.
      * intros Hr. case_decide; [done|]. by apply (Hrec rh').
    + intros rh' m'. rewrite lookup_insert. case_decide as Hrh.
      * intros [= <-]. subst rh'.
        exists (received (next_id w (ticks w)) (clock w (S (ticks w)))
                  u q m rh b a).
        split; [|by repeat split].
        apply elem_of_events. exists (length (heap w)). simpl.
        split; [apply elem_of_app; right; by left|].
        apply lookup_app_l_Some, load_new.
      * by apply Hrcv'.
    + intros k c. rewrite lookup_insert. case_decide as Hk.
      * subst k.
        replace (S (length (heap w))) with (length (heap w ++
          [received (next_id w (ticks w)) (clock w (S (ticks w)))
             u q m rh b a])) by (rewrite length_app; simpl; lia).
        rewrite load_new. intros [= <-]. simpl. apply members_add. by left.
      * intros Hc. apply members_add. right. apply (Hq k c).
        unfold current_state.
        destruct (messages (store w) !! k) as [pk|] eqn:Hpk; [|done].
        destruct (wf_messages _ Hw k pk Hpk) as (ck & Hck & _).
        rewrite (lookup_app_l_Some _ _ _ _
                   (lookup_app_l_Some _ _ _ _ Hck)) in Hc. congruence.
    + intros k q' [[-> ->]|Hk]%members_add; rewrite lookup_insert;
        case_decide; try done. by apply (Hmem k q').
  - (* delete, resolved *)
    split; unfold current_state, members; simpl.
    + apply Hrec.
    + by apply Hrcv'.
    + intros k c Hc.
      destruct (messages (store w) !! k) as [pk|] eqn:Hpk; [|done].
      destruct (wf_messages _ Hw k pk Hpk) as (ck & Hck & _).
      assert (Hqk : k ∈ members w (QueueName ck)).
      { apply Hq. unfold current_state. by rewrite Hpk. }
      unfold members in Hqk.
      destruct (decide (pk = p)) as [->|Hne].
      * rewrite (lookup_app_l_Some _ _ _
                   (mark_deleted (clock w (ticks w)) c0)) in Hc.
        -- injection Hc as <-. simpl.
           assert (ck = c0) as <- by congruence. exact Hqk.
        -- apply list_lookup_insert_eq. by eapply lookup_lt_Some.
      * rewrite (lookup_app_l_Some _ _ _ ck) in Hc;
          [|by rewrite list_lookup_insert_ne].
        injection Hc as <-. exact Hqk.
    + apply Hmem.
  - (* delete, no entry *)
    by destruct (Hrec rh m Hr) as [? ?]; congruence.
  - (* delete, unknown handle *)
    split; unfold current_state, members; simpl.
    + apply Hrec.
    + by apply Hrcv'.
    + intros k c Hc. apply (Hq k c). unfold current_state.
      destruct (messages (store w) !! k) as [pk|] eqn:Hpk; [|done].
      destruct (wf_messages _ Hw k pk Hpk) as (ck & Hck & _).
      rewrite (lookup_app_l_Some _ _ _ _ Hck) in Hc. congruence.
    + apply Hmem.
  - (* clear *)
    split; unfold current_state, members; simpl.
    + intros rh m H. by rewrite lookup_empty in H.
    + intros rh m H. by rewrite lookup_empty in H.
    + intros m c. by rewrite lookup_empty.
    + intros m q. rewrite lookup_empty. simpl. by intros ?%not_elem_of_empty.
Qed.

Lemma reachable_linked w : reachable w → linked w.
Proof.
  intros (clk & cs & Hrun).
  assert (H : ∀ cs w0 w1, wf w0 → linked w0 → run cs w0 = Some (tt, w1) →
            linked w1).
  { clear. intros cs. induction cs as [|c cs IH]; intros w0 w1 Hw Hl.
    - simpl. by intros [= <-].
    - rewrite run_cons.
      destruct (call c w0) as [[[] w2]|] eqn:Hc; [|done].
      intros Hrun. destruct (call_counter c w0 w2 Hw Hc) as (Hw2 & _).
      exact (IH w2 w1 Hw2 (call_linked c w0 w2 Hw Hl Hc) Hrun). }
  eapply H; [apply wf_initial | apply linked_initial | exact Hrun].
Qed.

Lemma reachable_current_state w m p :
  reachable w → messages (store w) !! m = Some p →
  ∃ c, current_state w m = Some c ∧ heap w !! p = Some c ∧ MessageID c = m.
Proof.
  intros Hw%reachable_wf Hp. destruct (wf_messages _ Hw m p Hp) as (c & Hc & Hid).
  exists c. unfold current_state. by rewrite Hp.
Qed.

(** X1: on a reachable store every receipt handle of the index names a
    message id that has a current-state entry, and the history holds a
    Receive event with this handle and this id.  The inner lookup of
    [RecordDelete] can therefore not miss once the handle is known. *)
Theorem X1_receipt_index_resolves (w : World) rh m :
  reachable w →
  receipts (store w) !! rh = Some m →
  (∃ c, current_state w m = Some c ∧ MessageID c = m) ∧
  ∃ e, e ∈ events w ∧ Action e = ActionReceive ∧
       ReceiptHandle e = rh ∧ MessageID e = m.
Proof.
  intros Hr Hrh. pose proof (reachable_linked w Hr) as Hl. split.
  - destruct (linked_receipt w Hl rh m Hrh) as [p Hp].
    destruct (reachable_current_state w m p Hr Hp) as (c & Hc & _ & Hid).
    by exists c.
  - by apply (linked_received w Hl).
Qed.

Lemma X1_receipt_index_resolves_witness :
  let w := after sample_calls in
  reachable w ∧ receipts (store w) !! "rh1" = Some "m1" ∧
  (∃ c, current_state w "m1" = Some c ∧ MessageID c = "m1") ∧
  ∃ e, e ∈ events w ∧ Action e = ActionReceive ∧
       ReceiptHandle e = "rh1" ∧ MessageID e = "m1".
Proof.
  intros w.
  assert (Hr : reachable w) by apply reachable_after.
  assert (Hrh : receipts (store w) !! "rh1" = Some "m1")
    by (vm_compute; reflexivity).
  split; [exact Hr|]. split; [exact Hrh|].
  exact (X1_receipt_index_resolves w "rh1" "m1" Hr Hrh).
Defined.

(** X2: on a reachable store the membership set of a queue holds the id
    of every current-state entry that names the queue, every member of a
    membership set has a current-state entry, and an entry is filed under
    its own message id. *)
Theorem X2_membership_covers_current_state (w : World) :
  reachable w →
  (∀ m c, current_state w m = Some c →
     MessageID c = m ∧ m ∈ members w (QueueName c)) ∧
  (∀ m q, m ∈ members w q → ∃ c, current_state w m = Some c).
Proof.
  intros Hr. pose proof (reachable_linked w Hr) as Hl. split.
  - intros m c Hc. split; [|by apply (linked_queue w Hl)].
    unfold current_state in Hc.
    destruct (messages (store w) !! m) as [p|] eqn:Hp; [|done].
    destruct (reachable_current_state w m p Hr Hp) as (c' & _ & Hc' & Hid).
    congruence.
  - intros m q Hm. destruct (linked_member w Hl m q Hm) as [p Hp].
    destruct (reachable_current_state w m p Hr Hp) as (c & Hc & _).
    by exists c.
Qed.

Lemma X2_membership_covers_current_state_witness :
  let w := after two_queues in
  reachable w ∧
  (∀ m c, current_state w m = Some c →
     MessageID c = m ∧ m ∈ members w (QueueName c)) ∧
  (∀ m q, m ∈ members w q → ∃ c, current_state w m = Some c).
Proof.
  intros w.
  assert (Hr : reachable w) by apply reachable_after.
  split; [exact Hr|]. exact (X2_membership_covers_current_state w Hr).
Defined.

(** X3: a delete whose receipt handle is known marks the current-state
    entry of the message as deleted, with the time of the Delete event as
    deletion time (also when it was deleted before), and changes nothing
    else in the entry; the event carries the message id and the body of
    the entry; no other entry and none of the maps changes. *)
Theorem X3_record_delete_resolved u q rh m (w : World) :
  reachable w →
  receipts (store w) !! rh = Some m →
  ∃ w' cell event,
    RecordDelete u q rh w = Some (tt, w') ∧
    current_state w m = Some cell ∧
    current_state w' m =
      Some (with_DeletedAt (Some (Timestamp event)) (with_Deleted true cell)) ∧
    (∀ k, k ≠ m → current_state w' k = current_state w k) ∧
    history (store w') = history (store w) ++ [length (heap w)] ∧
    heap w' !! length (heap w) = Some event ∧
    event = deleted (ID event) (Timestamp event) u q m rh (Body cell) ∧
    messages (store w') = messages (store w) ∧
    queues (store w') = queues (store w) ∧
    receipts (store w') = receipts (store w).
Proof.
  intros Hr Hrh. pose proof (reachable_wf w Hr) as Hw.
  destruct (linked_receipt w (reachable_linked w Hr) rh m Hrh) as [p Hp].
  destruct (wf_messages _ Hw m p Hp) as (cell & Hcell & Hid).
  pose proof (lookup_lt_Some _ _ _ Hcell) as Hlt.
  eexists _, cell, (deleted (next_id w (S (ticks w))) (clock w (ticks w))
                      u q m rh (Body cell)).
  split; [by apply (RecordDelete_hit _ _ _ _ m p cell)|].
  unfold current_state. simpl. rewrite Hp.
  split; [done|]. split.
  { apply lookup_app_l_Some. by apply list_lookup_insert_eq. }
  split.
  { intros k Hk. destruct (messages (store w) !! k) as [pk|] eqn:Hpk; [|done].
    destruct (wf_messages _ Hw k pk Hpk) as (ck & Hck & Hidk).
    assert (pk ≠ p) by (intros ->; congruence).
    rewrite Hck. apply lookup_app_l_Some. by rewrite list_lookup_insert_ne. }
  split; [done|]. split.
  { rewrite lookup_app_r by (by rewrite length_insert).
    by rewrite length_insert, Nat.sub_diag. }
  done.
Qed.

Lemma X3_record_delete_resolved_witness :
  let w := after sample_calls in
  reachable w ∧ receipts (store w) !! "rh1" = Some "m1" ∧
  ∃ w' cell event,
    RecordDelete sample_url "q1" "rh1" w = Some (tt, w') ∧
    current_state w "m1" = Some cell ∧
    current_state w' "m1" =
      Some (with_DeletedAt (Some (Timestamp event)) (with_Deleted true cell)) ∧
    (∀ k, k ≠ "m1" → current_state w' k = current_state w k) ∧
    history (store w') = history (store w) ++ [length (heap w)] ∧
    heap w' !! length (heap w) = Some event ∧
    event = deleted (ID event) (Timestamp event) sample_url "q1" "m1" "rh1"
              (Body cell) ∧
    messages (store w') = messages (store w) ∧
    queues (store w') = queues (store w) ∧
    receipts (store w') = receipts (store w).
Proof.
  intros w.
  assert (Hr : reachable w) by apply reachable_after.
  assert (Hrh : receipts (store w) !! "rh1" = Some "m1")
    by (vm_compute; reflexivity).
  split; [exact Hr|]. split; [exact Hrh|].
  exact (X3_record_delete_resolved sample_url "q1" "rh1" "m1" w Hr Hrh).
Defined.

Lemma count_same (f g : string → bool) l :
  (∀ k, k ∈ l → g k = f k) → List.filter g l = List.filter f l.
Proof.
  induction l as [|x l IH]; intros H; [done|]. simpl.
  rewrite (H x) by (by left). rewrite IH; [done|].
  intros k Hk. apply H. by right.
Qed.

Lemma count_flip (f g : string → bool) l m :
  NoDup l → (∀ k, k ≠ m → g k = f k) → f m = true → g m = false →
  Z.of_nat (length (List.filter g l)) =
    Z.of_nat (length (List.filter f l)) - (if bool_decide (m ∈ l) then 1 else 0).
Proof.
  intros Hnd Hother Hf Hg. induction Hnd as [|x l Hx Hnd IH].
  - rewrite bool_decide_false by apply not_elem_of_nil. simpl. lia.
  - cbn [List.filter]. destruct (decide (x = m)) as [->|Hne].
    + rewrite Hf, Hg. rewrite bool_decide_true by (by left).
      rewrite bool_decide_false in IH by done. simpl length. lia.
    + rewrite (Hother x Hne).
      assert (Hiff : bool_decide (m ∈ x :: l) = bool_decide (m ∈ l)).
      { apply bool_decide_ext. rewrite elem_of_cons. split; [|by right].
        intros [->|?]; [done|done]. }
      rewrite Hiff. destruct (f x); simpl length; lia.
Qed.

(** X4: a resolved delete of a message that was not deleted lowers the
    pending count by exactly one in every queue whose membership set
    holds the message id (the queue its entry names among them) and
    leaves the other counts; a resolved delete of a message that was
    deleted already changes no pending count. *)
Theorem X4_delete_lowers_pending u q rh m (w : World) :
  reachable w →
  receipts (store w) !! rh = Some m →
  ∃ w' cell,
    RecordDelete u q rh w = Some (tt, w') ∧
    current_state w m = Some cell ∧
    (Deleted cell = false →
       (∀ q', pending_members w' q' =
                pending_members w q'
                - (if bool_decide (m ∈ members w q') then 1 else 0)) ∧
       pending_members w' (QueueName cell)
         = pending_members w (QueueName cell) - 1) ∧
    (Deleted cell = true →
       ∀ q', pending_members w' q' = pending_members w q').
Proof.
  intros Hr Hrh.
  destruct (X3_record_delete_resolved u q rh m w Hr Hrh)
    as (w' & cell & event & Hrun & Hcell & Hcell' & Hother & _ & _ & _ & _
        & Hqs & _).
  exists w', cell. split; [done|]. split; [done|].
  assert (Hmem : ∀ q', members w' q' = members w q')
    by (intros q'; unfold members; by rewrite Hqs).
  assert (Hk : ∀ k, k ≠ m → is_pending w' k = is_pending w k)
    by (intros k Hne; unfold is_pending; by rewrite Hother).
  assert (Hm' : is_pending w' m = false)
    by (unfold is_pending; by rewrite Hcell').
  split.
  - intros Hd.
    assert (Hm : is_pending w m = true)
      by (unfold is_pending; by rewrite Hcell, Hd).
    assert (Hall : ∀ q', pending_members w' q' =
              pending_members w q'
              - (if bool_decide (m ∈ members w q') then 1 else 0)).
    { intros q'. unfold pending_members. rewrite Hmem.
      rewrite (count_flip (is_pending w) (is_pending w') _ m
                 (NoDup_elements _) Hk Hm Hm').
      replace (bool_decide (m ∈ elements (members w q')))
        with (bool_decide (m ∈ members w q'))
        by (apply bool_decide_ext; symmetry; apply elem_of_elements).
      done. }
    split; [exact Hall|]. rewrite Hall.
    destruct (X2_membership_covers_current_state w Hr) as [Hq _].
    rewrite bool_decide_true; [done|]. by apply Hq.
  - intros Hd q'. unfold pending_members. rewrite Hmem. do 2 f_equal.
    apply count_same. intros k _. destruct (decide (k = m)) as [->|Hne].
    + rewrite Hm'. unfold is_pending. by rewrite Hcell, Hd.
    + by apply Hk.
Qed.

Lemma X4_delete_lowers_pending_witness :
  let w := after sample_calls in
  reachable w ∧ receipts (store w) !! "rh1" = Some "m1" ∧
  pending_members w "q1" = 1 ∧
  ∃ w', RecordDelete sample_url "q1" "rh1" w = Some (tt, w') ∧
        pending_members w' "q1" = 0.
Proof.
  intros w.
  assert (Hr : reachable w) by apply reachable_after.
  assert (Hrh : receipts (store w) !! "rh1" = Some "m1")
    by (vm_compute; reflexivity).
  assert (Hp : pending_members w "q1" = 1) by (vm_compute; reflexivity).
  split; [exact Hr|]. split; [exact Hrh|]. split; [exact Hp|].
  destruct (X4_delete_lowers_pending sample_url "q1" "rh1" "m1" w Hr Hrh)
    as (w' & cell & Hrun & Hcell & Hlive & _).
  exists w'. split; [exact Hrun|].
  assert (Hcell2 := Hcell). vm_compute in Hcell2. injection Hcell2 as <-.
  destruct (Hlive eq_refl) as [_ H1]. cbn [QueueName] in H1.
  rewrite Hp in H1. exact H1.
Defined.

Lemma run_heap cs (w w' : World) :
  wf w → run cs w = Some (tt, w') →
  ∀ i c0, heap w !! i = Some c0 →
          ∃ c1, heap w' !! i = Some c1 ∧ same_event c0 c1.
Proof.
  revert w. induction cs as [|c cs IH]; intros w Hw.
  - simpl. intros [= <-] i c0 Hi. exists c0. split; [done|].
    apply same_event_refl.
  - rewrite run_cons. destruct (call c w) as [[[] w1]|] eqn:Hc; [|done].
    intros Hrun i c0 Hi.
    destruct (call_counter c w w1 Hw Hc) as (Hw1 & _).
    destruct (call_heap c w w1 Hw Hc i c0 Hi) as (c1 & Hc1 & Hs1).
    destruct (IH w1 Hw1 Hrun i c1 Hc1) as (c2 & Hc2 & Hs2).
    exists c2. split; [done|]. by eapply same_event_trans.
Qed.

Lemma run_history cs (w w' : World) :
  wf w → Forall (λ c, records c = true) cs → run cs w = Some (tt, w') →
  wf w' ∧ ∃ new, history (store w') = history (store w) ++ new ∧
                 length new = length cs.
Proof.
  intros Hw Hcs. revert w Hw.
  induction Hcs as [|c cs Hc Hcs IH]; intros w Hw.
  - simpl. intros [= <-]. split; [done|]. exists []. by rewrite app_nil_r.
  - rewrite run_cons. destruct (call c w) as [[[] w1]|] eqn:Hcall; [|done].
    intros Hrun. destruct (call_counter c w w1 Hw Hcall) as (Hw1 & _).
    pose proof (call_history c w w1 Hw Hcall) as Hh. rewrite Hc in Hh.
    destruct (IH w1 Hw1 Hrun) as (Hw' & new & Hnew & Hlen).
    split; [done|]. exists (length (heap w) :: new).
    split; [|simpl; by rewrite Hlen].
    rewrite Hnew, Hh. by rewrite <- app_assoc.
Qed.

Lemma deref_same (w w' : World) h :
  (∀ i c0, heap w !! i = Some c0 →
           ∃ c1, heap w' !! i = Some c1 ∧ same_event c0 c1) →
  (∀ p, p ∈ h → (p < length (heap w))%nat) →
  Forall2 same_event (deref w h) (deref w' h).
Proof.
  intros Hheap. induction h as [|p h IH]; intros Hh; [constructor|].
  destruct (lookup_lt_is_Some_2 (heap w) p) as [c0 Hc0]; [apply Hh; by left|].
  destruct (Hheap p c0 Hc0) as (c1 & Hc1 & Hs).
  rewrite (deref_cons _ _ _ _ Hc0), (deref_cons _ _ _ _ Hc1).
  constructor; [done|]. apply IH. intros p' Hp'. apply Hh. by right.
Qed.

(** X5: the history is append-only.  Whatever sends, receives and deletes
    follow on a reachable store, none of them fails, each appends exactly
    one event, and the events that were in the history stay in place with
    all their fields except the deleted flag and the deletion time (a
    Send event is the current-state message itself, which a later delete
    marks). *)
Theorem X5_history_append_only cs (w : World) :
  reachable w →
  Forall (λ c, records c = true) cs →
  ∃ w' old new,
    run cs w = Some (tt, w') ∧
    events w' = old ++ new ∧
    Forall2 same_event (events w) old ∧
    length new = length cs.
Proof.
  intros Hw%reachable_wf Hcs.
  destruct (run_total cs w Hw) as (w' & Hrun & _).
  destruct (run_history cs w w' Hw Hcs Hrun) as (Hw' & new & Hnew & Hlen).
  exists w', (deref w' (history (store w))), (deref w' new).
  split; [done|]. split; [|split].
  - unfold events, deref. by rewrite Hnew, omap_app.
  - apply deref_same; [by eapply run_heap | apply (wf_history _ Hw)].
  - rewrite <- Hlen.
    apply (proj2 (count_events_spec new ∅ w'
      (λ p Hp, wf_history _ Hw' p
         ltac:(rewrite Hnew; apply elem_of_app; by right)))).
Qed.

Lemma X5_history_append_only_witness :
  let w := after sample_calls in
  let cs := [CallDelete sample_url "q1" "rh1";
             CallSend sample_url "q1" "m2" "x" ∅] in
  reachable w ∧ Forall (λ c, records c = true) cs ∧
  ∃ w' old new,
    run cs w = Some (tt, w') ∧
    events w' = old ++ new ∧
    Forall2 same_event (events w) old ∧
    length new = length cs.
Proof.
  intros w cs.
  assert (Hr : reachable w) by apply reachable_after.
  assert (Hcs : Forall (λ c, records c = true) cs) by (by repeat constructor).
  split; [exact Hr|]. split; [exact Hcs|].
  exact (X5_history_append_only cs w Hr Hcs).
Defined.

(** X7: [Clear] empties the four structures together and nothing else:
    the three queries then return empty results, while the allocated
    messages and the id counter are as before. *)
Theorem X7_clear_empties (w : World) :
  ∃ w',
    Clear w = Some (tt, w') ∧
    store w' = New ∧ heap w' = heap w ∧ idCounter w' = idCounter w ∧
    (∀ q incl, GetMessages q incl w' = Some ([], w')) ∧
    (∀ k, GetHistory k w' = Some ([], w')) ∧
    GetQueueStats w' = Some ([], w').
Proof.
  eexists. split; [apply Clear_step|]. simpl.
  split; [done|]. split; [done|]. split; [done|]. split; [|split].
  - intros q incl. unfold GetMessages, mbind, M_bind, getStore. simpl.
    by rewrite map_to_list_empty.
  - intros k. rewrite GetHistory_take. simpl.
    change (reverse []) with (@nil nat). by rewrite take_nil.
  - unfold GetQueueStats, mbind, M_bind, getStore. simpl.
    rewrite map_to_list_empty. simpl. by rewrite map_to_list_empty.
Qed.

(** X9: the id counter counts the events recorded since the process
    started; [Clear] does not reset it, so identifiers go on after a
    reset. *)
Theorem X9_counter_survives_clear clk cs (w : World) :
  run cs (initial clk) = Some (tt, w) →
  Z.of_nat (length cs) < 2 ^ 63 →
  idCounter w = Z.of_nat (length (List.filter records cs)).
Proof.
  intros Hrun Hlen.
  destruct (run_counter cs (initial clk) w (wf_initial clk) Hrun) as [_ H].
  - simpl. lia.
  - simpl. lia.
  - rewrite H. simpl. lia.
Qed.

Lemma X9_counter_survives_clear_witness :
  let cs := [CallSend sample_url "q1" "m1" "hi" ∅; CallClear;
             CallSend sample_url "q1" "m2" "ho" ∅] in
  run cs (initial noon) = Some (tt, after cs) ∧
  Z.of_nat (length cs) < 2 ^ 63 ∧
  idCounter (after cs) = 2.
Proof.
  intros cs.
  assert (Hrun : run cs (initial noon) = Some (tt, after cs))
    by apply run_after.
  assert (Hlen : Z.of_nat (length cs) < 2 ^ 63) by (simpl; lia).
  split; [exact Hrun|]. split; [exact Hlen|].
  exact (X9_counter_survives_clear noon cs (after cs) Hrun Hlen).
Defined.

Lemma visible_iff q incl c :
  visible q incl c = true ↔
  (q = "" ∨ QueueName c = q) ∧ (incl = true ∨ Deleted c = false).
Proof.
  unfold visible. rewrite andb_true_iff, !negb_true_iff, !andb_false_iff.
  rewrite !bool_decide_eq_false, negb_false_iff.
  split; intros [H1 H2]; split.
  - destruct H1 as [H1|H1]; [left|right].
    + by destruct (decide (q = "")).
    + by destruct (decide (QueueName c = q)).
  - destruct H2 as [H2|H2]; [left | by right]. by destruct incl.
  - destruct H1 as [->|H1]; [left | right]; auto.
  - destruct H2 as [->|H2]; [left | by right]. done.
Qed.

(** X6: on a reachable store [GetMessages] does not fail and does not
    change anything; it returns, without repetition, exactly the
    current-state entries that pass its two filters: the queue name, when
    one is given, and the deleted flag, unless deleted entries are asked
    for. *)
Theorem X6_get_messages_exact q incl (w : World) :
  reachable w →
  ∃ l,
    GetMessages q incl w = Some (l, w) ∧
    NoDup l ∧
    ∀ p, p ∈ l ↔
      ∃ m c, messages (store w) !! m = Some p ∧ heap w !! p = Some c ∧
             (q = "" ∨ QueueName c = q) ∧ (incl = true ∨ Deleted c = false).
Proof.
  intros Hw%reachable_wf.
  set (es := map_to_list (messages (store w))).
  exists (List.filter (shown w q incl) es).*2. split; [|split].
  - unfold GetMessages, mbind, M_bind, getStore. fold es.
    rewrite GetMessages_loop_spec; [done|].
    intros [k p] He%elem_of_map_to_list. simpl.
    destruct (wf_messages _ Hw k p He) as (c & Hc & _). by exists c.
  - apply NoDup_fmap_2_strong.
    + intros [k1 p1] [k2 p2] H1%list_elem_of_In H2%list_elem_of_In Heq.
      apply List.filter_In in H1 as [H1%list_elem_of_In%elem_of_map_to_list _].
      apply List.filter_In in H2 as [H2%list_elem_of_In%elem_of_map_to_list _].
      simpl in Heq. subst p2.
      destruct (wf_messages _ Hw k1 p1 H1) as (c1 & Hc1 & Hid1).
      destruct (wf_messages _ Hw k2 p1 H2) as (c2 & Hc2 & Hid2).
      f_equal. congruence.
    + apply NoDup_ListNoDup, List.NoDup_filter, NoDup_ListNoDup.
      apply NoDup_map_to_list.
  - intros p. rewrite list_elem_of_fmap. split.
    + intros ([k p'] & -> & Hin%list_elem_of_In). simpl.
      apply List.filter_In in Hin as [Hin%list_elem_of_In%elem_of_map_to_list Hs].
      unfold shown in Hs. simpl in Hs.
      destruct (heap w !! p') as [c|] eqn:Hc; [|done].
      exists k, c. split; [done|]. split; [done|]. by apply visible_iff.
    + intros (m & c & Hm & Hc & Hv). exists (m, p). split; [done|].
      apply list_elem_of_In, List.filter_In. split.
      * apply list_elem_of_In. by apply elem_of_map_to_list.
      * unfold shown. simpl. rewrite Hc. by apply visible_iff.
Qed.

Lemma X6_get_messages_exact_witness :
  let w := after (sample_calls ++ [CallDelete sample_url "q1" "rh1"]) in
  reachable w ∧
  ∃ l,
    GetMessages "q1" false w = Some (l, w) ∧
    NoDup l ∧
    ∀ p, p ∈ l ↔
      ∃ m c, messages (store w) !! m = Some p ∧ heap w !! p = Some c ∧
             (("q1" : string) = "" ∨ QueueName c = "q1") ∧
             (false = true ∨ Deleted c = false).
Proof.
  intros w.
  assert (Hr : reachable w) by apply reachable_after.
  split; [exact Hr|]. exact (X6_get_messages_exact "q1" false w Hr).
Defined.

(** ** Identifiers below the surrogate range *)

Lemma ascii_compare_refl c : Ascii.compare c c = Eq.
Proof. unfold Ascii.compare. apply N.compare_refl. Qed.

Lemma compare_prefix t a b :
  String.compare (t +:+ a) (t +:+ b) = String.compare a b.
Proof.
  induction t as [|c t IH]; [done|]. simpl. by rewrite ascii_compare_refl.
Qed.

Lemma string_compare_refl a : String.compare a a = Eq.
Proof.
  induction a as [|c a IH]; [done|]. simpl. by rewrite ascii_compare_refl.
Qed.

Lemma string_lt_prefix t a b :
  string_lt (t +:+ a) (t +:+ b) = string_lt a b.
Proof. unfold string_lt. by rewrite compare_prefix. Qed.

Lemma rune_small x : -2 ^ 31 <= x < 2 ^ 31 → Go.rune x = x.
Proof.
  intros H. unfold Go.rune, Go.wrap. rewrite Z.mod_small; lia.
Qed.

Lemma increasing_from_spec n c k :
  increasing_from n c = true → c <= k < c + Z.of_nat n →
  string_lt (Go.string_of_rune (k + 1)) (Go.string_of_rune (k + 2)) = true.
Proof.
  revert c. induction n as [|n IH]; intros c Hall Hk; [lia|].
  cbn [increasing_from] in Hall. apply andb_true_iff in Hall as [H0 Hall].
  destruct (decide (k = c)) as [->|Hne]; [done|].
  apply (IH (c + 1)); [done | lia].
Qed.

Lemma increasing_checked : increasing_from (Z.to_nat 55295) 0 = true.
Proof. vm_compute. reflexivity. Qed.

(** X8: while the counter has not reached the surrogate range,
    identifiers increase: two consecutive calls of [generateID] within
    one second, the first of them with the counter at most 55294, return
    identifiers of which the second is the greater in byte order (so they
    differ). *)
Theorem X8_ids_increase_below_surrogates (w : World) :
  0 <= idCounter w <= 55294 →
  Go.Format_20060102150405 (clock w (ticks w))
    = Go.Format_20060102150405 (clock w (S (ticks w))) →
  ∃ id1 w1 id2 w2,
    generateID w = Some (id1, w1) ∧ generateID w1 = Some (id2, w2) ∧
    idCounter w2 = idCounter w + 2 ∧
    string_lt id1 id2 = true ∧ id1 ≠ id2.
Proof.
  intros Hc Ht.
  assert (Hlt : string_lt
            (Go.string_of_rune (Go.rune (Go.int64 (idCounter w + 1))))
            (Go.string_of_rune
               (Go.rune (Go.int64 (Go.int64 (idCounter w + 1) + 1)))) = true).
  { rewrite (int64_small (idCounter w + 1)) by lia.
    rewrite (int64_small (idCounter w + 1 + 1)) by lia.
    rewrite !rune_small by lia.
    replace (idCounter w + 1 + 1) with (idCounter w + 2) by lia.
    apply (increasing_from_spec _ 0 _ increasing_checked). lia. }
  eexists _, _, _, _. split; [reflexivity|]. split; [reflexivity|].
  cbn [idCounter]. split.
  { rewrite !int64_small; [lia | lia |]. rewrite int64_small; lia. }
  assert (Hlt' : string_lt
    (Go.Format_20060102150405 (clock w (ticks w)) +:+ "-" +:+
       Go.string_of_rune (Go.rune (Go.int64 (idCounter w + 1))))
    (Go.Format_20060102150405 (clock w (S (ticks w))) +:+ "-" +:+
       Go.string_of_rune
         (Go.rune (Go.int64 (Go.int64 (idCounter w + 1) + 1)))) = true).
  { rewrite <- Ht. rewrite string_lt_prefix.
    by rewrite (string_lt_prefix "-"). }
  split; [exact Hlt'|].
  intros Heq. cbn [clock ticks] in Heq. rewrite Heq in Hlt'.
  unfold string_lt in Hlt'. by rewrite string_compare_refl in Hlt'.
Qed.

Lemma X8_ids_increase_below_surrogates_witness :
  let w := initial noon in
  0 <= idCounter w <= 55294 ∧
  Go.Format_20060102150405 (clock w (ticks w))
    = Go.Format_20060102150405 (clock w (S (ticks w))) ∧
  ∃ id1 w1 id2 w2,
    generateID w = Some (id1, w1) ∧ generateID w1 = Some (id2, w2) ∧
    idCounter w2 = idCounter w + 2 ∧
    string_lt id1 id2 = true ∧ id1 ≠ id2.
Proof.
  intros w.
  assert (Hc : 0 <= idCounter w <= 55294) by (simpl; lia).
  assert (Ht : Go.Format_20060102150405 (clock w (ticks w))
               = Go.Format_20060102150405 (clock w (S (ticks w))))
    by reflexivity.
  split; [exact Hc|]. split; [exact Ht|].
  exact (X8_ids_increase_below_surrogates w Hc Ht).
Defined.

(** ** The queue URL of a statistics entry *)

Lemma tally_snoc es e stats :
  tally (es ++ [e]) stats = count_event e (tally es stats).
Proof. unfold tally. by rewrite foldl_app. Qed.

Lemma tally_first_url es q :
  match tally es ∅ !! q with
  | None => ∀ e, e ∈ es → QueueName e ≠ q
  | Some st =>
      qsQueueName st = q ∧
      ∃ before e after,
        es = before ++ e :: after ∧ QueueName e = q ∧
        (∀ e', e' ∈ before → QueueName e' ≠ q) ∧
        qsQueueURL st = QueueURL e
  end.
Proof.
  induction es as [|e es IH] using rev_ind.
  - simpl. unfold tally. simpl. rewrite lookup_empty. by intros e ?%elem_of_nil.
  - rewrite tally_snoc. set (stats := tally es ∅) in *.
    assert (Hinc : ∀ stats0 : gmap string QueueStats,
      match count_event e stats !! q with
      | None => ∀ e0, e0 ∈ es ++ [e] → QueueName e0 ≠ q
      | Some st =>
          qsQueueName st = q ∧
          ∃ before e0 after,
            es ++ [e] = before ++ e0 :: after ∧ QueueName e0 = q ∧
            (∀ e', e' ∈ before → QueueName e' ≠ q) ∧
            qsQueueURL st = QueueURL e0
      end); [|by apply Hinc].
    intros _. unfold count_event.
    set (f := match Action e with
              | ActionSend => incSent
              | ActionReceive => incReceived
              | ActionDelete => incDeleted
              end).
    assert (Hf : ∀ st, qsQueueName (f st) = qsQueueName st ∧
                       qsQueueURL (f st) = qsQueueURL st)
      by (intros st; unfold f; by destruct (Action e)).
    assert (Halter : ∀ m : gmap string QueueStats,
              match Action e with
              | ActionSend => alter incSent (QueueName e) m
              | ActionReceive => alter incReceived (QueueName e) m
              | ActionDelete => alter incDeleted (QueueName e) m
              end = alter f (QueueName e) m)
      by (intros m; unfold f; by destruct (Action e)).
    rewrite Halter. clear Halter.
    destruct (decide (QueueName e = q)) as [Hq|Hq].
    + rewrite <- Hq in IH |- *. rewrite lookup_alter_eq.
      destruct (stats !! QueueName e) as [st|] eqn:Hst.
      * rewrite Hst. simpl. destruct (Hf st) as [-> ->].
        destruct IH as (Hn & before & e0 & after & -> & He0 & Hb & Hu).
        split; [done|]. exists before, e0, (after ++ [e]).
        by rewrite <- app_assoc.
      * rewrite lookup_insert_eq. simpl. destruct (Hf
          (mkQueueStats (QueueName e) (QueueURL e) 0 0 0 0)) as [-> ->].
        split; [done|]. by exists es, e, [].
    + rewrite lookup_alter_ne by done.
      assert (Hsame : (match stats !! QueueName e with
                       | Some _ => stats
                       | None => <[QueueName e :=
                           mkQueueStats (QueueName e) (QueueURL e) 0 0 0 0]>
                                   stats
                       end) !! q = stats !! q).
      { destruct (stats !! QueueName e); [done|].
        by rewrite lookup_insert_ne. }
      rewrite Hsame. destruct (stats !! q) as [st|].
      * destruct IH as (Hn & before & e0 & after & -> & He0 & Hb & Hu).
        split; [done|]. exists before, e0, (after ++ [e]).
        by rewrite <- app_assoc.
      * intros e0 [H0|H0]%elem_of_app; [by apply IH|].
        apply list_elem_of_singleton in H0 as ->. done.
Qed.

(** X24: the queue URL [GetQueueStats] reports for a queue name is the
    URL of the earliest history event recorded under that name; the
    URLs of later events with the same name do not show. *)
Theorem X24_stats_url_of_first_event (w : World) :
  reachable w →
  ∃ l,
    GetQueueStats w = Some (l, w) ∧
    ∀ st, st ∈ l →
      ∃ before e after,
        events w = before ++ e :: after ∧
        QueueName e = qsQueueName st ∧
        (∀ e', e' ∈ before → QueueName e' ≠ qsQueueName st) ∧
        qsQueueURL st = QueueURL e.
Proof.
  intros Hw%reachable_wf.
  destruct (count_events_spec (history (store w)) ∅ w (wf_history _ Hw))
    as [Hce _].
  destruct (pending_loop_spec w (map_to_list (queues (store w)))
              (tally (events w) ∅) Hw (NoDup_fst_map_to_list _))
    as (stats & Hpl & Hlk).
  exists (map_to_list stats).*2. split.
  { unfold GetQueueStats, mbind, M_bind, getStore. rewrite Hce.
    fold (events w). by rewrite Hpl. }
  intros st ([q st'] & Heq & Hin%elem_of_map_to_list)%list_elem_of_fmap.
  simpl in Heq. subst st'. rewrite Hlk in Hin.
  pose proof (tally_first_url (events w) q) as Ht.
  destruct (tally (events w) ∅ !! q) as [st0|]; [|done].
  simpl in Hin. injection Hin as <-.
  destruct Ht as (Hn & before & e & after & He & Hq & Hb & Hu).
  assert (Hkeep : qsQueueName (set_pending w
                    (list_to_map (map_to_list (queues (store w)))) q st0)
                  = qsQueueName st0 ∧
                  qsQueueURL (set_pending w
                    (list_to_map (map_to_list (queues (store w)))) q st0)
                  = qsQueueURL st0).
  { unfold set_pending. by destruct (_ !! q). }
  destruct Hkeep as [-> ->]. rewrite Hn.
  by exists before, e, after.
Qed.

Lemma X24_stats_url_of_first_event_witness :
  let w := after [CallSend "http://a/q" "q" "m1" "x" ∅;
                  CallSend "http://b/q" "q" "m2" "y" ∅] in
  reachable w ∧
  ∃ st, GetQueueStats w = Some ([st], w) ∧ qsQueueURL st = "http://a/q".
Proof.
  intros w.
  assert (Hw : reachable w) by apply reachable_after.
  split; [exact Hw|].
  destruct (X24_stats_url_of_first_event w Hw) as (l & Hl & Hurl).
  assert (Hev : ∃ e1 e2, events w = [e1; e2] ∧
                  QueueName e1 = "q" ∧ QueueURL e1 = "http://a/q")
    by (eexists _, _; split; [vm_compute; reflexivity | by split]).
  assert (Hlen : ∃ st, l = [st] ∧ qsQueueName st = "q").
  { assert (Hrun : ∃ st, GetQueueStats w = Some ([st], w) ∧
                         qsQueueName st = "q")
      by (eexists; split; vm_compute; reflexivity).
    destruct Hrun as (st & Hrun & Hn). exists st. split; [congruence|done]. }
  clearbody w.
  destruct Hlen as (st & -> & Hn). exists st. split; [exact Hl|].
  destruct (Hurl st) as (before & e & after & He & Hq & Hb & ->); [by left|].
  destruct Hev as (e1 & e2 & Hev & Hq1 & Hu1). rewrite Hev in He.
  destruct before as [|b before].
  - injection He as <- _. exact Hu1.
  - injection He as <- _. exfalso. apply (Hb e1); [by left | congruence].
Defined.
(** ** More on the codec *)

(** *** [extractQueueName] *)

Lemma Split_shape sep s :
  ∃ seg segs, Proxy.Split sep s = seg :: segs ∧
    ((segs = [] ∧ s = seg) ∨
     (∃ n pre, last segs = Some n ∧ s = pre +:+ String sep n)) ∧
    ∀ n, last (seg :: segs) = Some n →
         all_bytes (λ c, negb (Ascii.eqb c sep)) n = true.
Proof.
  induction s as [|c s (seg & segs & Hs & Hshape & Hlast)].
  - exists "", []. split; [done|]. split; [by left|]. by intros n [= <-].
  - simpl. destruct (Ascii.eqb c sep) eqn:Hc.
    + apply Ascii.eqb_eq in Hc as ->. rewrite Hs.
      exists "", (seg :: segs). split; [done|]. split.
      * right. destruct Hshape as [[-> ->]|(n & pre & Hn & ->)].
        -- exists seg, "". by split.
        -- exists n, (String sep pre). split; [|by sapp].
           by rewrite last_cons, Hn.
      * intros n Hn. apply Hlast. rewrite last_cons in Hn.
        destruct (last (seg :: segs)) as [y|] eqn:Hy; [done|].
        rewrite last_cons in Hy. by destruct (last segs).
    + rewrite Hs. exists (String c seg), segs. split; [done|]. split.
      * destruct Hshape as [[-> ->]|(n & pre & Hn & ->)]; [by left|].
        right. exists n, (String c pre). split; [done | by sapp].
      * intros n. destruct segs as [|s1 segs].
        -- intros [= <-]. simpl. rewrite Hc. simpl. by apply Hlast.
        -- rewrite last_cons. intros Hn. apply Hlast. rewrite last_cons.
           destruct (last (s1 :: segs)) as [y|] eqn:Hy; [done|].
           rewrite last_cons in Hy. by destruct (last segs).
Qed.

(** X10: the queue name is what follows the last [/] of the queue URL,
    and the whole URL when it has none; it never holds a [/] (a URL that
    ends in [/] has the empty queue name). *)
Theorem X10_queue_name_is_last_segment (queueURL : string) :
  let name := Proxy.extractQueueName queueURL in
  all_bytes not_slash name = true ∧
  ((queueURL = name) ∨ ∃ pre, queueURL = pre +:+ "/" +:+ name) ∧
  (all_bytes not_slash queueURL = true → name = queueURL) ∧
  (∀ pre n, all_bytes not_slash n = true →
     Proxy.extractQueueName (pre +:+ "/" +:+ n) = n).
Proof.
  assert (Hgen : ∀ url,
    all_bytes not_slash (Proxy.extractQueueName url) = true ∧
    ((url = Proxy.extractQueueName url) ∨
     ∃ pre, url = pre +:+ "/" +:+ Proxy.extractQueueName url)).
  { intros url. unfold Proxy.extractQueueName.
    destruct (Split_shape "/" url) as (seg & segs & -> & Hshape & Hlast).
    destruct Hshape as [[-> ->]|(n & pre & Hn & ->)].
    - simpl. split; [by apply Hlast | by left].
    - rewrite last_cons, Hn. split.
      + apply Hlast. by rewrite last_cons, Hn.
      + right. by exists pre. }
  assert (Huniq : ∀ pre n pre' n',
    all_bytes not_slash n = true → all_bytes not_slash n' = true →
    pre +:+ "/" +:+ n = pre' +:+ "/" +:+ n' → n = n').
  { intros pre. induction pre as [|a pre IH]; intros n pre' n' Hn Hn' Heq.
    - destruct pre' as [|b pre']; sapp.
      + by injection Heq.
      + injection Heq as <- Heq. subst n. rewrite all_bytes_app in Hn.
        sapp. simpl in Hn. apply andb_true_iff in Hn as [_ Hn]. done.
    - destruct pre' as [|b pre']; sapp.
      + injection Heq as -> Heq. subst n'. rewrite all_bytes_app in Hn'.
        sapp. simpl in Hn'. apply andb_true_iff in Hn' as [_ Hn']. done.
      + injection Heq as <- Heq. by apply (IH n pre' n'). }
  intros name. destruct (Hgen queueURL) as [Hname Hshape].
  split; [done|]. split; [done|]. split.
  - intros Hurl. destruct Hshape as [->|[pre Hpre]]; [done|].
    rewrite Hpre, all_bytes_app in Hurl. sapp. simpl in Hurl.
    apply andb_true_iff in Hurl as [_ Hurl]. done.
  - intros pre n Hn. destruct (Hgen (pre +:+ "/" +:+ n)) as [Hn' [Heq|[pre' Heq]]].
    + rewrite <- Heq, all_bytes_app in Hn'. sapp. simpl in Hn'.
      apply andb_true_iff in Hn' as [_ Hn']. done.
    + symmetry. by apply (Huniq pre n pre' _ Hn Hn').
Qed.

Lemma X10_queue_name_is_last_segment_witness :
  Proxy.extractQueueName "http://localhost:4566/000000000000/orders"
    = "orders" ∧
  Proxy.extractQueueName "orders" = "orders" ∧
  Proxy.extractQueueName "http://x/q1/" = "".
Proof.
  destruct (X10_queue_name_is_last_segment "orders") as (_ & _ & H1 & H2).
  split; [exact (H2 "http://localhost:4566/000000000000" "orders" eq_refl)|].
  split; [exact (H1 eq_refl)|].
  exact (H2 "http://x/q1" "" eq_refl).
Defined.

(** *** Form fields *)

(** X12: for a field name of letters and digits, [parseFormField]
    gives the empty string for a body without [field=] followed by a
    byte other than [&].  Otherwise it gives, percent-decoded, the bytes
    up to the next [&] or the end of the body that follow the leftmost
    place where [field=] and a byte other than [&] stand, wherever that
    place is, also at the end of a longer key; every body that has such
    a place is of this form.  For a body that starts with the field this
    is the value of the field. *)
Theorem X12_form_field (field : string) (Hfield : literal field = true) :
  (∀ body, ¬ has_field field body → Proxy.parseFormField body field = "") ∧
  (∀ v rest, v ≠ "" → all_bytes Proxy.not_amp v = true →
     stops Proxy.not_amp rest = true →
     Proxy.parseFormField (field +:+ "=" +:+ v +:+ rest) field
       = Proxy.unescaped v) ∧
  (∀ pre v rest,
     ¬ has_field field (pre +:+ field +:+ "=") →
     v ≠ "" → all_bytes Proxy.not_amp v = true →
     stops Proxy.not_amp rest = true →
     Proxy.parseFormField (pre +:+ (field +:+ "=") +:+ v +:+ rest) field
       = Proxy.unescaped v) ∧
  (∀ body, has_field field body →
     ∃ pre v rest,
       body = pre +:+ (field +:+ "=") +:+ v +:+ rest ∧
       ¬ has_field field (pre +:+ field +:+ "=") ∧
       v ≠ "" ∧ all_bytes Proxy.not_amp v = true ∧
       stops Proxy.not_amp rest = true ∧
       Proxy.parseFormField body field = Proxy.unescaped v).
Proof.
  assert (Hleft : ∀ pre v rest,
            ¬ has_field field (pre +:+ field +:+ "=") →
            v ≠ "" → all_bytes Proxy.not_amp v = true →
            stops Proxy.not_amp rest = true →
            Proxy.parseFormField (pre +:+ (field +:+ "=") +:+ v +:+ rest) field
            = Proxy.unescaped v).
  { intros pre v rest Hno Hne Hv Hrest. unfold Proxy.parseFormField.
    by rewrite (field_leftmost field pre v rest Hno Hne Hv Hrest). }
  split; [|split; [|split; [exact Hleft|]]].
  - intros body Hno%FindStringSubmatch_field_None.
    unfold Proxy.parseFormField. by rewrite Hno.
  - intros v rest Hne Hv Hrest.
    assert (Hshape : field +:+ "=" +:+ v +:+ rest
                     = "" +:+ (field +:+ "=") +:+ v +:+ rest)
      by (by rewrite sapp_nil_l, sapp_assoc).
    rewrite Hshape. apply Hleft; try done.
    intros (p' & c & r' & Heq & _). apply (f_equal String.length) in Heq.
    rewrite !length_sapp in Heq. simpl in Heq. lia.
  - intros body Hhas.
    destruct (has_field_leftmost field body Hhas)
      as (pre & v & rest & Hb & Hno & Hne & Hv & Hrest).
    exists pre, v, rest. split; [exact Hb|]. split; [exact Hno|].
    split; [exact Hne|]. split; [exact Hv|]. split; [exact Hrest|].
    rewrite Hb. by apply Hleft.
Qed.

Lemma X12_form_field_witness :
  Proxy.parseFormField form_send "ReceiptHandle" = "" ∧
  Proxy.parseFormField ("QueueUrl" +:+ "=" +:+ "http%3A%2F%2Fx%2Fq1"
                          +:+ "&MessageBody=hi") "QueueUrl" = "http://x/q1" ∧
  ¬ has_field "QueueUrl" ("Action=SendMessage&" +:+ "QueueUrl" +:+ "=") ∧
  Proxy.parseFormField form_send "QueueUrl" = "http://x/q1" ∧
  ¬ has_field "Url" ("Action=SendMessage&Queue" +:+ "Url" +:+ "=") ∧
  Proxy.parseFormField form_send "Url" = "http://x/q1".
Proof.
  destruct (X12_form_field "ReceiptHandle" eq_refl) as (H1 & _).
  destruct (X12_form_field "QueueUrl" eq_refl) as (_ & H2 & H3 & _).
  destruct (X12_form_field "Url" eq_refl) as (_ & _ & H4 & _).
  assert (Hq : ¬ has_field "QueueUrl"
                 ("Action=SendMessage&" +:+ "QueueUrl" +:+ "="))
    by (apply FindStringSubmatch_field_None; vm_compute; reflexivity).
  assert (Hu : ¬ has_field "Url"
                 ("Action=SendMessage&Queue" +:+ "Url" +:+ "="))
    by (apply FindStringSubmatch_field_None; vm_compute; reflexivity).
  split; [|split; [|split; [exact Hq|split; [|split; [exact Hu|]]]]].
  - apply H1. apply FindStringSubmatch_field_None. vm_compute. reflexivity.
  - exact (H2 "http%3A%2F%2Fx%2Fq1" "&MessageBody=hi" ltac:(discriminate)
             eq_refl eq_refl).
  - exact (H3 "Action=SendMessage&" "http%3A%2F%2Fx%2Fq1" "&MessageBody=hi"
             Hq ltac:(discriminate) eq_refl eq_refl).
  - exact (H4 "Action=SendMessage&Queue" "http%3A%2F%2Fx%2Fq1"
             "&MessageBody=hi" Hu ltac:(discriminate) eq_refl eq_refl).
Defined.

(** *** [url.QueryUnescape] *)

Lemma QueryUnescape_plain s :
  all_bytes plain s = true → Proxy.QueryUnescape s = Some s.
Proof.
  induction s as [|c s IH]; [done|]. simpl. unfold plain at 1.
  intros [[Hp Hq]%andb_true_iff Hs]%andb_true_iff.
  apply negb_true_iff in Hp, Hq. rewrite Hp, Hq. by rewrite (IH Hs).
Qed.

Lemma QueryUnescape_bad pre rest :
  escape_ok rest = false → Proxy.QueryUnescape (pre +:+ "%" +:+ rest) = None.
Proof.
  intros Hbad.
  assert (H0 : Proxy.QueryUnescape (String "%" rest) = None).
  { simpl. destruct rest as [|h1 [|h2 rest]]; [done..|]. simpl in Hbad.
    by destruct (Proxy.unhex h1), (Proxy.unhex h2). }
  assert (Hgen : ∀ n pre, (String.length pre <= n)%nat →
            Proxy.QueryUnescape (pre +:+ "%" +:+ rest) = None).
  { clear pre. intros n. induction n as [|n IH]; intros pre Hn.
    - destruct pre; [exact H0 | simpl in Hn; lia].
    - destruct pre as [|c pre]; [exact H0|]. sapp.
      cbn [Proxy.QueryUnescape]. destruct (Ascii.eqb c "%") eqn:Hc.
      + destruct pre as [|h1 [|h2 pre]]; sapp.
        * by destruct rest.
        * destruct (Proxy.unhex h1); [|done]. done.
        * destruct (Proxy.unhex h1); [|done].
          destruct (Proxy.unhex h2); [|done].
          rewrite IH; [done|]. simpl in Hn. lia.
      + rewrite IH; [done|]. simpl in Hn. lia. }
  by apply (Hgen (String.length pre)).
Qed.

(** X13: [QueryUnescape] returns a value without [%] and [+] as it is,
    and fails on every value in which some [%] is not followed by two
    hexadecimal digits, wherever it stands; [parseFormField] and the
    attribute extraction then take the empty string for the value. *)
Theorem X13_query_unescape (s : string) :
  (all_bytes plain s = true →
     Proxy.QueryUnescape s = Some s ∧ Proxy.unescaped s = s) ∧
  (∀ pre rest, s = pre +:+ "%" +:+ rest → escape_ok rest = false →
     Proxy.QueryUnescape s = None ∧ Proxy.unescaped s = "").
Proof.
  split.
  - intros Hs. unfold Proxy.unescaped. by rewrite QueryUnescape_plain.
  - intros pre rest -> Hbad. unfold Proxy.unescaped.
    by rewrite QueryUnescape_bad.
Qed.

Lemma X13_query_unescape_witness :
  Proxy.unescaped "q1" = "q1" ∧
  Proxy.unescaped "50%25%2" = "" ∧
  Proxy.unescaped "a+b%3D%7e" = "a b=~".
Proof.
  split; [|split].
  - exact (proj2 (proj1 (X13_query_unescape "q1") eq_refl)).
  - exact (proj2 (proj2 (X13_query_unescape "50%25%2") "50%25" "2"
                    eq_refl eq_refl)).
  - vm_compute. reflexivity.
Defined.

(** ** The handlers of [modifyResponse] *)

Lemma Contains_false s sub :
  Proxy.Contains s sub = false →
  ∀ pre suf, s = pre +:+ suf → Proxy.strip_prefix sub suf = None.
Proof.
  induction s as [|a s IH]; intros Hc pre suf Hs.
  - destruct pre; [|done]. sapp. subst suf. simpl in Hc.
    unfold Proxy.HasPrefix in Hc.
    by destruct (Proxy.strip_prefix sub "").
  - cbn [Proxy.Contains] in Hc. unfold Proxy.HasPrefix in Hc.
    destruct (Proxy.strip_prefix sub (String a s)) eqn:Hp; [done|].
    destruct pre as [|b pre]; sapp; [by subst|].
    injection Hs as -> Hs. by apply (IH Hc pre).
Qed.

Lemma strip_prefix_app_None p q s :
  Proxy.strip_prefix p s = None → Proxy.strip_prefix (p +:+ q) s = None.
Proof.
  revert s. induction p as [|a p IH]; intros s; [done|]. sapp.
  destruct s as [|b s]; [done|]. simpl.
  destruct (Ascii.eqb a b); [apply IH | done].
Qed.

Lemma extractXMLTag_absent xml tag :
  Proxy.Contains xml ("<" +:+ tag +:+ ">") = false →
  Proxy.extractXMLTag xml tag = "".
Proof.
  intros Hc. unfold Proxy.extractXMLTag.
  assert (Proxy.FindStringSubmatch (Proxy.tag_at tag) xml = None) as ->; [|done].
  apply FindStringSubmatch_None. intros pre suf Hs. unfold Proxy.tag_at.
  by rewrite (Contains_false _ _ Hc pre suf Hs).
Qed.

Lemma FindAllStringSubmatch_none {A} (re : string → option (A * string)) s :
  (∀ pre suf, s = pre +:+ suf → re suf = None) →
  ∀ skip, Proxy.FindAllStringSubmatch_from re s skip = [].
Proof.
  induction s as [|a s IH]; intros Hre skip; [by destruct skip|].
  assert (Hs : ∀ pre suf, s = pre +:+ suf → re suf = None).
  { intros pre suf ->. by apply (Hre (String a pre)). }
  destruct skip as [|skip]; cbn [Proxy.FindAllStringSubmatch_from].
  - rewrite (Hre "" (String a s) eq_refl). by apply IH.
  - by apply IH.
Qed.

Lemma extractAllXMLTags_absent xml tag :
  Proxy.Contains xml ("<" +:+ tag +:+ ">") = false →
  Proxy.extractAllXMLTags xml tag = [].
Proof.
  intros Hc. apply FindAllStringSubmatch_none. intros pre suf Hs.
  unfold Proxy.tag_at. by rewrite (Contains_false _ _ Hc pre suf Hs).
Qed.

Lemma parseReceiveMessageResponseXML_absent xml :
  Proxy.Contains xml "<Message>" = false →
  Proxy.parseReceiveMessageResponseXML xml = [].
Proof.
  intros Hc. unfold Proxy.parseReceiveMessageResponseXML, Proxy.FindAllStringSubmatch.
  rewrite FindAllStringSubmatch_none; [done|]. intros pre suf Hs.
  unfold Proxy.block_at. by rewrite (Contains_false _ _ Hc pre suf Hs).
Qed.

Lemma batch_entries_absent body :
  Proxy.Contains body "DeleteMessageBatchRequestEntry." = false →
  Proxy.FindAllStringSubmatch Proxy.batch_entry_at body = [].
Proof.
  intros Hc. apply FindAllStringSubmatch_none. intros pre suf Hs.
  unfold Proxy.batch_entry_at. by rewrite (Contains_false _ _ Hc pre suf Hs).
Qed.

Lemma call_run c w : call c w = run [c] w.
Proof.
  rewrite run_cons. destruct (call c w) as [[[] w']|]; reflexivity.
Qed.

Lemma for_each_run {A} (f : A → M unit) (g : A → Call) l w :
  (∀ x w, f x w = call (g x) w) →
  Proxy.for_each f l w = run (g <$> l) w.
Proof.
  intros Hf. revert w. induction l as [|x l IH]; intros w; [done|].
  rewrite fmap_cons, run_cons. cbn [Proxy.for_each].
  unfold mbind, M_bind. rewrite Hf.
  destruct (call (g x) w) as [[[] w']|]; [apply IH | done].
Qed.


(** Runs of sends and of receives. *)
Lemma run_sends u q b a ids (w : World) :
  wf w →
  ∃ w', run ((λ m, CallSend u q m b a) <$> ids) w = Some (tt, w') ∧
    wf w' ∧
    (∀ m, m ∈ ids →
       ∃ id t, current_state w' m = Some (sent id t u q m b a)) ∧
    (∀ m, m ∉ ids → current_state w' m = current_state w m) ∧
    (∀ k q', k ∈ members w q' ∨ (q' = q ∧ k ∈ ids) ↔ k ∈ members w' q') ∧
    receipts (store w') = receipts (store w) ∧
    length (history (store w'))
      = (length (history (store w)) + length ids)%nat.
Proof.
  revert w. induction ids as [|m0 ids IH]; intros w Hw.
  - exists w. split; [done|]. split; [done|]. split.
    { by intros m ?%elem_of_nil. }
    split; [done|]. split; [|by rewrite Nat.add_0_r].
    intros k q'. split; [intros [?|[_ ?%elem_of_nil]]; done | by left].
  - rewrite fmap_cons, run_cons. cbn [call].
    destruct (RecordSend u q m0 b a w) as [[[] w1]|] eqn:Hsend;
      [|by rewrite RecordSend_step in Hsend].
    pose proof (wf_RecordSend _ _ _ _ _ _ _ Hw Hsend) as Hw1.
    destruct (IH w1 Hw1) as (w' & Hrun & Hw' & Hin & Hout & Hmem & Hrec & Hlen).
    exists w'. split; [exact Hrun|]. split; [exact Hw'|].
    rewrite RecordSend_step in Hsend. injection Hsend as <-.
    assert (H1 : current_state
              (mkWorld
                 (heap w ++ [sent (next_id w (ticks w)) (clock w (S (ticks w)))
                               u q m0 b a])
                 (mkStore (<[m0 := length (heap w)]> (messages (store w)))
                    (add_member q m0 (queues (store w)))
                    (history (store w) ++ [length (heap w)])
                    (receipts (store w)))
                 (next_counter w) (clock w) (S (S (ticks w)))) m0
            = Some (sent (next_id w (ticks w)) (clock w (S (ticks w)))
                      u q m0 b a)).
    { unfold current_state. simpl. by rewrite lookup_insert_eq, load_new. }
    split; [|split; [|split; [|split]]].
    + intros m Hm. destruct (decide (m ∈ ids)) as [Hi|Hni]; [by apply Hin|].
      apply elem_of_cons in Hm as [->|?]; [|done].
      rewrite (Hout m0 Hni), H1. by eexists _, _.
    + intros m Hm. apply not_elem_of_cons in Hm as [Hne Hni].
      rewrite (Hout m Hni). unfold current_state. simpl.
      rewrite lookup_insert_ne by done.
      destruct (messages (store w) !! m) as [p|] eqn:Hp; [|done].
      destruct (wf_messages _ Hw m p Hp) as (c & Hc & _).
      by rewrite Hc, (lookup_app_l_Some _ _ _ _ Hc).
    + intros k q'. rewrite <- Hmem. unfold members at 2. simpl.
      rewrite members_add, elem_of_cons. clear. intuition (subst; auto).
    + by rewrite Hrec.
    + rewrite Hlen. simpl. rewrite length_app. simpl. lia.
Qed.

Lemma run_receives u q (msgs : list Proxy.receivedMessage) (w : World) :
  wf w →
  ∃ w',
    run ((λ msg, CallReceive u q (Proxy.MessageID msg)
                   (Proxy.ReceiptHandle msg) (Proxy.Body msg)
                   (Proxy.Attributes msg)) <$> msgs) w = Some (tt, w') ∧
    wf w' ∧
    (∀ m c0, current_state w m = Some c0 → current_state w' m = Some c0) ∧
    (∀ msg, msg ∈ msgs →
       ∃ c, current_state w' (Proxy.MessageID msg) = Some c ∧
            MessageID c = Proxy.MessageID msg) ∧
    (∀ m, m ∉ Proxy.MessageID <$> msgs →
          current_state w' m = current_state w m) ∧
    (∀ msg, msg ∈ msgs →
       ∃ msg', msg' ∈ msgs ∧
         Proxy.ReceiptHandle msg' = Proxy.ReceiptHandle msg ∧
         receipts (store w') !! Proxy.ReceiptHandle msg
           = Some (Proxy.MessageID msg')) ∧
    (∀ rh, rh ∉ Proxy.ReceiptHandle <$> msgs →
           receipts (store w') !! rh = receipts (store w) !! rh) ∧
    length (history (store w'))
      = (length (history (store w)) + length msgs)%nat.
Proof.
  revert w. induction msgs as [|msg0 msgs IH]; intros w Hw.
  - exists w. split; [done|]. split; [done|]. split; [done|]. split.
    { by intros msg ?%elem_of_nil. }
    split; [done|]. split; [by intros msg ?%elem_of_nil|].
    split; [done|]. by rewrite Nat.add_0_r.
  - rewrite fmap_cons, run_cons. cbn [call].
    set (m0 := Proxy.MessageID msg0). set (rh0 := Proxy.ReceiptHandle msg0).
    set (b0 := Proxy.Body msg0). set (a0 := Proxy.Attributes msg0).
    destruct (call_total (CallReceive u q m0 rh0 b0 a0) w Hw)
      as (w1 & Hcall & Hw1).
    cbn [call] in Hcall. rewrite Hcall.
    destruct (IH w1 Hw1)
      as (w' & Hrun & Hw' & Hkeep & Hin & Hout & Hrcp & Hfr & Hlen).
    exists w'. split; [exact Hrun|]. split; [exact Hw'|].
    assert (H1 : (∀ m c0, current_state w m = Some c0 →
                          current_state w1 m = Some c0) ∧
                 (∃ c, current_state w1 m0 = Some c ∧ MessageID c = m0) ∧
                 (∀ m, m ≠ m0 → current_state w1 m = current_state w m) ∧
                 receipts (store w1) = <[rh0 := m0]> (receipts (store w)) ∧
                 length (history (store w1))
                   = S (length (history (store w)))).
    { destruct (messages (store w) !! m0) as [p|] eqn:Hp.
      - rewrite (RecordReceive_known _ _ _ _ _ _ _ p Hp) in Hcall.
        injection Hcall as <-.
        assert (Hcs : ∀ m, current_state
           (mkWorld
              (heap w ++ [received (next_id w (ticks w))
                            (clock w (S (ticks w))) u q m0 rh0 b0 a0])
              (mkStore (messages (store w)) (queues (store w))
                 (history (store w) ++ [length (heap w)])
                 (<[rh0 := m0]> (receipts (store w))))
              (next_counter w) (clock w) (S (S (ticks w)))) m
           = current_state w m) by (intros m; by eapply current_state_alloc).
        split; [intros m c0; by rewrite Hcs|]. split.
        { rewrite Hcs. destruct (wf_messages _ Hw m0 p Hp) as (c & Hc & Hid).
          exists c. unfold current_state. by rewrite Hp. }
        split; [intros m _; apply Hcs|]. split; [done|].
        simpl. rewrite length_app. simpl. lia.
      - rewrite (RecordReceive_fresh _ _ _ _ _ _ _ Hp) in Hcall.
        injection Hcall as <-.
        assert (Hne : ∀ m, m ≠ m0 → current_state
           (mkWorld
              ((heap w ++ [received (next_id w (ticks w))
                             (clock w (S (ticks w))) u q m0 rh0 b0 a0])
                 ++ [received (next_id w (ticks w))
                       (clock w (S (S (ticks w)))) u q m0 rh0 b0 a0])
              (mkStore (<[m0 := S (length (heap w))]> (messages (store w)))
                 (add_member q m0 (queues (store w)))
                 (history (store w) ++ [length (heap w)])
                 (<[rh0 := m0]> (receipts (store w))))
              (next_counter w) (clock w) (S (S (S (ticks w))))) m
           = current_state w m).
        { intros m Hm. unfold current_state. simpl.
          rewrite lookup_insert_ne by done.
          destruct (messages (store w) !! m) as [pm|] eqn:Hpm; [|done].
          destruct (wf_messages _ Hw m pm Hpm) as (c & Hc & _).
          rewrite Hc.
          by rewrite (lookup_app_l_Some _ _ _ _ (lookup_app_l_Some _ _ _ _ Hc)). }
        split.
        { intros m c0 Hc0. rewrite Hne; [done|]. intros ->.
          unfold current_state in Hc0. by rewrite Hp in Hc0. }
        split.
        { eexists. unfold current_state. simpl. rewrite lookup_insert_eq.
          replace (S (length (heap w))) with (length (heap w ++
            [received (next_id w (ticks w)) (clock w (S (ticks w)))
               u q m0 rh0 b0 a0])) by (rewrite length_app; simpl; lia).
          rewrite load_new. by split. }
        split; [exact Hne|]. split; [done|].
        simpl. rewrite length_app. simpl. lia. }
    destruct H1 as (Hkeep1 & (c1 & Hc1 & Hid1) & Hne1 & Hrcp1 & Hlen1).
    split; [|split; [|split; [|split; [|split]]]].
    + intros m c0 Hc0. by apply Hkeep, Hkeep1.
    + intros msg [->|Hmsg]%elem_of_cons; [|by apply Hin].
      exists c1. split; [|done]. by apply Hkeep.
    + intros m Hm. rewrite fmap_cons in Hm.
      apply not_elem_of_cons in Hm as [Hne Hni].
      rewrite (Hout m Hni). by apply Hne1.
    + intros msg Hmsg.
      destruct (decide (Proxy.ReceiptHandle msg ∈ Proxy.ReceiptHandle <$> msgs))
        as [Hi|Hni].
      * apply list_elem_of_fmap in Hi as (msg1 & Heq & Hmsg1).
        destruct (Hrcp msg1 Hmsg1) as (msg' & Hmsg' & Hrh & Hlook).
        exists msg'. split; [by apply elem_of_cons; right|].
        rewrite Heq. by split; [congruence|].
      * apply elem_of_cons in Hmsg as [->|Hmsg].
        -- exists msg0. split; [by apply elem_of_cons; left|]. split; [done|].
           rewrite (Hfr _ Hni), Hrcp1. by rewrite lookup_insert_eq.
        -- exfalso. apply Hni. apply list_elem_of_fmap. by exists msg.
    + intros rh Hrh. rewrite fmap_cons in Hrh.
      apply not_elem_of_cons in Hrh as [Hne Hni].
      rewrite (Hfr rh Hni), Hrcp1. by rewrite lookup_insert_ne.
    + rewrite Hlen, Hlen1. simpl. lia.
Qed.
Section Handlers.

Variable Unmarshal : string → option (gmap string Proxy.JSON).
Variable range_names : gmap string string → list (string * string).

Local Abbreviation modifyResponse :=
  (Proxy.modifyResponse Unmarshal range_names).

(** The calls of each handler. *)
Lemma modifyResponse_calls reqBody contentType amzTarget body :
  let queueURL := Proxy.parseQueueURL Unmarshal contentType reqBody in
  ∃ cs,
    Forall (λ c, call_queue c
                 = Some (queueURL, Proxy.extractQueueName queueURL)) cs ∧
    ∀ w, modifyResponse reqBody contentType amzTarget body w = run cs w.
Proof.
  intros queueURL. unfold Proxy.modifyResponse.
  change (if Proxy.isJSON contentType
          then Proxy.parseJSONField Unmarshal reqBody "QueueUrl"
          else Proxy.parseFormField reqBody "QueueUrl") with queueURL.
  set (q := Proxy.extractQueueName queueURL).
  destruct (Proxy.dispatch _) as [[| | | |]|].
  - unfold Proxy.onSendMessage.
    set (m := if Proxy.isJSON contentType then _ else _).
    set (b := if Proxy.isJSON contentType then _ else _).
    set (a := Proxy.extractMessageAttributes _ _ _ _).
    clearbody queueURL q m b a. case_bool_decide.
    + exists [CallSend queueURL q m b a].
      split; [by constructor|]. intros w.
      exact (call_run (CallSend queueURL q m b a) w).
    + by exists [].
  - unfold Proxy.onSendMessageBatch.
    eexists (_ <$> _). split; [|intros w; by apply for_each_run
      with (g := λ m, CallSend queueURL q m "[batch message]" ∅)].
    apply Forall_fmap, Forall_forall. by intros.
  - unfold Proxy.onReceiveMessage.
    eexists (_ <$> _). split; [|intros w; by apply for_each_run
      with (g := λ msg, CallReceive queueURL q (Proxy.MessageID msg)
                          (Proxy.ReceiptHandle msg) (Proxy.Body msg)
                          (Proxy.Attributes msg))].
    apply Forall_fmap, Forall_forall. by intros.
  - unfold Proxy.onDeleteMessage.
    set (rh := if Proxy.isJSON contentType then _ else _).
    clearbody queueURL q rh. case_bool_decide.
    + exists [CallDelete queueURL q rh].
      split; [by constructor|]. intros w.
      exact (call_run (CallDelete queueURL q rh) w).
    + by exists [].
  - unfold Proxy.onDeleteMessageBatch.
    eexists (_ <$> _). split; [|intros w; by apply for_each_run
      with (g := CallDelete queueURL q)].
    apply Forall_fmap, Forall_forall. by intros.
  - by exists [].
Qed.

(** X15: whatever the exchange, [modifyResponse] does to the store what
    a sequence of [RecordSend], [RecordReceive] and [RecordDelete] calls
    does, all of them for the queue URL of the request and the name
    taken from it; it never clears the store, and on a store reached by
    recording calls it does not fail and leaves such a store. *)
Theorem X15_modify_response_records reqBody contentType amzTarget body :
  let queueURL := Proxy.parseQueueURL Unmarshal contentType reqBody in
  ∃ cs,
    Forall (λ c, call_queue c
                 = Some (queueURL, Proxy.extractQueueName queueURL)) cs ∧
    Forall (λ c, records c = true) cs ∧
    ∀ w, modifyResponse reqBody contentType amzTarget body w = run cs w ∧
         (reachable w →
            ∃ w', modifyResponse reqBody contentType amzTarget body w
                  = Some (tt, w') ∧ reachable w').
Proof.
  intros queueURL.
  destruct (modifyResponse_calls reqBody contentType amzTarget body)
    as (cs & Hq & Hrun).
  exists cs. split; [exact Hq|]. split.
  { eapply Forall_impl; [exact Hq|]. by intros [] Hc. }
  intros w. split; [apply Hrun|]. intros Hw.
  destruct (run_total cs w (reachable_wf w Hw)) as (w' & Hw' & _).
  exists w'. rewrite Hrun. split; [exact Hw'|].
  by apply (reachable_run cs w).
Qed.

(** X16: what [modifyResponse] does not record.  The store stays as it
    is when the action is none of the five; when the encoding is JSON and
    neither body can be decoded; and, in the Form encoding, for a send
    whose response has no [<MessageId>], a receive whose response has no
    [<Message>], a delete whose request has no receipt handle and a
    batch delete whose request has no entry. *)
Theorem X16_nothing_recorded reqBody contentType amzTarget body (w : World) :
  let action := Proxy.action_of amzTarget reqBody in
  Proxy.dispatch action = None
  ∨ (Proxy.isJSON contentType = true ∧
     Unmarshal reqBody = None ∧ Unmarshal body = None)
  ∨ (Proxy.isJSON contentType = false ∧
     ((action = "SendMessage" ∨ action = "SendMessageBatch") ∧
        Proxy.Contains body "<MessageId>" = false
      ∨ action = "ReceiveMessage" ∧ Proxy.Contains body "<Message>" = false
      ∨ action = "DeleteMessage" ∧ ¬ has_field "ReceiptHandle" reqBody
      ∨ action = "DeleteMessageBatch" ∧
        Proxy.Contains reqBody "DeleteMessageBatchRequestEntry." = false)) →
  modifyResponse reqBody contentType amzTarget body w = Some (tt, w).
Proof.
  intros action H. unfold Proxy.modifyResponse. fold action.
  destruct H as [Hd | [(Hj & Hreq & Hresp) | (Hj & H)]].
  - by rewrite Hd.
  - rewrite Hj.
    destruct (Proxy.dispatch action) as [[| | | |]|]; [| | | | |done].
    + unfold Proxy.onSendMessage, Proxy.parseJSONField. by rewrite Hresp.
    + unfold Proxy.onSendMessageBatch, Proxy.json_entries. by rewrite Hresp.
    + unfold Proxy.onReceiveMessage, Proxy.parseReceiveMessageResponseJSON.
      by rewrite Hresp.
    + unfold Proxy.onDeleteMessage, Proxy.parseJSONField. by rewrite Hreq.
    + unfold Proxy.onDeleteMessageBatch, Proxy.json_entries. by rewrite Hreq.
  - rewrite Hj.
    destruct H as [([-> | ->] & Hc) | [(-> & Hc) | [(-> & Hc) | (-> & Hc)]]];
      cbn [Proxy.dispatch bool_decide]; simpl.
    + unfold Proxy.onSendMessage.
      by rewrite (extractXMLTag_absent body "MessageId" Hc).
    + unfold Proxy.onSendMessageBatch.
      by rewrite (extractAllXMLTags_absent body "MessageId" Hc).
    + unfold Proxy.onReceiveMessage.
      by rewrite (parseReceiveMessageResponseXML_absent body Hc).
    + unfold Proxy.onDeleteMessage, Proxy.parseFormField.
      apply FindStringSubmatch_field_None in Hc. by rewrite Hc.
    + unfold Proxy.onDeleteMessageBatch.
      by rewrite (batch_entries_absent reqBody Hc).
Qed.

(** X17: a batch send records one Send per message id of the response.
    Afterwards each of these ids has a fresh current-state entry for the
    queue of the request, not deleted, whose body is the placeholder
    [[batch message]] and which has no attributes, whatever was recorded
    for the id before; the entries of the other ids, and the receipt
    index, are as they were. *)
Theorem X17_batch_send_placeholder reqBody contentType amzTarget body
    (w : World) :
  let queueURL := Proxy.parseQueueURL Unmarshal contentType reqBody in
  let queueName := Proxy.extractQueueName queueURL in
  let ids := if Proxy.isJSON contentType
             then Proxy.json_entries Unmarshal body "Successful" "MessageId"
             else Proxy.extractAllXMLTags body "MessageId" in
  reachable w →
  Proxy.action_of amzTarget reqBody = "SendMessageBatch" →
  ∃ w',
    modifyResponse reqBody contentType amzTarget body w = Some (tt, w') ∧
    reachable w' ∧
    (∀ m, m ∈ ids →
       ∃ id t, current_state w' m
               = Some (sent id t queueURL queueName m "[batch message]" ∅)) ∧
    (∀ m, m ∉ ids → current_state w' m = current_state w m) ∧
    (∀ k q, k ∈ members w q ∨ (q = queueName ∧ k ∈ ids) ↔ k ∈ members w' q) ∧
    receipts (store w') = receipts (store w) ∧
    length (history (store w'))
      = (length (history (store w)) + length ids)%nat.
Proof.
  intros queueURL queueName ids Hw Ha.
  destruct (run_sends queueURL queueName "[batch message]" ∅ ids w
              (reachable_wf w Hw))
    as (w' & Hrun & _ & Hrest).
  exists w'.
  assert (Hm : modifyResponse reqBody contentType amzTarget body w
               = Some (tt, w')).
  { unfold Proxy.modifyResponse. rewrite Ha. cbn [Proxy.dispatch bool_decide].
    simpl. unfold Proxy.onSendMessageBatch. rewrite <- Hrun.
    by apply for_each_run. }
  split; [exact Hm|]. split; [by apply (reachable_run _ w w' Hw Hrun)|].
  exact Hrest.
Qed.

(** X18: a receive records one Receive per message of the response, in
    order, also for a message without id or receipt handle.  It changes
    no current-state entry that existed (a known message keeps its body
    and its deleted flag), gives every message of the response an entry,
    and files every receipt handle of the response under the id of a
    message of the response that carries it; other handles stay. *)
Theorem X18_receive_recorded reqBody contentType amzTarget body (w : World) :
  let queueURL := Proxy.parseQueueURL Unmarshal contentType reqBody in
  let queueName := Proxy.extractQueueName queueURL in
  let msgs := if Proxy.isJSON contentType
              then Proxy.parseReceiveMessageResponseJSON Unmarshal body
              else Proxy.parseReceiveMessageResponseXML body in
  reachable w →
  Proxy.action_of amzTarget reqBody = "ReceiveMessage" →
  ∃ w',
    modifyResponse reqBody contentType amzTarget body w = Some (tt, w') ∧
    reachable w' ∧
    (∀ m c0, current_state w m = Some c0 → current_state w' m = Some c0) ∧
    (∀ msg, msg ∈ msgs →
       ∃ c, current_state w' (Proxy.MessageID msg) = Some c ∧
            MessageID c = Proxy.MessageID msg) ∧
    (∀ m, m ∉ Proxy.MessageID <$> msgs →
          current_state w' m = current_state w m) ∧
    (∀ msg, msg ∈ msgs →
       ∃ msg', msg' ∈ msgs ∧
         Proxy.ReceiptHandle msg' = Proxy.ReceiptHandle msg ∧
         receipts (store w') !! Proxy.ReceiptHandle msg
           = Some (Proxy.MessageID msg')) ∧
    (∀ rh, rh ∉ Proxy.ReceiptHandle <$> msgs →
           receipts (store w') !! rh = receipts (store w) !! rh) ∧
    length (history (store w'))
      = (length (history (store w)) + length msgs)%nat.
Proof.
  intros queueURL queueName msgs Hw Ha.
  destruct (run_receives queueURL queueName msgs w (reachable_wf w Hw))
    as (w' & Hrun & _ & Hrest).
  exists w'.
  assert (Hm : modifyResponse reqBody contentType amzTarget body w
               = Some (tt, w')).
  { unfold Proxy.modifyResponse. rewrite Ha. cbn [Proxy.dispatch bool_decide].
    simpl. unfold Proxy.onReceiveMessage. rewrite <- Hrun.
    by apply for_each_run. }
  split; [exact Hm|]. split; [by apply (reachable_run _ w w' Hw Hrun)|].
  exact Hrest.
Qed.

End Handlers.

Lemma X16_nothing_recorded_witness :
  let w := after sample_calls in
  Proxy.modifyResponse no_json map_to_list "Action=ListQueues" form_type ""
    "<ListQueuesResult></ListQueuesResult>" w = Some (tt, w) ∧
  Proxy.modifyResponse no_json map_to_list form_send form_type ""
    error_response w = Some (tt, w) ∧
  Proxy.modifyResponse no_json map_to_list json_empty
    "application/x-amz-json-1.0" "AmazonSQS.DeleteMessage" json_empty w
    = Some (tt, w).
Proof.
  intros w. split; [|split].
  - apply (X16_nothing_recorded no_json map_to_list). left. reflexivity.
  - apply (X16_nothing_recorded no_json map_to_list). right. right.
    split; [reflexivity|]. left. split; [by left | reflexivity].
  - apply (X16_nothing_recorded no_json map_to_list). right. left.
    by repeat split.
Defined.

Lemma X17_batch_send_placeholder_witness :
  let w := after sample_calls in
  reachable w ∧
  Proxy.action_of "" batch_request = "SendMessageBatch" ∧
  Proxy.extractAllXMLTags batch_response "MessageId" = ["m1"; "m7"] ∧
  ∃ w',
    Proxy.modifyResponse no_json map_to_list batch_request form_type ""
      batch_response w = Some (tt, w') ∧
    (∃ id t, current_state w' "m1"
             = Some (sent id t sample_url "q1" "m1" "[batch message]" ∅)) ∧
    (∃ id t, current_state w' "m7"
             = Some (sent id t sample_url "q1" "m7" "[batch message]" ∅)) ∧
    receipts (store w') = receipts (store w).
Proof.
  intros w.
  assert (Hw : reachable w) by apply reachable_after.
  assert (Ha : Proxy.action_of "" batch_request = "SendMessageBatch")
    by (vm_compute; reflexivity).
  assert (Hids : Proxy.extractAllXMLTags batch_response "MessageId"
                 = ["m1"; "m7"]) by (vm_compute; reflexivity).
  assert (Hu : Proxy.parseQueueURL no_json form_type batch_request
               = sample_url) by (vm_compute; reflexivity).
  assert (Hq : Proxy.extractQueueName sample_url = "q1")
    by (vm_compute; reflexivity).
  assert (Hj : Proxy.isJSON form_type = false) by (vm_compute; reflexivity).
  split; [exact Hw|]. split; [exact Ha|]. split; [exact Hids|].
  clearbody w.
  pose proof (X17_batch_send_placeholder no_json map_to_list batch_request
                form_type "" batch_response w Hw Ha) as H.
  cbv zeta in H. rewrite Hj, Hu, Hq, Hids in H.
  destruct H as (w' & Hm & _ & Hin & _ & _ & Hrec & _).
  exists w'. split; [exact Hm|].
  split; [apply Hin; by left|].
  split; [apply Hin; right; by left | exact Hrec].
Defined.

Lemma X18_receive_recorded_witness :
  let w := after sample_calls in
  reachable w ∧
  Proxy.action_of "" receive_request = "ReceiveMessage" ∧
  Proxy.parseReceiveMessageResponseXML receive_response
    = [Proxy.mkReceivedMessage "m1" "rh2" "changed" ∅;
       Proxy.mkReceivedMessage "m9" "rh9" "new" ∅] ∧
  ∃ w',
    Proxy.modifyResponse no_json map_to_list receive_request form_type ""
      receive_response w = Some (tt, w') ∧
    Body <$> current_state w' "m1" = Some "hi" ∧
    is_Some (current_state w' "m9") ∧
    receipts (store w') !! "rh2" = Some "m1" ∧
    receipts (store w') !! "rh1" = Some "m1".
Proof.
  intros w.
  assert (Hw : reachable w) by apply reachable_after.
  assert (Ha : Proxy.action_of "" receive_request = "ReceiveMessage")
    by (vm_compute; reflexivity).
  assert (Hmsgs : Proxy.parseReceiveMessageResponseXML receive_response
    = [Proxy.mkReceivedMessage "m1" "rh2" "changed" ∅;
       Proxy.mkReceivedMessage "m9" "rh9" "new" ∅])
    by (vm_compute; reflexivity).
  assert (Hj : Proxy.isJSON form_type = false) by (vm_compute; reflexivity).
  assert (H1 : ∃ c, current_state w "m1" = Some c ∧ Body c = "hi")
    by (eexists; split; vm_compute; reflexivity).
  assert (H2 : receipts (store w) !! "rh1" = Some "m1")
    by (vm_compute; reflexivity).
  split; [exact Hw|]. split; [exact Ha|]. split; [exact Hmsgs|].
  clearbody w.
  pose proof (X18_receive_recorded no_json map_to_list receive_request
                form_type "" receive_response w Hw Ha) as H.
  cbv zeta in H. rewrite Hj, Hmsgs in H.
  destruct H as (w' & Hm & _ & Hkeep & Hin & _ & Hrcp & Hfr & _).
  destruct H1 as (c1 & H1 & Hb1).
  exists w'. split; [exact Hm|].
  split; [by rewrite (Hkeep _ _ H1); simpl; rewrite Hb1|]. split; [|split].
  - destruct (Hin (Proxy.mkReceivedMessage "m9" "rh9" "new" ∅)) as (c & Hc & _).
    + right. by left.
    + by exists c.
  - destruct (Hrcp (Proxy.mkReceivedMessage "m1" "rh2" "changed" ∅))
      as (msg' & Hin' & Hrh & Hlook); [by left|].
    simpl in Hlook. rewrite Hlook. f_equal.
    apply elem_of_cons in Hin' as [->|Hin']; [done|].
    apply elem_of_cons in Hin' as [->|Hin']; [done|].
    by apply elem_of_nil in Hin'.
  - rewrite Hfr; [exact H2|]. simpl.
    intros [?|[?|?%elem_of_nil]%elem_of_cons]%elem_of_cons; done.
Defined.

(** ** The XML responses *)




(** A needle that has its only [<] in front cannot start in [p1] and
    end beyond it, when a [<] follows [p1]. *)
Lemma no_straddle t p1 r x :
  all_bytes Proxy.not_lt t = true →
  Proxy.strip_prefix t (p1 +:+ String "<" r) = Some x →
  ∃ y, Proxy.strip_prefix t p1 = Some y.
Proof.
  revert p1. induction t as [|a t IH]; intros p1 Ht; [by eexists|].
  simpl in Ht. apply andb_true_iff in Ht as [Ha Ht].
  destruct p1 as [|b p1]; sapp; cbn [Proxy.strip_prefix].
  - unfold Proxy.not_lt in Ha. apply negb_true_iff in Ha. by rewrite Ha.
  - destruct (Ascii.eqb a b); [by apply IH | done].
Qed.

Lemma needle_first t hay rest :
  all_bytes Proxy.not_lt t = true →
  Proxy.Contains hay (String "<" t) = false →
  ∀ p1 p2, hay = p1 +:+ p2 → p2 ≠ "" →
    Proxy.strip_prefix (String "<" t) (p2 +:+ String "<" rest) = None.
Proof.
  intros Ht Hc p1 p2 Hhay Hne.
  pose proof (Contains_false _ _ Hc p1 p2 Hhay) as Hno.
  destruct p2 as [|b p2]; [done|]. sapp. cbn [Proxy.strip_prefix] in *.
  destruct (Ascii.eqb "<" b); [|done].
  destruct (Proxy.strip_prefix t (p2 +:+ String "<" rest)) as [x|] eqn:Hx;
    [|done].
  destruct (no_straddle t p2 rest x Ht Hx) as [y Hy]. by rewrite Hy in Hno.
Qed.

(** The successive matches. *)
Lemma FindAllStringSubmatch_skip {A} (re : string → option (A * string))
    m r :
  Proxy.FindAllStringSubmatch_from re (m +:+ r) (String.length m)
  = Proxy.FindAllStringSubmatch_from re r 0.
Proof. induction m as [|a m IH]; sapp; [done | exact IH]. Qed.

Lemma FindAllStringSubmatch_cons {A} (re : string → option (A * string))
    pre matched c r :
  (∀ p1 p2, pre = p1 +:+ p2 → p2 ≠ "" → re (p2 +:+ matched +:+ r) = None) →
  matched ≠ "" →
  re (matched +:+ r) = Some (c, r) →
  Proxy.FindAllStringSubmatch re (pre +:+ matched +:+ r)
  = c :: Proxy.FindAllStringSubmatch re r.
Proof.
  intros Hpre Hne Hre. unfold Proxy.FindAllStringSubmatch.
  induction pre as [|a pre IH]; sapp.
  - destruct matched as [|a m]; [done|]. sapp.
    cbn [Proxy.FindAllStringSubmatch_from].
    rewrite Hre.
    f_equal. rewrite length_sapp.
    replace (String.length m + String.length r - String.length r)%nat
      with (String.length m) by lia.
    apply FindAllStringSubmatch_skip.
  - cbn [Proxy.FindAllStringSubmatch_from].
    pose proof (Hpre "" (String a pre) eq_refl) as Hnone. sapp.
    rewrite Hnone by done. apply IH.
    intros p1 p2 -> Hp2. by apply (Hpre (String a p1)).
Qed.







Lemma until_eq close s :
  Proxy.until close s =
    match Proxy.strip_prefix close s with
    | Some rest => Some (EmptyString, rest)
    | None =>
        match s with
        | EmptyString => None
        | String c s' =>
            match Proxy.until close s' with
            | Some (v, rest) => Some (String c v, rest)
            | None => None
            end
        end
    end.
Proof. by destruct s. Qed.

Lemma until_first close inner rest :
  (∀ p1 p2, inner = p1 +:+ p2 → p2 ≠ "" →
     Proxy.strip_prefix close (p2 +:+ close +:+ rest) = None) →
  Proxy.until close (inner +:+ close +:+ rest) = Some (inner, rest).
Proof.
  induction inner as [|a inner IH]; intros Hno; sapp.
  - by rewrite until_eq, strip_prefix_app.
  - pose proof (Hno "" (String a inner) eq_refl) as H0. sapp.
    rewrite until_eq, H0 by done. rewrite IH; [done|].
    intros p1 p2 -> Hp2. by apply (Hno (String a p1)).
Qed.

Lemma block_at_here open t inner rest :
  all_bytes Proxy.not_lt t = true →
  Proxy.Contains inner (String "<" t) = false →
  Proxy.block_at open (String "<" t)
    (open +:+ inner +:+ String "<" t +:+ rest) = Some (inner, rest).
Proof.
  intros Ht Hc. unfold Proxy.block_at. rewrite strip_prefix_app.
  apply until_first. intros p1 p2 Hp Hp2.
  exact (needle_first t inner (t +:+ rest) Ht Hc p1 p2 Hp Hp2).
Qed.

Lemma Contains_suffix pre suf n :
  Proxy.Contains (pre +:+ suf) n = false → Proxy.Contains suf n = false.
Proof.
  induction pre as [|a pre IH]; sapp; [done|].
  cbn [Proxy.Contains]. destruct (Proxy.HasPrefix _ n); [done | exact IH].
Qed.

Lemma until_None close s :
  Proxy.Contains s close = false → Proxy.until close s = None.
Proof.
  induction s as [|a s IH]; intros Hc; rewrite until_eq;
    rewrite (Contains_false _ _ Hc "" _ eq_refl); [done|].
  rewrite IH; [done|]. by apply (Contains_suffix (String a "") s).
Qed.

(** X19: [parseReceiveMessageResponseXML] returns one message per
    [<Message>] element, in document order: none for a response without
    [<Message>], and for a response whose first [<Message>] is closed
    by the first [</Message>] after it the message read from what they
    enclose, followed by the messages of what comes after; a response
    in which no [</Message>] occurs has no message. *)
Theorem X19_receive_response_xml :
  (∀ xml, Proxy.Contains xml "<Message>" = false →
          Proxy.parseReceiveMessageResponseXML xml = []) ∧
  (∀ pre inner rest,
     Proxy.Contains pre "<Message>" = false →
     Proxy.Contains inner "</Message>" = false →
     Proxy.parseReceiveMessageResponseXML
       (pre +:+ "<Message>" +:+ inner +:+ "</Message>" +:+ rest)
     = Proxy.xml_message inner :: Proxy.parseReceiveMessageResponseXML rest) ∧
  (∀ xml, Proxy.Contains xml "</Message>" = false →
          Proxy.parseReceiveMessageResponseXML xml = []).
Proof.
  split; [exact parseReceiveMessageResponseXML_absent|]. split.
  - intros pre inner rest Hpre Hinner.
    unfold Proxy.parseReceiveMessageResponseXML.
    assert (Hshape : "<Message>" +:+ inner +:+ "</Message>" +:+ rest
                     = ("<Message>" +:+ inner +:+ "</Message>") +:+ rest)
      by (by rewrite !sapp_assoc).
    rewrite Hshape.
    rewrite (FindAllStringSubmatch_cons _ pre _ inner rest); [done| | |].
    + intros p1 p2 Hp Hp2. rewrite <- Hshape. unfold Proxy.block_at.
      assert (Hn : Proxy.strip_prefix "<Message>"
                (p2 +:+ "<Message>" +:+ inner +:+ "</Message>" +:+ rest)
              = None)
        by exact (needle_first "Message>" pre
                    ("Message>" +:+ inner +:+ "</Message>" +:+ rest)
                    eq_refl Hpre p1 p2 Hp Hp2).
      by rewrite Hn.
    + change (String "<" ("Message>" +:+ inner +:+ "</Message>") ≠ ""). done.
    + rewrite <- Hshape.
      exact (block_at_here "<Message>" "/Message>" inner rest eq_refl Hinner).
  - intros xml Hc.
    unfold Proxy.parseReceiveMessageResponseXML, Proxy.FindAllStringSubmatch.
    rewrite FindAllStringSubmatch_none; [done|]. intros pre suf ->.
    unfold Proxy.block_at.
    destruct (Proxy.strip_prefix "<Message>" suf) as [r|] eqn:Hr; [|done].
    apply strip_prefix_Some in Hr as ->. apply until_None.
    apply (Contains_suffix (pre +:+ "<Message>")). by rewrite sapp_assoc.
Qed.

Lemma X19_receive_response_xml_witness :
  Proxy.parseReceiveMessageResponseXML receive_response
  = [Proxy.mkReceivedMessage "m1" "rh2" "changed" ∅;
     Proxy.mkReceivedMessage "m9" "rh9" "new" ∅] ∧
  Proxy.parseReceiveMessageResponseXML error_response = [].
Proof.
  destruct X19_receive_response_xml as (H1 & H2 & _). split.
  - etransitivity.
    + exact (H2 "<ReceiveMessageResult>"
               ("<MessageId>m1</MessageId><ReceiptHandle>rh2</ReceiptHandle>"
                +:+ "<Body>changed</Body>")
               ("<Message><MessageId>m9</MessageId>"
                +:+ "<ReceiptHandle>rh9</ReceiptHandle>"
                +:+ "<Body>new</Body></Message></ReceiveMessageResult>")
               eq_refl eq_refl).
    + vm_compute. reflexivity.
  - apply H1. vm_compute. reflexivity.
Defined.


(** ** Whole exchanges *)


Section Exchanges.

Variable Unmarshal : string → option (gmap string Proxy.JSON).
Variable range_names : gmap string string → list (string * string).

Local Abbreviation modifyResponse :=
  (Proxy.modifyResponse Unmarshal range_names).

(** X11: the action [ServeHTTP] logs for a request is the action
    [modifyResponse] dispatches on for its response, although the two
    functions test the target header differently. *)
Theorem X11_logged_action_is_dispatched (target body : string) :
  Proxy.parseAction target body = Proxy.action_of target body ∧
  Proxy.dispatch (Proxy.parseAction target body)
  = Proxy.modifyResponse_handler target body.
Proof.
  assert (H : Proxy.parseAction target body = Proxy.action_of target body).
  { unfold Proxy.parseAction, Proxy.action_of.
    destruct (decide (target = "")) as [->|Hne].
    - reflexivity.
    - rewrite (bool_decide_eq_true_2 _ Hne).
      destruct (decide (Proxy.parseActionFromTarget target = "")) as [He|He].
      + by rewrite (bool_decide_eq_false_2 _ (λ H, H He)),
                   (bool_decide_eq_true_2 _ He).
      + by rewrite (bool_decide_eq_true_2 _ He),
                   (bool_decide_eq_false_2 _ He). }
  split; [exact H|]. unfold Proxy.modifyResponse_handler. by rewrite H.
Qed.

(** X21: in the JSON encoding the attributes taken from a request are
    exactly the entries of its [MessageAttributes] object that are
    objects with a string [StringValue]; entries of another shape, such
    as binary attributes, are left out, and a body that does not decode
    or has no such object gives no attribute. *)
Theorem X21_json_attributes (body name sv : string) :
  Proxy.extractMessageAttributes Unmarshal range_names body true !! name
    = Some sv ↔
  ∃ data msgAttrs attr,
    Unmarshal body = Some data ∧
    data !! "MessageAttributes" = Some (Proxy.JObject msgAttrs) ∧
    msgAttrs !! name = Some (Proxy.JObject attr) ∧
    attr !! "StringValue" = Some (Proxy.JString sv).
Proof.
  unfold Proxy.extractMessageAttributes.
  destruct (Unmarshal body) as [data|]; cycle 1.
  { rewrite lookup_empty. split; [done|]. by intros (? & ? & ? & ? & _). }
  destruct (data !! "MessageAttributes") as [v|] eqn:Hv; cycle 1.
  { simpl. rewrite lookup_empty. split; [done|].
    by intros (? & ? & ? & [= <-] & ? & _); congruence. }
  destruct v as [| | | |items|msgAttrs]; simpl;
    try (rewrite lookup_empty; split; [done|];
         by intros (? & ? & ? & [= <-] & ? & _); congruence).
  unfold Proxy.string_attributes. rewrite lookup_omap.
  destruct (msgAttrs !! name) as [e|] eqn:He; simpl.
  - split.
    + destruct e as [| | | | |attr]; simpl; try done.
      destruct (attr !! "StringValue") as [[| | |s| |]|] eqn:Hs; simpl;
        try done.
      intros [= ->]. by exists data, msgAttrs, attr.
    + intros (d & ms & attr & [= <-] & Hm & Hn & Hs).
      rewrite Hv in Hm. injection Hm as <-.
      rewrite Hn in He. injection He as <-. simpl. by rewrite Hs.
  - split; [done|].
    intros (d & ms & attr & [= <-] & Hm & Hn & _).
    rewrite Hv in Hm. injection Hm as <-. congruence.
Qed.


(** X25: a send whose response carries a message id records the message
    under that id for the queue of the request, with the body and the
    attributes read from the request, as not deleted and in place of
    what was recorded for the id before; it adds the id to the members
    of the queue and one event to the history, and leaves the other
    entries and the receipt index as they were. *)
Theorem X25_send_recorded reqBody contentType amzTarget body (w : World) :
  let json := Proxy.isJSON contentType in
  let queueURL := Proxy.parseQueueURL Unmarshal contentType reqBody in
  let queueName := Proxy.extractQueueName queueURL in
  let messageID := if json then Proxy.parseJSONField Unmarshal body "MessageId"
                   else Proxy.extractXMLTag body "MessageId" in
  let msgBody := if json
                 then Proxy.parseJSONField Unmarshal reqBody "MessageBody"
                 else Proxy.parseFormField reqBody "MessageBody" in
  let attrs := Proxy.extractMessageAttributes Unmarshal range_names
                 reqBody json in
  reachable w →
  Proxy.action_of amzTarget reqBody = "SendMessage" →
  messageID ≠ "" →
  ∃ w' id t,
    modifyResponse reqBody contentType amzTarget body w = Some (tt, w') ∧
    reachable w' ∧
    current_state w' messageID
      = Some (sent id t queueURL queueName messageID msgBody attrs) ∧
    (∀ m, m ≠ messageID → current_state w' m = current_state w m) ∧
    messageID ∈ members w' queueName ∧
    receipts (store w') = receipts (store w) ∧
    length (history (store w')) = S (length (history (store w))).
Proof.
  intros json queueURL queueName messageID msgBody attrs Hw Ha Hne.
  destruct (run_sends queueURL queueName msgBody attrs [messageID] w
              (reachable_wf w Hw))
    as (w' & Hrun & _ & Hin & Hout & Hmem & Hrec & Hlen).
  destruct (Hin messageID) as (id & t & Hcur); [by left|].
  exists w', id, t.
  assert (Hm : modifyResponse reqBody contentType amzTarget body w
               = Some (tt, w')).
  { unfold Proxy.modifyResponse. rewrite Ha. cbn [Proxy.dispatch bool_decide].
    simpl. unfold Proxy.onSendMessage. fold json. fold messageID.
    rewrite (bool_decide_eq_true_2 _ Hne). rewrite <- Hrun.
    exact (call_run (CallSend queueURL queueName messageID msgBody attrs) w). }
  split; [exact Hm|]. split; [by apply (reachable_run _ w w' Hw Hrun)|].
  split; [exact Hcur|]. split.
  { intros m Hm'. apply Hout. by intros ->%list_elem_of_singleton. }
  split; [apply Hmem; right; split; [done | by left]|].
  split; [exact Hrec|]. rewrite Hlen. simpl. lia.
Qed.

End Exchanges.


Lemma X25_send_recorded_witness :
  let w := after sample_calls in
  reachable w ∧
  Proxy.action_of "" form_send = "SendMessage" ∧
  Proxy.extractXMLTag "<MessageId>m5</MessageId>" "MessageId" = "m5" ∧
  ∃ w' id t,
    Proxy.modifyResponse no_json map_to_list form_send form_type ""
      "<MessageId>m5</MessageId>" w = Some (tt, w') ∧
    current_state w' "m5" = Some (sent id t sample_url "q1" "m5" "hi" ∅).
Proof.
  intros w.
  assert (Hw : reachable w) by apply reachable_after.
  assert (Ha : Proxy.action_of "" form_send = "SendMessage")
    by (vm_compute; reflexivity).
  assert (Hid : Proxy.extractXMLTag "<MessageId>m5</MessageId>" "MessageId"
                = "m5") by (vm_compute; reflexivity).
  assert (Hu : Proxy.parseQueueURL no_json form_type form_send = sample_url)
    by (vm_compute; reflexivity).
  assert (Hq : Proxy.extractQueueName sample_url = "q1")
    by (vm_compute; reflexivity).
  assert (Hb : Proxy.parseFormField form_send "MessageBody" = "hi")
    by (vm_compute; reflexivity).
  assert (Hat : Proxy.extractMessageAttributes no_json map_to_list form_send
                  false = ∅) by (vm_compute; reflexivity).
  assert (Hj : Proxy.isJSON form_type = false) by (vm_compute; reflexivity).
  split; [exact Hw|]. split; [exact Ha|]. split; [exact Hid|].
  clearbody w.
  pose proof (X25_send_recorded no_json map_to_list form_send form_type ""
                "<MessageId>m5</MessageId>" w Hw Ha) as H.
  cbv zeta in H. rewrite Hj, Hid, Hu, Hq, Hb, Hat in H.
  destruct H as (w' & id & t & Hm & _ & Hcur & _); [done|].
  by exists w', id, t.
Defined.

(** ** The dashboard handlers *)

Lemma GetHistory_positive (k : Z) (w : World) :
  0 < k →
  GetHistory k w = Some (take (Z.to_nat k) (reverse (history (store w))), w).
Proof.
  intros Hk. rewrite GetHistory_take. cbv zeta.
  destruct ((k <=? 0) || (Z.of_nat (length (history (store w))) <? k)) eqn:Hc;
    [|done].
  apply orb_true_iff in Hc as [Hc|Hc]; [lia|].
  rewrite !take_ge; [done | |]; rewrite length_reverse; lia.
Qed.

Lemma GetHistory_whole (k : Z) (w : World) :
  k <= 0 → GetHistory k w = Some (reverse (history (store w)), w).
Proof.
  intros Hk. rewrite GetHistory_take. cbv zeta.
  replace (k <=? 0) with true by lia. simpl.
  rewrite take_ge; [done|]. rewrite length_reverse. lia.
Qed.

(** X20: the [limit] parameter of the history endpoint.  Without the
    parameter, or with a value [strconv.Atoi] rejects, the response
    holds the 100 most recent events at most; with a number that is not
    positive it holds the whole history, however long; with a positive
    number that many of the most recent events; always the most recent
    first. *)
Theorem X20_history_limit (l : string) (w : World) :
  let h := history (store w) in
  (Dashboard.Atoi l = None →
     Dashboard.handleHistory l w = Some (take 100 (reverse h), w)) ∧
  (∀ n, Dashboard.Atoi l = Some n → n <= 0 →
     Dashboard.handleHistory l w = Some (reverse h, w)) ∧
  (∀ n, Dashboard.Atoi l = Some n → 0 < n →
     Dashboard.handleHistory l w = Some (take (Z.to_nat n) (reverse h), w)).
Proof.
  intros h. unfold Dashboard.handleHistory, Dashboard.history_limit.
  split; [|split].
  - intros ->. simpl. destruct (bool_decide (l ≠ ""));
      by rewrite GetHistory_positive.
  - intros n Hn Hle. rewrite Hn. simpl.
    rewrite bool_decide_eq_true_2 by (by intros ->).
    by apply GetHistory_whole.
  - intros n Hn Hlt. rewrite Hn. simpl.
    rewrite bool_decide_eq_true_2 by (by intros ->).
    by apply GetHistory_positive.
Qed.

Lemma X20_history_limit_witness :
  let w := after (sample_calls ++ sample_calls) in
  Dashboard.handleHistory "" w = Some ([3; 2; 1; 0]%nat, w) ∧
  Dashboard.handleHistory "1e2" w = Some ([3; 2; 1; 0]%nat, w) ∧
  Dashboard.handleHistory "-1" w = Some ([3; 2; 1; 0]%nat, w) ∧
  Dashboard.handleHistory "+2" w = Some ([3; 2]%nat, w).
Proof.
  intros w.
  assert (Hh : history (store w) = [0; 1; 2; 3]%nat)
    by (vm_compute; reflexivity).
  clearbody w.
  destruct (X20_history_limit "" w) as (H1 & _).
  destruct (X20_history_limit "1e2" w) as (H2 & _).
  destruct (X20_history_limit "-1" w) as (_ & H3 & _).
  destruct (X20_history_limit "+2" w) as (_ & _ & H4).
  rewrite Hh in H1, H2, H3, H4.
  split; [exact (H1 eq_refl)|]. split; [exact (H2 eq_refl)|].
  split; [exact (H3 (-1) eq_refl ltac:(lia))|].
  exact (H4 2 eq_refl ltac:(lia)).
Defined.

(** X23: the clear endpoint resets the store for the methods POST and
    DELETE only.  Any other method leaves the store as it is; after a
    POST or a DELETE the message and history endpoints return nothing,
    whatever their parameters, while the allocated messages and the id
    counter stay. *)
Theorem X23_clear_endpoint (method : string) (w : World) :
  (method ≠ "POST" → method ≠ "DELETE" →
     Dashboard.handleClear method w = Some (false, w)) ∧
  (method = "POST" ∨ method = "DELETE" →
     ∃ w', Dashboard.handleClear method w = Some (true, w') ∧
           store w' = New ∧ heap w' = heap w ∧ idCounter w' = idCounter w ∧
           (∀ queue deleted,
              Dashboard.handleMessages queue deleted w' = Some ([], w')) ∧
           (∀ l, Dashboard.handleHistory l w' = Some ([], w'))).
Proof.
  unfold Dashboard.handleClear. split.
  - intros H1 H2. by rewrite !bool_decide_eq_true_2.
  - intros Hm.
    assert (bool_decide (method ≠ "POST") && bool_decide (method ≠ "DELETE")
            = false) as ->.
    { destruct Hm as [-> | ->]; reflexivity. }
    unfold mbind, M_bind. rewrite Clear_step. simpl.
    eexists. split; [reflexivity|]. simpl.
    split; [done|]. split; [done|]. split; [done|]. split.
    + intros queue deleted.
      unfold Dashboard.handleMessages, GetMessages, mbind, M_bind, getStore.
      simpl. by rewrite map_to_list_empty.
    + intros l. unfold Dashboard.handleHistory.
      rewrite GetHistory_take. simpl.
      change (reverse []) with (@nil nat). by rewrite take_nil.
Qed.

Lemma X23_clear_endpoint_witness :
  let w := after sample_calls in
  Dashboard.handleClear "GET" w = Some (false, w) ∧
  ∃ w', Dashboard.handleClear "DELETE" w = Some (true, w') ∧
        Dashboard.handleHistory "" w' = Some ([], w').
Proof.
  intros w. clearbody w.
  destruct (X23_clear_endpoint "GET" w) as (H1 & _).
  destruct (X23_clear_endpoint "DELETE" w) as (_ & H2).
  split; [by apply H1|].
  destruct H2 as (w' & Hc & _ & _ & _ & _ & Hh); [by right|].
  exists w'. by split.
Defined.
